(** * medifor analytic service: registry, dispatch and the FIFO transport

    A shallow embedding of [python/medifor/v1/analyticservice.py]: the
    endpoint registry ([_RegisterImpl]), the dispatch core ([_CallEndpoint])
    and the named-pipe transport ([AnalyticServiceFIFO]), followed by the
    properties the specification states about them.  The gRPC side
    ([_AnalyticServicer], [AnalyticService.Start] and [Run]) and the two
    opt-out functions are embedded as well, with what the code shows about
    them.

    Python text is modelled as [string]: a sequence of code points below
    256.  Objects that the code shares by reference (the service object,
    protobuf messages) live in a store and are passed around as locations. *)

From Stdlib Require Import ZArith NArith String Ascii List Lia.
From stdpp Require Import base tactics option list strings gmap pretty.

Set Warnings "-register-all".


Local Open Scope Z_scope.

(** ** Python text: characters, [repr], JSON string escaping *)

Module PyText.

Definition dquote : ascii := "034"%char.
Definition squote : ascii := "039"%char.
Definition backslash : ascii := "092"%char.
Definition newline : ascii := "010"%char.
Definition tab : ascii := "009"%char.
Definition cr : ascii := "013"%char.
Definition backspace : ascii := "008"%char.
Definition formfeed : ascii := "012"%char.

Definition chr (c : ascii) : string := String c "".

Definition hex_digit (n : N) : ascii :=
  match n with
  | 0 => "0" | 1 => "1" | 2 => "2" | 3 => "3" | 4 => "4" | 5 => "5"
  | 6 => "6" | 7 => "7" | 8 => "8" | 9 => "9" | 10 => "a" | 11 => "b"
  | 12 => "c" | 13 => "d" | 14 => "e" | _ => "f"
  end%char%N.

(** ['{:02x}'.format(ord(c))] *)
Definition hex2 (c : ascii) : string :=
  let n := N_of_ascii c in
  String (hex_digit (n / 16)%N) (String (hex_digit (n mod 16)%N) "").

Fixpoint has_char (c : ascii) (s : string) : bool :=
  match s with
  | EmptyString => false
  | String d s' => Ascii.eqb c d || has_char c s'
  end.

(** [str.isprintable] on one code point below 256: controls, DEL, the C1
    block, the no-break space and the soft hyphen are not printable. *)
Definition isprintable (c : ascii) : bool :=
  let n := N_of_ascii c in
  ((32 <=? n) && (n <? 127) || (161 <=? n) && negb (n =? 173))%N.

Definition repr_char (quote c : ascii) : string :=
  if Ascii.eqb c quote || Ascii.eqb c backslash then String backslash (chr c)
  else if Ascii.eqb c tab then "\t"
  else if Ascii.eqb c newline then "\n"
  else if Ascii.eqb c cr then "\r"
  else if isprintable c then chr c
  else "\x" +:+ hex2 c.

Fixpoint repr_body (quote : ascii) (s : string) : string :=
  match s with
  | EmptyString => ""
  | String c s' => repr_char quote c +:+ repr_body quote s'
  end.

(** [repr(s)] for a [str] (Python 3): single quotes, unless the text has a
    single quote and no double quote. *)
Definition repr (s : string) : string :=
  let quote := if has_char squote s && negb (has_char dquote s)
               then dquote else squote in
  String quote (repr_body quote s +:+ chr quote).

(** The text has only characters that [repr] shows as they are. *)
Fixpoint plain (s : string) : bool :=
  match s with
  | EmptyString => true
  | String c s' =>
      isprintable c && negb (Ascii.eqb c squote) && negb (Ascii.eqb c dquote)
      && negb (Ascii.eqb c backslash) && plain s'
  end.

(** [needle in hay] for two [str]. *)
Definition contains (hay needle : string) : Prop :=
  exists pre post, hay = pre +:+ needle +:+ post.

Definition containsb (hay needle : string) : bool :=
  match String.index 0 needle hay with Some _ => true | None => false end.

Definition no_newline (s : string) : Prop := has_char newline s = false.

End PyText.

(** ** The [json] module: values and [json.dumps] *)

Module Json.
Import PyText.

Inductive digit := D0 | D1 | D2 | D3 | D4 | D5 | D6 | D7 | D8 | D9.

Definition digit_char (d : digit) : ascii :=
  match d with
  | D0 => "0" | D1 => "1" | D2 => "2" | D3 => "3" | D4 => "4"
  | D5 => "5" | D6 => "6" | D7 => "7" | D8 => "8" | D9 => "9"
  end%char.

Fixpoint digits (ds : list digit) : string :=
  match ds with
  | [] => ""
  | d :: ds' => String (digit_char d) (digits ds')
  end.

(** A float is carried as the decimal text [float.__repr__] gives it: sign,
    integer part, fraction digits, exponent.  Float arithmetic is not
    modelled; no code here computes with floats. *)
Inductive PyFloat :=
  | FNaN
  | FInf (neg : bool)
  | FDec (neg : bool) (whole : N) (frac : list digit) (exp : option Z).

(** What [json.loads] builds and [json.dumps] takes.  A [dict] keeps its
    insertion order (Python 3.7), so an object is a list of pairs. *)
Inductive JSON :=
  | JNull
  | JBool (b : bool)
  | JInt (z : Z)
  | JFloat (f : PyFloat)
  | JString (s : string)
  | JArray (items : list JSON)
  | JObject (fields : list (string * JSON)).

(** [ESCAPE_ASCII] / [ESCAPE_DCT] of [json.encoder], [ensure_ascii=True]. *)
Definition escape_char (c : ascii) : string :=
  if Ascii.eqb c dquote then String backslash (chr dquote)
  else if Ascii.eqb c backslash then String backslash (chr backslash)
  else if Ascii.eqb c newline then "\n"
  else if Ascii.eqb c cr then "\r"
  else if Ascii.eqb c tab then "\t"
  else if Ascii.eqb c backspace then "\b"
  else if Ascii.eqb c formfeed then "\f"
  else if ((32 <=? N_of_ascii c) && (N_of_ascii c <=? 126))%N then chr c
  else "\u00" +:+ hex2 c.

Fixpoint escape (s : string) : string :=
  match s with
  | EmptyString => ""
  | String c s' => escape_char c +:+ escape s'
  end.

Definition dumps_string (s : string) : string :=
  String dquote (escape s +:+ chr dquote).

Definition dumps_exp (e : Z) : string :=
  "e" +:+ (if e <? 0 then "-" else "+")
      +:+ (if Z.abs e <? 10 then "0" else "") +:+ pretty (Z.abs e).

Definition dumps_float (f : PyFloat) : string :=
  match f with
  | FNaN => "NaN"
  | FInf neg => (if neg then "-" else "") +:+ "Infinity"
  | FDec neg whole frac exp =>
      (if neg then "-" else "") +:+ pretty whole
      +:+ (match frac with [] => "" | _ => "." +:+ digits frac end)
      +:+ (match exp with None => "" | Some e => dumps_exp e end)
  end.

(** [json.dumps(obj)] with the default separators [", "] and [": "]. *)
Fixpoint dumps (j : JSON) : string :=
  match j with
  | JNull => "null"
  | JBool b => if b then "true" else "false"
  | JInt z => pretty z
  | JFloat f => dumps_float f
  | JString s => dumps_string s
  | JArray items =>
      "[" +:+ (fix go (l : list JSON) : string :=
                 match l with
                 | [] => ""
                 | [x] => dumps x
                 | x :: l' => dumps x +:+ ", " +:+ go l'
                 end) items +:+ "]"
  | JObject fields =>
      "{" +:+ (fix go (l : list (string * JSON)) : string :=
                 match l with
                 | [] => ""
                 | [(k, v)] => dumps_string k +:+ ": " +:+ dumps v
                 | (k, v) :: l' =>
                     dumps_string k +:+ ": " +:+ dumps v +:+ ", " +:+ go l'
                 end) fields +:+ "}"
  end.

(** [d.get(key)] on the [dict] of an object. *)
Fixpoint get (fields : list (string * JSON)) (key : string) : option JSON :=
  match fields with
  | [] => None
  | (k, v) :: rest => if String.eqb k key then Some v else get rest key
  end.

Definition json_eqb_string (j : JSON) (s : string) : bool :=
  match j with JString t => String.eqb t s | _ => false end.

End Json.


(** ** Exceptions and gRPC status codes *)

Module PyExn.
Import PyText.

(** The exception classes the module meets, with their place in Python's
    hierarchy.  [UserClass name base] is a class a handler defines. *)
Inductive ExcClass :=
  | BaseException | SystemExit | KeyboardInterrupt | GeneratorExit
  | Exception | ValueError | JSONDecodeError | TypeError | LookupError
  | KeyError | AttributeError | RuntimeError | NotImplementedError
  | OSError | FIFOTimeoutErrorClass | ParseError
  | UserClass (name : string) (base : ExcClass).

#[global] Instance ExcClass_eq_dec : EqDecision ExcClass.
Proof. solve_decision. Defined.

(** [cls.__mro__]: the class and its ancestors. *)
Fixpoint mro (c : ExcClass) : list ExcClass :=
  match c with
  | BaseException => [BaseException]
  | SystemExit => [SystemExit; BaseException]
  | KeyboardInterrupt => [KeyboardInterrupt; BaseException]
  | GeneratorExit => [GeneratorExit; BaseException]
  | Exception => [Exception; BaseException]
  | ValueError => [ValueError; Exception; BaseException]
  | JSONDecodeError => [JSONDecodeError; ValueError; Exception; BaseException]
  | TypeError => [TypeError; Exception; BaseException]
  | LookupError => [LookupError; Exception; BaseException]
  | KeyError => [KeyError; LookupError; Exception; BaseException]
  | AttributeError => [AttributeError; Exception; BaseException]
  | RuntimeError => [RuntimeError; Exception; BaseException]
  | NotImplementedError =>
      [NotImplementedError; RuntimeError; Exception; BaseException]
  | OSError => [OSError; Exception; BaseException]
  | FIFOTimeoutErrorClass =>
      [FIFOTimeoutErrorClass; OSError; Exception; BaseException]
  | ParseError => [ParseError; Exception; BaseException]
  | UserClass name base => UserClass name base :: mro base
  end.

Definition issubclass (c d : ExcClass) : bool := bool_decide (d ∈ mro c).

(** [grpc.StatusCode], an [enum.Enum]. *)
Inductive StatusCode :=
  | OK | CANCELLED | UNKNOWN | INVALID_ARGUMENT | DEADLINE_EXCEEDED
  | NOT_FOUND | ALREADY_EXISTS | PERMISSION_DENIED | RESOURCE_EXHAUSTED
  | FAILED_PRECONDITION | ABORTED | OUT_OF_RANGE | UNIMPLEMENTED
  | INTERNAL | UNAVAILABLE | DATA_LOSS | UNAUTHENTICATED.

#[global] Instance StatusCode_eq_dec : EqDecision StatusCode.
Proof. solve_decision. Defined.

Definition StatusCode_name (c : StatusCode) : string :=
  match c with
  | OK => "OK" | CANCELLED => "CANCELLED" | UNKNOWN => "UNKNOWN"
  | INVALID_ARGUMENT => "INVALID_ARGUMENT"
  | DEADLINE_EXCEEDED => "DEADLINE_EXCEEDED" | NOT_FOUND => "NOT_FOUND"
  | ALREADY_EXISTS => "ALREADY_EXISTS"
  | PERMISSION_DENIED => "PERMISSION_DENIED"
  | RESOURCE_EXHAUSTED => "RESOURCE_EXHAUSTED"
  | FAILED_PRECONDITION => "FAILED_PRECONDITION" | ABORTED => "ABORTED"
  | OUT_OF_RANGE => "OUT_OF_RANGE" | UNIMPLEMENTED => "UNIMPLEMENTED"
  | INTERNAL => "INTERNAL" | UNAVAILABLE => "UNAVAILABLE"
  | DATA_LOSS => "DATA_LOSS" | UNAUTHENTICATED => "UNAUTHENTICATED"
  end.

(** [str(code)]: what [Enum.__str__] gives for a member. *)
Definition str_StatusCode (c : StatusCode) : string :=
  "StatusCode." +:+ StatusCode_name c.

(** An exception object.  [Exc cls msg] is an instance of [cls] whose
    [str()] is [msg].  [FIFOContextAbortedError code details] is the
    module's abort carrier, with its two attributes. *)
Inductive PyExc :=
  | Exc (cls : ExcClass) (msg : string)
  | FIFOContextAbortedError (code : StatusCode) (details : string).

#[global] Instance PyExc_eq_dec : EqDecision PyExc.
Proof. solve_decision. Defined.

(** class FIFOContextAbortedError(IOError) *)
Definition isinstance (e : PyExc) (c : ExcClass) : bool :=
  match e with
  | Exc cls _ => issubclass cls c
  | FIFOContextAbortedError _ _ =>
      bool_decide (c ∈ [OSError; Exception; BaseException])
  end.

(** [str(e)] *)
Definition str_exc (e : PyExc) : string :=
  match e with
  | Exc _ msg => msg
  | FIFOContextAbortedError code details =>
      "Context aborted with code: " +:+ str_StatusCode code
      +:+ ".  Message: " +:+ details
  end.

Definition class_name (c : ExcClass) : string :=
  match c with
  | BaseException => "BaseException" | SystemExit => "SystemExit"
  | KeyboardInterrupt => "KeyboardInterrupt"
  | GeneratorExit => "GeneratorExit" | Exception => "Exception"
  | ValueError => "ValueError"
  | JSONDecodeError => "json.decoder.JSONDecodeError"
  | TypeError => "TypeError" | LookupError => "LookupError"
  | KeyError => "KeyError" | AttributeError => "AttributeError"
  | RuntimeError => "RuntimeError"
  | NotImplementedError => "NotImplementedError" | OSError => "OSError"
  | FIFOTimeoutErrorClass => "medifor.v1.analyticservice.FIFOTimeoutError"
  | ParseError => "google.protobuf.json_format.ParseError"
  | UserClass name _ => name
  end.

Definition exc_class_name (e : PyExc) : string :=
  match e with
  | Exc cls _ => class_name cls
  | FIFOContextAbortedError _ _ =>
      "medifor.v1.analyticservice.FIFOContextAbortedError"
  end.

(** [traceback.format_exc()] while [e] is being handled; [frames] is the
    text of the stack entries between the [try] and the [raise]. *)
Definition format_exc (e : PyExc) (frames : string) : string :=
  "Traceback (most recent call last):" +:+ chr newline +:+ frames
  +:+ exc_class_name e
  +:+ (match str_exc e with "" => "" | m => ": " +:+ m end)
  +:+ chr newline.

(** class FIFOTimeoutError(IOError), [__init__(self, op, timeout)] *)
Definition FIFOTimeoutError (op : string) (timeout : Z) : PyExc :=
  Exc FIFOTimeoutErrorClass
      ("timed out with op " +:+ repr op +:+ " after " +:+ pretty timeout
       +:+ " seconds").

End PyExn.
Import PyText Json PyExn.

(** ** What the module imports

    [analytic_pb2] (the generated protobuf classes), [google.protobuf.json_format]
    and [json.loads] are used through their interface only. *)

(** The request and response classes named by [AnalyticServiceFIFO.TYPES]. *)
Inductive MsgClass :=
  | ImageManipulationRequest | ImageManipulation
  | VideoManipulationRequest | VideoManipulation
  | ImageSpliceRequest | ImageSplice
  | ImageCameraMatchRequest | ImageCameraMatch.

Class Externals := {
  (** the value of a protobuf message object *)
  Message : Type;
  (** [analytic_pb2.C()], a zero-valued message of class [C] *)
  new_message : MsgClass → Message;
  (** [json.loads(line)]; fails with [JSONDecodeError] *)
  json_loads : string → PyExc + JSON;
  (** [json_format.ParseDict(js, message)]: the message after the merge *)
  ParseDict : JSON → Message → PyExc + Message;
  (** [json_format.MessageToDict(message)] *)
  MessageToDict : Message → JSON;
}.

(** ** Store, environment and trace *)

Definition loc := nat.

Inductive PipeEnd := Inbound | Outbound.

(** What the program does that can be seen from outside, in order. *)
Inductive Event :=
  | EvInvoke (ep_type : string) (req resp : loc)
  | EvAbort (code : StatusCode) (details : string)
  | EvLog (level msg : string) (exc_info : option string)
  | EvAcquire (svc : loc)
  | EvRelease (svc : loc)
  | EvOpen (p : PipeEnd)
  | EvSelect (p : PipeEnd)
  | EvReadline (line : string)
  | EvWrite (data : string)
  | EvFlush
  | EvCloseFile (p : PipeEnd).

#[global] Instance PipeEnd_eq_dec : EqDecision PipeEnd.
Proof. solve_decision. Defined.
#[global] Instance Event_eq_dec : EqDecision Event.
Proof. solve_decision. Defined.

Inductive OpenResult :=
  | Opened
  | OpenFails (cls : ExcClass) (msg : string)
  | OpenBlocks.

(** The peer and the operating system.  [os_open] is what [os.open] does on
    a FIFO path: it returns, fails with an [OSError], or blocks until the
    other end is opened.  [readable k] says
    of the [k]-th wait on the inbound pipe after how many seconds it becomes
    readable, and the line [readline] then returns; [None] when it never
    does.  [writable k] does the same for the outbound pipe.  [out_pipe] is
    the text delivered to the outbound pipe, [clock] counts the seconds spent
    waiting in [select], [environ] is [os.environ]. *)
Record World := {
  os_open : string → PipeEnd → OpenResult;
  readable : nat → option (N * string);
  reads : nat;
  writable : nat → option N;
  writes : nat;
  out_pipe : string;
  clock : N;
  environ : string → option string;
}.

(** A text file object from [os.fdopen]. *)
Record File := { f_closed : bool; f_buffer : string }.

(** The attributes [AnalyticServiceFIFO.__init__] adds. *)
Record Fifo := {
  lock : bool;
  infile : option string;
  outfile : option string;
  receiver : option File;
  sender : option File;
}.

Section Model.
Context `{Externals}.

(** A handler is a Python function [f(req, resp)]: from the two messages it
    gives the response message as it leaves it and, when it raises, the
    exception with the text of its traceback entries.  A function object is
    always truthy. *)
Definition Handler : Type := Message → Message → Message * option (PyExc * string).

(** An [AnalyticService] object; [fifo] holds the attributes of the
    [AnalyticServiceFIFO] subclass. *)
Record Service := {
  _impls : gmap string Handler;
  fifo : option Fifo;
}.

Record State := {
  services : gmap loc Service;
  messages : gmap loc Message;
  world : World;
  trace : list Event;
}.

Definition set_services (f : gmap loc Service → gmap loc Service) (σ : State) : State :=
  {| services := f (services σ); messages := messages σ;
     world := world σ; trace := trace σ |}.
Definition set_messages (f : gmap loc Message → gmap loc Message) (σ : State) : State :=
  {| services := services σ; messages := f (messages σ);
     world := world σ; trace := trace σ |}.
Definition set_world (f : World → World) (σ : State) : State :=
  {| services := services σ; messages := messages σ;
     world := f (world σ); trace := trace σ |}.
Definition emit (ev : Event) (σ : State) : State :=
  {| services := services σ; messages := messages σ;
     world := world σ; trace := trace σ ++ [ev] |}.

(** How a call ends: it returns, it raises, or it never comes back
    (blocked in [os.open], [select] or on the lock). *)
Inductive Outcome (A : Type) :=
  | Ret (a : A)
  | Raise (e : PyExc)
  | Hang.
#[global] Arguments Ret {A} a.
#[global] Arguments Raise {A} e.
#[global] Arguments Hang {A}.

Definition Py (A : Type) : Type := State → Outcome A * State.

#[global] Instance Py_ret : MRet Py := λ A a σ, (Ret a, σ).
#[global] Instance Py_bind : MBind Py := λ A B k m σ,
  match m σ with
  | (Ret a, σ') => k a σ'
  | (Raise e, σ') => (Raise e, σ')
  | (Hang, σ') => (Hang, σ')
  end.

Definition raise {A} (e : PyExc) : Py A := λ σ, (Raise e, σ).
Definition hang {A} : Py A := λ σ, (Hang, σ).
Definition tell (ev : Event) : Py unit := λ σ, (Ret tt, emit ev σ).
Definition modify_world (f : World → World) : Py unit := λ σ,
  (Ret tt, set_world f σ).
Definition lift {A} (r : PyExc + A) : Py A :=
  match r with inl e => raise e | inr a => mret a end.

(** [try: body  except ...:]; [handler e] is [None] when no clause matches. *)
Definition try_except {A} (body : Py A) (handler : PyExc → option (Py A)) : Py A :=
  λ σ, match body σ with
       | (Raise e, σ') =>
           match handler e with
           | Some h => h σ'
           | None => (Raise e, σ')
           end
       | r => r
       end.

(** [try: body  finally: cleanup], for a cleanup that cannot fail. *)
Definition try_finally {A} (body : Py A) (cleanup : State → State) : Py A :=
  λ σ, match body σ with
       | (Hang, σ') => (Hang, σ')
       | (r, σ') => (r, cleanup σ')
       end.

Definition attribute_error {A} (attr : string) : Py A :=
  raise (Exc AttributeError ("object has no attribute " +:+ repr attr)).

Definition get_service (self : loc) : Py Service := λ σ,
  match services σ !! self with
  | Some svc => (Ret svc, σ)
  | None => attribute_error "_impls" σ
  end.

Definition get_fifo (self : loc) : Py Fifo :=
  svc ← get_service self;
  match fifo svc with
  | Some f => mret f
  | None => attribute_error "lock"
  end.

Definition set_impls (self : loc) (m : gmap string Handler) : Py unit := λ σ,
  (Ret tt, set_services (alter (λ svc, {| _impls := m; fifo := fifo svc |}) self) σ).

Definition set_fifo (self : loc) (f : Fifo) : Py unit := λ σ,
  (Ret tt, set_services (alter (λ svc, {| _impls := _impls svc; fifo := Some f |}) self) σ).

Definition get_message (l : loc) : Py Message := λ σ,
  match messages σ !! l with
  | Some m => (Ret m, σ)
  | None => attribute_error "DESCRIPTOR" σ
  end.

Definition set_message (l : loc) (m : Message) : Py unit := λ σ,
  (Ret tt, set_messages <[l := m]> σ).

(** A new message object. *)
Definition alloc_message (m : Message) : Py loc := λ σ,
  let l := fresh (dom (messages σ)) in
  (Ret l, set_messages <[l := m]> σ).

(** A new service object. *)
Definition alloc_service (svc : Service) : Py loc := λ σ,
  let l := fresh (dom (services σ)) in
  (Ret l, set_services <[l := svc]> σ).

(** *** class AnalyticService *)

Definition IMAGE_MANIPULATION : string := "ImageManipulation".
Definition VIDEO_MANIPULATION : string := "VideoManipulation".
Definition IMAGE_SPLICE : string := "ImageSplice".
Definition IMAGE_CAMERA_MATCH : string := "ImageCameraMatch".

Definition _ALLOWED_IMPLS : gset string :=
  {[ IMAGE_MANIPULATION; VIDEO_MANIPULATION; IMAGE_SPLICE; IMAGE_CAMERA_MATCH ]}.

(** [AnalyticService()] *)
Definition AnalyticService : Py loc :=
  alloc_service {| _impls := ∅; fifo := None |}.

Definition _RegisterImpl (self : loc) (type_name : string) (f : Handler) : Py loc :=
  if bool_decide (type_name ∉ _ALLOWED_IMPLS) then
    raise (Exc ValueError
             ("unknown implementation type " +:+ type_name +:+ " specified"))
  else
    svc ← get_service self;
    if bool_decide (is_Some (_impls svc !! type_name)) then
      raise (Exc ValueError
               ("implementation for " +:+ type_name +:+ " already present"))
    else
      set_impls self (<[type_name := f]> (_impls svc));;
      mret self.

Definition RegisterImageManipulation (self : loc) (f : Handler) : Py loc :=
  _RegisterImpl self IMAGE_MANIPULATION f.
Definition RegisterVideoManipulation (self : loc) (f : Handler) : Py loc :=
  _RegisterImpl self VIDEO_MANIPULATION f.
Definition RegisterImageSplice (self : loc) (f : Handler) : Py loc :=
  _RegisterImpl self IMAGE_SPLICE f.
Definition RegisterImageCameraMatch (self : loc) (f : Handler) : Py loc :=
  _RegisterImpl self IMAGE_CAMERA_MATCH f.

(** The [ctx] argument: an object with an [abort(code, details)] method.
    [ctx_abort] gives the exception the method raises, [None] when it
    returns. *)
Record Context := { ctx_abort : StatusCode → string → option PyExc }.

Definition abort (ctx : Context) (code : StatusCode) (details : string) : Py unit :=
  tell (EvAbort code details);;
  match ctx_abort ctx code details with
  | Some e => raise e
  | None => mret tt
  end.

(** class FIFOContext *)
Definition FIFOContext : Context :=
  {| ctx_abort code details := Some (FIFOContextAbortedError code details) |}.

(** [grpc.ServicerContext]: [abort] always raises. *)
Definition ServicerContext : Context :=
  {| ctx_abort _ _ := Some (Exc Exception "") |}.

(** The traceback entry of line 147, [ep_func(req, resp)]. *)
Definition call_frame : string :=
  "  File " +:+ chr dquote +:+ "medifor/v1/analyticservice.py" +:+ chr dquote
  +:+ ", line 147, in _CallEndpoint" +:+ chr newline
  +:+ "    ep_func(req, resp)" +:+ chr newline.

(** The body of the [try]: [ep_func(req, resp)].  Gives the exception it
    ends with, if any, and the traceback entries [format_exc] would show. *)
Definition invoke (ep_func : option Handler) (ep_type : string) (req resp : loc)
  : Py (option (PyExc * string)) :=
  match ep_func with
  | None =>
      mret (Some (Exc TypeError "'NoneType' object is not callable", call_frame))
  | Some f =>
      rq ← get_message req;
      rs ← get_message resp;
      tell (EvInvoke ep_type req resp);;
      set_message resp (f rq rs).1;;
      mret (match (f rq rs).2 with
            | Some (e, frames) => Some (e, call_frame +:+ frames)
            | None => None
            end)
  end.

Definition _CallEndpoint (self : loc) (ep_type : string) (req resp : loc)
    (ctx : Context) : Py loc :=
  svc ← get_service self;
  let ep_func := _impls svc !! ep_type in
  match ep_func with
  | None =>
      abort ctx UNIMPLEMENTED ("Endpoint " +:+ repr ep_type +:+ " not implemented")
  | Some _ => mret tt
  end;;
  raised ← invoke ep_func ep_type req resp;
  match raised with
  | None => mret tt
  | Some (e, frames) =>
      if isinstance e ValueError then
        tell (EvLog "ERROR" "invalid input" (Some (format_exc e frames)));;
        abort ctx INVALID_ARGUMENT
          ("Endpoint " +:+ repr ep_type +:+ " invalid input: " +:+ str_exc e)
      else if isinstance e NotImplementedError then
        tell (EvLog "WARNING" ("unimplemented endpoint " +:+ ep_type) None);;
        abort ctx UNIMPLEMENTED
          ("Endpoint " +:+ repr ep_type +:+ " not implemented: " +:+ str_exc e)
      else if isinstance e Exception then
        tell (EvLog "ERROR" "unknown error" (Some (format_exc e frames)));;
        abort ctx UNKNOWN
          ("Error processing endpoint " +:+ repr ep_type +:+ ": "
           +:+ format_exc e frames)
      else raise e
  end;;
  mret resp.

(** *** class _AnalyticServicer *)

Definition DetectImageManipulation (svc req : loc) (ctx : Context) : Py loc :=
  resp ← alloc_message (new_message ImageManipulation);
  _CallEndpoint svc IMAGE_MANIPULATION req resp ctx.
Definition DetectVideoManipulation (svc req : loc) (ctx : Context) : Py loc :=
  resp ← alloc_message (new_message VideoManipulation);
  _CallEndpoint svc VIDEO_MANIPULATION req resp ctx.
Definition DetectImageSplice (svc req : loc) (ctx : Context) : Py loc :=
  resp ← alloc_message (new_message ImageSplice);
  _CallEndpoint svc IMAGE_SPLICE req resp ctx.
Definition DetectImageCameraMatch (svc req : loc) (ctx : Context) : Py loc :=
  resp ← alloc_message (new_message ImageCameraMatch);
  _CallEndpoint svc IMAGE_CAMERA_MATCH req resp ctx.

(** *** class AnalyticServiceFIFO *)

Definition DEFAULT_INFILE : string := "ANALYTIC_FIFO_IN".
Definition DEFAULT_OUTFILE : string := "ANALYTIC_FIFO_OUT".

Definition TYPES : list (string * (string * MsgClass * MsgClass)) :=
  [ ("imgmanip", (IMAGE_MANIPULATION, ImageManipulationRequest, ImageManipulation));
    ("vidmanip", (VIDEO_MANIPULATION, VideoManipulationRequest, VideoManipulation));
    ("imgsplice", (IMAGE_SPLICE, ImageSpliceRequest, ImageSplice));
    ("imgcammatch", (IMAGE_CAMERA_MATCH, ImageCameraMatchRequest, ImageCameraMatch)) ].

Fixpoint assoc {V} (table : list (string * V)) (key : string) : option V :=
  match table with
  | [] => None
  | (k, v) :: rest => if String.eqb k key then Some v else assoc rest key
  end.

(** [a or b] on two optional texts: [None] and the empty text are falsy. *)
Definition py_or (a b : option string) : option string :=
  match a with
  | Some "" | None => b
  | Some _ => a
  end.

(** [AnalyticServiceFIFO(infile, outfile)] *)
Definition AnalyticServiceFIFO (infile outfile : option string) : Py loc := λ σ,
  let env := environ (world σ) in
  alloc_service
    {| _impls := ∅;
       fifo := Some {| lock := false;
                       infile := py_or infile (env DEFAULT_INFILE);
                       outfile := py_or outfile (env DEFAULT_OUTFILE);
                       receiver := None;
                       sender := None |} |} σ.

(** [os.fdopen(os.open(path, flags), mode)] *)
Definition open_pipe (path : option string) (p : PipeEnd) : Py File :=
  match path with
  | None =>
      raise (Exc TypeError
               "expected str, bytes or os.PathLike object, not NoneType")
  | Some name => λ σ,
      match os_open (world σ) name p with
      | Opened => (Ret {| f_closed := false; f_buffer := "" |}, emit (EvOpen p) σ)
      | OpenFails cls msg => (Raise (Exc cls msg), σ)
      | OpenBlocks => (Hang, σ)
      end
  end.

Definition _ensureOpen (self : loc) : Py unit :=
  fi ← get_fifo self;
  match receiver fi with
  | None =>
      r ← open_pipe (infile fi) Inbound;
      set_fifo self {| lock := lock fi; infile := infile fi; outfile := outfile fi;
                       receiver := Some r; sender := sender fi |}
  | Some _ => mret tt
  end;;
  fi ← get_fifo self;
  match sender fi with
  | None =>
      s ← open_pipe (outfile fi) Outbound;
      set_fifo self {| lock := lock fi; infile := infile fi; outfile := outfile fi;
                       receiver := receiver fi; sender := Some s |}
  | Some _ => mret tt
  end.

Definition tick (d : N) (w : World) : World :=
  {| os_open := os_open w; readable := readable w; reads := reads w;
     writable := writable w; writes := writes w; out_pipe := out_pipe w;
     clock := (clock w + d)%N; environ := environ w |}.

Definition next_read (w : World) : World :=
  {| os_open := os_open w; readable := readable w; reads := S (reads w);
     writable := writable w; writes := writes w; out_pipe := out_pipe w;
     clock := clock w; environ := environ w |}.

Definition next_write (w : World) : World :=
  {| os_open := os_open w; readable := readable w; reads := reads w;
     writable := writable w; writes := S (writes w); out_pipe := out_pipe w;
     clock := clock w; environ := environ w |}.

Definition deliver (data : string) (w : World) : World :=
  {| os_open := os_open w; readable := readable w; reads := reads w;
     writable := writable w; writes := writes w;
     out_pipe := out_pipe w +:+ data;
     clock := clock w; environ := environ w |}.

(** After how long the pipe end is ready, for the wait that comes next. *)
Definition ready_after (p : PipeEnd) (w : World) : option N :=
  match p with
  | Inbound => fst <$> readable w (reads w)
  | Outbound => writable w (writes w)
  end.

(** [any(select.select(...))] on the file [f] of pipe end [p]: [true]
    when the descriptor got ready, [false] when the timeout ran out.  The
    timeout is passed only when it is truthy; without it [select] waits for
    as long as it takes.  [select] looks at the timeout before it asks the
    files for their descriptors. *)
Definition select_any (p : PipeEnd) (f : File) (timeout : Z) : Py bool :=
  if timeout <? 0 then raise (Exc ValueError "timeout must be non-negative")
  else if f_closed f then raise (Exc ValueError "I/O operation on closed file")
  else λ σ,
    match ready_after p (world σ) with
    | Some d =>
        if (timeout =? 0) || (Z.of_N d <=? timeout)
        then (Ret true, set_world (tick d) (emit (EvSelect p) σ))
        else (Ret false, set_world (tick (Z.to_N timeout)) (emit (EvSelect p) σ))
    | None =>
        if timeout =? 0 then (Hang, emit (EvSelect p) σ)
        else (Ret false, set_world (tick (Z.to_N timeout)) (emit (EvSelect p) σ))
    end.

Definition the_file (f : option File) (attr : string) : Py File :=
  match f with
  | Some file => mret file
  | None => attribute_error attr
  end.

Definition send (self : loc) (data : string) (timeout : Z) : Py unit :=
  _ensureOpen self;;
  fi ← get_fifo self;
  f ← the_file (sender fi) "fileno";
  ready ← select_any Outbound f timeout;
  if negb ready then
    modify_world next_write;;
    raise (FIFOTimeoutError "write" timeout)
  else
    (* f.write(data + '\n') *)
    tell (EvWrite (data +:+ chr newline));;
    let buffered := f_buffer f +:+ data +:+ chr newline in
    (* f.flush() *)
    tell EvFlush;;
    modify_world (λ w, next_write (deliver buffered w));;
    set_fifo self {| lock := lock fi; infile := infile fi; outfile := outfile fi;
                     receiver := receiver fi;
                     sender := Some {| f_closed := false; f_buffer := "" |} |}.

Definition receive (self : loc) (timeout : Z) : Py string :=
  _ensureOpen self;;
  fi ← get_fifo self;
  f ← the_file (receiver fi) "fileno";
  ready ← select_any Inbound f timeout;
  if negb ready then
    modify_world next_read;;
    raise (FIFOTimeoutError "read" timeout)
  else
    (* f.readline() *)
    λ σ, let line := match readable (world σ) (reads (world σ)) with
                     | Some (_, l) => l
                     | None => ""
                     end in
         (Ret line, set_world next_read (emit (EvReadline line) σ)).

(** [with self.lock:] *)
Definition acquire (self : loc) : Py unit :=
  fi ← get_fifo self;
  if lock fi then hang
  else
    set_fifo self {| lock := true; infile := infile fi; outfile := outfile fi;
                     receiver := receiver fi; sender := sender fi |};;
    tell (EvAcquire self).

Definition release (self : loc) (σ : State) : State :=
  emit (EvRelease self)
    (set_services
       (alter (λ svc,
          {| _impls := _impls svc;
             fifo := (λ fi, {| lock := false; infile := infile fi;
                               outfile := outfile fi; receiver := receiver fi;
                               sender := sender fi |}) <$> fifo svc |}) self) σ).

Definition with_lock {A} (self : loc) (body : Py A) : Py A :=
  acquire self;;
  try_finally body (release self).

(** [f.close()] on a text file: what is buffered is written out first. *)
Definition close_file (p : PipeEnd) (f : File) : Py File :=
  if f_closed f then mret f
  else
    tell (EvCloseFile p);;
    modify_world (deliver (f_buffer f));;
    mret {| f_closed := true; f_buffer := "" |}.

Definition close (self : loc) : Py unit :=
  with_lock self (
    fi ← get_fifo self;
    r ← match receiver fi with
        | Some f => f' ← close_file Inbound f; mret (Some f')
        | None => mret None
        end;
    s ← match sender fi with
        | Some f => f' ← close_file Outbound f; mret (Some f')
        | None => mret None
        end;
    set_fifo self {| lock := lock fi; infile := infile fi; outfile := outfile fi;
                     receiver := r; sender := s |}).

(** [repr] of a number, [True], [False] or [None] that [json.loads] built. *)
Definition repr_scalar (j : JSON) : string :=
  match j with
  | JNull => "None"
  | JBool b => if b then "True" else "False"
  | JInt z => pretty z
  | JFloat FNaN => "nan"
  | JFloat (FInf neg) => if neg then "-inf" else "inf"
  | JFloat f => dumps_float f
  | _ => ""
  end.

Definition type_name_of (j : JSON) : string :=
  match j with
  | JNull => "NoneType" | JBool _ => "bool" | JInt _ => "int"
  | JFloat _ => "float" | JString _ => "str" | JArray _ => "list"
  | JObject _ => "dict"
  end.

(** [key in msg], for the text [key] *)
Definition py_in (key : string) (msg : JSON) : Py bool :=
  match msg with
  | JObject fields => mret (bool_decide (is_Some (get fields key)))
  | JArray items => mret (existsb (λ j, json_eqb_string j key) items)
  | JString s => mret (containsb s key)
  | _ => raise (Exc TypeError ("argument of type " +:+ repr (type_name_of msg)
                               +:+ " is not iterable"))
  end.

(** [msg[key]], for the text [key] *)
Definition getitem (msg : JSON) (key : string) : Py JSON :=
  match msg with
  | JObject fields =>
      match get fields key with
      | Some v => mret v
      | None => raise (Exc KeyError (repr key))
      end
  | JString _ => raise (Exc TypeError "string indices must be integers")
  | JArray _ =>
      raise (Exc TypeError "list indices must be integers or slices, not str")
  | _ => raise (Exc TypeError (repr (type_name_of msg)
                               +:+ " object is not subscriptable"))
  end.

(** [self.TYPES[key]] *)
Definition TYPES_getitem (key : JSON) : Py (string * MsgClass * MsgClass) :=
  match key with
  | JString code =>
      match assoc TYPES code with
      | Some entry => mret entry
      | None => raise (Exc KeyError (repr code))
      end
  | JArray _ | JObject _ =>
      raise (Exc TypeError ("unhashable type: " +:+ repr (type_name_of key)))
  | _ => raise (Exc KeyError (repr_scalar key))
  end.

(** Lines 249 to 255 of [serveOnce]: from the line read to the endpoint type
    and the two new messages, the request filled in from [msg["value"]]. *)
Definition parse_request (line : string) : Py (string * loc * loc) :=
  msg ← lift (json_loads line);
  has_type ← py_in "type" msg;
  if negb has_type then raise (Exc ValueError "Message had no 'type' field")
  else
    key ← getitem msg "type";
    '(callType, makeReq, makeResp) ← TYPES_getitem key;
    req ← alloc_message (new_message makeReq);
    resp ← alloc_message (new_message makeResp);
    value ← getitem msg "value";
    rq ← get_message req;
    rq' ← lift (ParseDict value rq);
    set_message req rq';;
    mret (callType, req, resp).

(** The wire messages [serveOnce] builds: on success and on abort. *)
Definition ok_message (value : JSON) : JSON :=
  JObject [("code", JString "OK"); ("value", value)].

Definition abort_message (code : StatusCode) (details : string) : JSON :=
  JObject [("code", JString (str_StatusCode code)); ("value", JString details)].

(** The [except FIFOContextAbortedError as e:] clause of [serveOnce]. *)
Definition serveOnce_except (self : loc) (e : PyExc) : option (Py unit) :=
  match e with
  | FIFOContextAbortedError code details =>
      Some (send self (dumps (abort_message code details)) 0)
  | Exc _ _ => None
  end.

(** Lines 256 to 266 of [serveOnce]: the [try] statement. *)
Definition respond (self : loc) (callType : string) (req resp : loc) : Py unit :=
  try_except
    (resp ← _CallEndpoint self callType req resp FIFOContext;
     m ← get_message resp;
     send self (dumps (ok_message (MessageToDict m))) 0)
    (serveOnce_except self).

Definition serveOnce (self : loc) : Py unit :=
  with_lock self (
    line ← receive self 0;
    '(callType, req, resp) ← parse_request line;
    respond self callType req resp).

(** The state after [k] rounds of [serveOnce] that all returned. *)
Fixpoint after_rounds (k : nat) (self : loc) (σ : State) : option State :=
  match k with
  | O => Some σ
  | S k' =>
      match serveOnce self σ with
      | (Ret _, σ') => after_rounds k' self σ'
      | _ => None
      end
  end.

(** [while True: self.serveOnce()], for at most [fuel] rounds: [None] when
    the loop is still going after that many. *)
Fixpoint serve_loop (fuel : nat) (self : loc) (σ : State)
  : option (Outcome Empty_set * State) :=
  match fuel with
  | O => None
  | S n =>
      match serveOnce self σ with
      | (Ret _, σ') => serve_loop n self σ'
      | (Raise e, σ') => Some (Raise e, σ')
      | (Hang, σ') => Some (Hang, σ')
      end
  end.

(** [AnalyticServiceFIFO.Run]: [contextlib.closing(self)] calls
    [self.close()] when the loop is left, here always by an exception. *)
Definition Run (fuel : nat) (self : loc) (σ : State)
  : option (Outcome Empty_set * State) :=
  match serve_loop fuel self σ with
  | Some (Raise e, σ') =>
      match close self σ' with
      | (Ret _, σ'') => Some (Raise e, σ'')
      | (Raise e', σ'') => Some (Raise e', σ'')
      | (Hang, σ'') => Some (Hang, σ'')
      end
  | r => r
  end.

(** Registration calls made one after the other, as a program does at
    startup; a call that fails leaves the rest to run (its caller catches
    the [ValueError]). *)
Fixpoint register_all (self : loc) (calls : list (string * Handler)) (σ : State)
  : State :=
  match calls with
  | [] => σ
  | (type_name, f) :: rest =>
      register_all self rest (_RegisterImpl self type_name f σ).2
  end.

(** The registry of the service at [self]. *)
Definition impls_of (self : loc) (σ : State) : option (gmap string Handler) :=
  _impls <$> services σ !! self.

(** The FIFO attributes of the service at [self]. *)
Definition fifo_of (self : loc) (σ : State) : option Fifo :=
  services σ !! self ≫= fifo.

End Model.

(** A file object as [os.fdopen] returns it: open, nothing buffered. *)
Definition new_file : File := {| f_closed := false; f_buffer := "" |}.

(** ** Opting out of video processing

    The two module-level functions work on [resp.opt_out], a repeated
    field: a list that [extend] and [append] change in place.  The state
    they work on holds the [opt_out] field of the message objects that have
    one, by location. *)

Module OptOut.

(** The members of the enum [VideoOptOutType] the module names. *)
Inductive VideoOptOutType :=
  | VIDEO_OPT_OUT_TEMPORAL | VIDEO_OPT_OUT_SPATIAL | VIDEO_OPT_OUT_DETECTION.

(** An object without the field. *)
Definition no_opt_out : PyExc :=
  Exc AttributeError ("object has no attribute " +:+ repr "opt_out").

(** [resp.opt_out.extend(values)] *)
Definition extend (resp : loc) (values : list VideoOptOutType)
    (s : gmap loc (list VideoOptOutType))
  : PyExc + gmap loc (list VideoOptOutType) :=
  match s !! resp with
  | Some l => inr (<[resp := l ++ values]> s)
  | None => inl no_opt_out
  end.

(** [resp.opt_out.append(value)] *)
Definition append (resp : loc) (value : VideoOptOutType)
    (s : gmap loc (list VideoOptOutType))
  : PyExc + gmap loc (list VideoOptOutType) :=
  match s !! resp with
  | Some l => inr (<[resp := l ++ [value]]> s)
  | None => inl no_opt_out
  end.

Definition OptOutVideoLocalization (resp : loc)
    (s : gmap loc (list VideoOptOutType))
  : PyExc + gmap loc (list VideoOptOutType) :=
  extend resp [VIDEO_OPT_OUT_TEMPORAL; VIDEO_OPT_OUT_SPATIAL] s.

Definition OptOutVideoAll (resp : loc) (s : gmap loc (list VideoOptOutType))
  : PyExc + gmap loc (list VideoOptOutType) :=
  match OptOutVideoLocalization resp s with
  | inr s' => append resp VIDEO_OPT_OUT_DETECTION s'
  | inl e => inl e
  end.

(** [OptOutVideoAll(resp)] called [n] times in a row. *)
Fixpoint calls (n : nat) (resp : loc) (s : gmap loc (list VideoOptOutType))
  : PyExc + gmap loc (list VideoOptOutType) :=
  match n with
  | O => inr s
  | S n' =>
      match OptOutVideoAll resp s with
      | inr s' => calls n' resp s'
      | inl e => inl e
      end
  end.

End OptOut.

(** ** The gRPC server

    [AnalyticService.Start] and [AnalyticService.Run] drive [grpc],
    [grpc_health] and [time]; what they do to these libraries is recorded
    as a list of calls. *)

Module Grpc.

Inductive Call :=
  (** [grpc.server(futures.ThreadPoolExecutor(max_workers=n), options=...)] *)
  | NewServer (max_workers : Z)
  (** [add_AnalyticServicer_to_server(_AnalyticServicer(self), server)] *)
  | AddAnalyticServicer (svc : loc)
  (** [add_HealthServicer_to_server(self._health_servicer, server)] *)
  | AddHealthServicer (svc : loc)
  | AddInsecurePort (address : string)
  | ServerStart
  (** [self._health_servicer.set(service, HealthCheckResponse.SERVING)] *)
  | HealthSetServing (service : string)
  (** [print(text, file=sys.stderr)] *)
  | PrintStderr (text : string)
  | Sleep (seconds : Z)
  | ServerStop (grace : Z)
  | LoggingInfo (msg : string)
  | LoggingError (msg : string).

(** The libraries and the operating system: what [add_insecure_port]
    returns for an address (the port, 0 when it cannot bind) or raises;
    [os.getpid()]; and how the [k]-th [time.sleep] ends, [None] when it
    returns. *)
Record Env := {
  add_insecure_port : string → PyExc + Z;
  getpid : Z;
  sleep_ends : nat → option PyExc;
}.

(** The attribute [Start] sets, the calls made so far, and how many times
    the process has slept. *)
Record Server := {
  concurrency_safe : option bool;
  made : list Call;
  slept : nat;
}.

Definition call (c : Call) (s : Server) : Server :=
  {| concurrency_safe := concurrency_safe s; made := made s ++ [c];
     slept := slept s |}.

(** [AnalyticService.Start]; the server object it returns is the one the
    calls are made on.  [ThreadPoolExecutor] refuses a number of workers
    that is not positive; [{:d}] and [{}] give the decimal digits of the
    port. *)
Definition Start (env : Env) (self : loc) (analytic_port max_workers : Z)
    (safe : bool) (s : Server) : (PyExc + unit) * Server :=
  let s := {| concurrency_safe := Some safe; made := made s;
              slept := slept s |} in
  if max_workers <=? 0 then
    (inl (Exc ValueError "max_workers must be greater than 0"), s)
  else
    let s := call (NewServer max_workers) s in
    let s := call (AddAnalyticServicer self) s in
    let s := call (AddHealthServicer self) s in
    let address := "[::]:" +:+ pretty analytic_port in
    let s := call (AddInsecurePort address) s in
    match add_insecure_port env address with
    | inl e => (inl e, s)
    | inr bound =>
        if bound =? 0 then
          (inl (Exc RuntimeError
                  ("can't bind to port " +:+ pretty analytic_port
                   +:+ ": already in use")), s)
        else
          let s := call ServerStart s in
          let s := call (HealthSetServing "") s in
          let s := call (PrintStderr
                           ("Analytic server started on port "
                            +:+ pretty analytic_port +:+ " with PID "
                            +:+ pretty (getpid env))) s in
          (inr tt, s)
    end.

(** [while True: time.sleep(3600 * 24)], for at most [fuel] rounds: the
    exception that ends the loop, [None] when it is still going. *)
Fixpoint sleep_loop (env : Env) (fuel : nat) (s : Server)
  : option (PyExc * Server) :=
  match fuel with
  | O => None
  | S n =>
      let s' := {| concurrency_safe := concurrency_safe s;
                   made := made s ++ [Sleep (3600 * 24)];
                   slept := S (slept s) |} in
      match sleep_ends env (slept s) with
      | None => sleep_loop env n s'
      | Some e => Some (e, s')
      end
  end.

(** [AnalyticService.Run]: the value returned or the exception raised;
    [None] when the loop is still going after [fuel] rounds. *)
Definition Run (env : Env) (self : loc) (analytic_port max_workers : Z)
    (safe : bool) (fuel : nat) (s : Server)
  : option ((PyExc + Z) * Server) :=
  match Start env self analytic_port max_workers safe s with
  | (inl e, s1) => Some (inl e, s1)
  | (inr _, s1) =>
      match sleep_loop env fuel s1 with
      | None => None
      | Some (e, s2) =>
          if isinstance e KeyboardInterrupt then
            Some (inr 0,
                  call (LoggingInfo "Server stopped") (call (ServerStop 0) s2))
          else if isinstance e Exception then
            Some (inr (-1),
                  call (LoggingError ("Caught exception: " +:+ str_exc e))
                    (call (ServerStop 0) s2))
          else Some (inl e, s2)
      end
  end.

End Grpc.

(** ** Two threads and one lock

    [serveOnce] runs in the serving thread, [close] may be called from
    another one.  A schedule is the merge of the two threads' events; it
    respects the lock when an [EvAcquire] happens only while nobody holds
    the lock and an [EvRelease] only by the holder. *)

Inductive Thread := Serving | Closing.

#[global] Instance Thread_eq_dec : EqDecision Thread.
Proof. solve_decision. Defined.

Definition tag (th : Thread) (t : list Event) : list (Thread * Event) :=
  map (pair th) t.

Inductive merges : list (Thread * Event) → list (Thread * Event)
                   → list (Thread * Event) → Prop :=
  | merges_nil : merges [] [] []
  | merges_left x l1 l2 g : merges l1 l2 g → merges (x :: l1) l2 (x :: g)
  | merges_right x l1 l2 g : merges l1 l2 g → merges l1 (x :: l2) (x :: g).

Fixpoint lock_respected (self : loc) (holder : option Thread)
    (g : list (Thread * Event)) : Prop :=
  match g with
  | [] => True
  | (th, EvAcquire l) :: g' =>
      if decide (l = self)
      then holder = None ∧ lock_respected self (Some th) g'
      else lock_respected self holder g'
  | (th, EvRelease l) :: g' =>
      if decide (l = self)
      then holder = Some th ∧ lock_respected self None g'
      else lock_respected self holder g'
  | _ :: g' => lock_respected self holder g'
  end.

Definition is_lock_event (ev : Event) : bool :=
  match ev with EvAcquire _ | EvRelease _ => true | _ => false end.

Definition touches_pipe (ev : Event) : bool :=
  match ev with
  | EvOpen _ | EvSelect _ | EvReadline _ | EvWrite _ | EvFlush
  | EvCloseFile _ => true
  | _ => false
  end.

(** Opening a pipe and waiting on it. *)
Definition is_wait (ev : Event) : bool :=
  match ev with EvOpen _ | EvSelect _ => true | _ => false end.

(** What [_CallEndpoint] does. *)
Definition is_dispatch (ev : Event) : bool :=
  match ev with EvInvoke _ _ _ | EvAbort _ _ | EvLog _ _ _ => true | _ => false end.

Definition is_quiet (ev : Event) : bool := is_wait ev || is_dispatch ev.



Definition is_abort (ev : Event) : bool :=
  match ev with EvAbort _ _ => true | _ => false end.

Definition is_invoke (ev : Event) : bool :=
  match ev with EvInvoke _ _ _ => true | _ => false end.

(** How many events of a kind a trace has. *)
Fixpoint count (p : Event → bool) (t : list Event) : nat :=
  match t with
  | [] => O
  | ev :: t' => (if p ev then 1 else 0) + count p t'
  end%nat.

(** The events a call added to the trace of [σ], given the state it ended
    in. *)
Definition emitted `{Externals} (σ σ' : State) : list Event :=
  drop (length (trace σ)) (trace σ').

(** ** The wire lines as the specification writes them *)

(** [{"code":"<kind>","value":"<message>"}], with no blank after the
    separators and the text between the quotes as it is. *)
Definition spec_failure_line (kind message : string) : string :=
  "{" +:+ chr dquote +:+ "code" +:+ chr dquote +:+ ":"
  +:+ chr dquote +:+ kind +:+ chr dquote +:+ ","
  +:+ chr dquote +:+ "value" +:+ chr dquote +:+ ":"
  +:+ chr dquote +:+ message +:+ chr dquote +:+ "}".

(** ** A small instance to run the model on *)

Module Fixture.

Definition request_line : string :=
  "{" +:+ dumps_string "type" +:+ ": " +:+ dumps_string "imgmanip" +:+ ", "
  +:+ dumps_string "value" +:+ ": {}}" +:+ chr newline.

Definition empty_object_line : string := "{}" +:+ chr newline.

(** Messages are their fields; [json.loads] knows two lines. *)
Definition toy : Externals := {|
  Message := list (string * JSON);
  new_message _ := [];
  json_loads line :=
    if String.eqb line request_line
    then inr (JObject [("type", JString "imgmanip"); ("value", JObject [])])
    else if String.eqb line empty_object_line then inr (JObject [])
    else inl (Exc JSONDecodeError "Expecting value: line 1 column 1 (char 0)");
  ParseDict js m :=
    match js with
    | JObject fields => inr (m ++ fields)
    | _ => inl (Exc ParseError "Failed to parse")
    end;
  MessageToDict m := JObject m;
|}.
#[local] Existing Instance toy.

Definition score_half : Handler := λ rq rs,
  (rs ++ [("score", JFloat (FDec false 0 [D5] None))], None).

Definition handler_frames : string :=
  "  File handler.py, line 3, in detect" +:+ chr newline.

Definition bad_crop : Handler := λ rq rs,
  (rs, Some (Exc ValueError "bad crop", handler_frames)).

Definition no_video : Handler := λ rq rs,
  (rs, Some (Exc NotImplementedError "no video support", handler_frames)).

Definition half_done : Handler := λ rq rs,
  (rs ++ [("score", JInt 1)],
   Some (Exc (UserClass "DiskFull" OSError) "disk full", handler_frames)).

Definition exits : Handler := λ rq rs,
  (rs, Some (Exc SystemExit "1", handler_frames)).

Definition w0 (lines : list string) : World :=
  {| os_open _ _ := Opened;
     readable k := (λ l, (0%N, l)) <$> lines !! k;
     reads := 0; writable _ := Some 0%N; writes := 0;
     out_pipe := ""; clock := 0; environ _ := None |}.

Definition σ0 (lines : list string) : State :=
  {| services := ∅; messages := ∅; world := w0 lines; trace := [] |}.

(** A FIFO service at location 0 with one handler for image manipulation. *)
Definition started (h : Handler) (lines : list string) : State :=
  ((self ← AnalyticServiceFIFO (Some "in") (Some "out");
    RegisterImageManipulation self h) (σ0 lines)).2.

(** The same, with a request message at location 0 and a response message
    at location 1. *)
Definition ready (h : Handler) : State :=
  set_messages
    (λ _, {[ 0%nat := [("uri", JString "a.png")]; 1%nat := [] ]})
    (started h []).

(** The fixture once the pipes have been used: both are open. *)
Definition opened (h : Handler) (lines : list string) : State :=
  (_ensureOpen 0%nat (started h lines)).2.


End Fixture.

(** ** More states to run the model on *)

Module Scenes.
Import Fixture.
#[local] Existing Instance toy.

(** The FIFO attributes of the fixture before and after the pipes are
    opened. *)
Definition fresh_fifo : Fifo :=
  {| lock := false; infile := Some "in"; outfile := Some "out";
     receiver := None; sender := None |}.

Definition open_fifo : Fifo :=
  {| lock := false; infile := Some "in"; outfile := Some "out";
     receiver := Some new_file; sender := Some new_file |}.

(** The service object of the fixture. *)
Definition service_of (h : Handler) (fi : Fifo) : Service :=
  {| _impls := {[ IMAGE_MANIPULATION := h ]}; fifo := Some fi |}.

(** What [json.loads] makes of [request_line]. *)
Definition request_fields : list (string * JSON) :=
  [("type", JString "imgmanip"); ("value", JObject [])].


(** A line that is no JSON. *)
Definition garbage_line : string := "oops" +:+ chr newline.

(** A machine on which the port is taken, and one on which the third
    [time.sleep] is interrupted from the keyboard. *)
Definition port_taken : Grpc.Env :=
  {| Grpc.add_insecure_port _ := inr 0;
     Grpc.getpid := 4242;
     Grpc.sleep_ends _ := None |}.

Definition interrupted : Grpc.Env :=
  {| Grpc.add_insecure_port _ := inr 50051;
     Grpc.getpid := 4242;
     Grpc.sleep_ends k :=
       if Nat.eqb k 2 then Some (Exc KeyboardInterrupt "") else None |}.

Definition idle : Grpc.Server :=
  {| Grpc.concurrency_safe := None; Grpc.made := []; Grpc.slept := 0 |}.

End Scenes.

(** * Properties *)

(** ** Text *)

Section TextFacts.

(* stdpp keeps [simpl] from unfolding [+:+]; these proofs compute with it. *)
#[local] Arguments String.append !_ _ : simpl nomatch.

Lemma append_assoc (a b c : string) : (a +:+ b) +:+ c = a +:+ (b +:+ c).
Proof. induction a as [|x a IH]; simpl; [done | by rewrite IH]. Qed.

Lemma append_nil_r (a : string) : a +:+ "" = a.
Proof. induction a as [|x a IH]; simpl; [done | by rewrite IH]. Qed.

Lemma contains_refl (s : string) : contains s s.
Proof. exists "", "". by rewrite append_nil_r. Qed.

Lemma contains_app_r (pre s needle : string) :
  contains s needle → contains (pre +:+ s) needle.
Proof.
  intros (a & b & ->). exists (pre +:+ a), b. by rewrite append_assoc.
Qed.

Lemma contains_app_l (s post needle : string) :
  contains s needle → contains (s +:+ post) needle.
Proof.
  intros (a & b & ->). exists a, (b +:+ post). by rewrite !append_assoc.
Qed.

Lemma contains_cons (c : ascii) (s needle : string) :
  contains s needle → contains (String c s) needle.
Proof. intros Hc. by apply (contains_app_r (chr c)). Qed.

Lemma plain_has_char (c : ascii) (s : string) :
  plain s = true → has_char c s = true →
  isprintable c = true ∧ c ≠ squote ∧ c ≠ dquote ∧ c ≠ backslash.
Proof.
  induction s as [|d s IH]; simpl; [done|].
  rewrite !andb_true_iff, !negb_true_iff, orb_true_iff.
  intros ((((Hp & Hs) & Hd) & Hb) & Hrest) [Heq | Hin]; [|by apply IH].
  apply Ascii.eqb_eq in Heq as ->.
  repeat split; [done | | |]; intros ->; by rewrite Ascii.eqb_refl in *.
Qed.

Lemma repr_body_plain (s : string) :
  plain s = true → repr_body squote s = s.
Proof.
  induction s as [|c s IH]; simpl; [done|].
  rewrite !andb_true_iff, !negb_true_iff.
  intros ((((Hp & Hs) & Hd) & Hb) & Hrest).
  rewrite IH by done. unfold repr_char. rewrite Hs, Hb. simpl.
  destruct (Ascii.eqb c tab) eqn:Ht.
  { apply Ascii.eqb_eq in Ht as ->. discriminate Hp. }
  destruct (Ascii.eqb c newline) eqn:Hn.
  { apply Ascii.eqb_eq in Hn as ->. discriminate Hp. }
  destruct (Ascii.eqb c cr) eqn:Hr.
  { apply Ascii.eqb_eq in Hr as ->. discriminate Hp. }
  by rewrite Hp.
Qed.

(** [repr] of a text of plain characters is the text between single quotes. *)
Lemma repr_plain (s : string) :
  plain s = true → repr s = String squote (s +:+ chr squote).
Proof.
  intros Hp. unfold repr.
  destruct (has_char squote s) eqn:Hq.
  { destruct (plain_has_char squote s Hp Hq) as (_ & Hne & _). done. }
  simpl. by rewrite repr_body_plain.
Qed.

Lemma repr_plain_contains (s : string) :
  plain s = true → contains (repr s) s.
Proof.
  intros Hp. rewrite repr_plain by done.
  apply contains_cons, contains_app_l, contains_refl.
Qed.

End TextFacts.

(** ** The registry *)

Section RegistryFacts.

Lemma allowed_iff (t : string) :
  t ∈ _ALLOWED_IMPLS ↔
  t = "ImageManipulation" ∨ t = "VideoManipulation"
  ∨ t = "ImageSplice" ∨ t = "ImageCameraMatch".
Proof.
  unfold _ALLOWED_IMPLS, IMAGE_MANIPULATION, VIDEO_MANIPULATION, IMAGE_SPLICE,
    IMAGE_CAMERA_MATCH.
  rewrite !elem_of_union, !elem_of_singleton. tauto.
Qed.

Lemma allowed_plain (t : string) : t ∈ _ALLOWED_IMPLS → plain t = true.
Proof. rewrite allowed_iff. intros [-> | [-> | [-> | ->]]]; reflexivity. Qed.


End RegistryFacts.

(** ** Running the effects *)

Section RunFacts.
Context `{Externals}.

Lemma bind_run {A B} (m : Py A) (k : A → Py B) (σ : State) :
  (m ≫= k) σ =
  match m σ with
  | (Ret a, σ') => k a σ'
  | (Raise e, σ') => (Raise e, σ')
  | (Hang, σ') => (Hang, σ')
  end.
Proof. reflexivity. Qed.

Lemma bind_ret {A B} (m : Py A) (k : A → Py B) (σ σ' : State) (a : A) :
  m σ = (Ret a, σ') → (m ≫= k) σ = k a σ'.
Proof. intros Hm. by rewrite bind_run, Hm. Qed.

Lemma bind_raise {A B} (m : Py A) (k : A → Py B) (σ σ' : State) (e : PyExc) :
  m σ = (Raise e, σ') → (m ≫= k) σ = (Raise e, σ').
Proof. intros Hm. by rewrite bind_run, Hm. Qed.

Lemma bind_hang {A B} (m : Py A) (k : A → Py B) (σ σ' : State) :
  m σ = (Hang, σ') → (m ≫= k) σ = (Hang, σ').
Proof. intros Hm. by rewrite bind_run, Hm. Qed.

Lemma get_service_run (self : loc) (svc : Service) (σ : State) :
  services σ !! self = Some svc → get_service self σ = (Ret svc, σ).
Proof. intros Hs. unfold get_service. by rewrite Hs. Qed.

Lemma get_message_run (l : loc) (m : Message) (σ : State) :
  messages σ !! l = Some m → get_message l σ = (Ret m, σ).
Proof. intros Hm. unfold get_message. by rewrite Hm. Qed.

End RunFacts.

(** ** Registration *)

Section Registration.
Context `{Externals}.

Definition unknown_type_error (t : string) : PyExc :=
  Exc ValueError ("unknown implementation type " +:+ t +:+ " specified").

Definition already_registered_error (t : string) : PyExc :=
  Exc ValueError ("implementation for " +:+ t +:+ " already present").

Lemma RegisterImpl_unknown (self : loc) (t : string) (f : Handler) (σ : State) :
  t ∉ _ALLOWED_IMPLS →
  _RegisterImpl self t f σ = (Raise (unknown_type_error t), σ).
Proof.
  intros Ht. unfold _RegisterImpl. by rewrite bool_decide_eq_true_2.
Qed.

Lemma RegisterImpl_present (self : loc) (t : string) (f : Handler)
    (svc : Service) (σ : State) :
  t ∈ _ALLOWED_IMPLS → services σ !! self = Some svc →
  is_Some (_impls svc !! t) →
  _RegisterImpl self t f σ = (Raise (already_registered_error t), σ).
Proof.
  intros Ht Hs Hin. unfold _RegisterImpl.
  rewrite bool_decide_eq_false_2 by (by intros ?).
  rewrite (bind_ret _ _ _ _ _ (get_service_run _ _ _ Hs)).
  by rewrite bool_decide_eq_true_2.
Qed.

Lemma RegisterImpl_fresh (self : loc) (t : string) (f : Handler)
    (svc : Service) (σ : State) :
  t ∈ _ALLOWED_IMPLS → services σ !! self = Some svc →
  _impls svc !! t = None →
  _RegisterImpl self t f σ =
  (Ret self,
   set_services
     (alter (λ s, {| _impls := <[t := f]> (_impls svc); fifo := fifo s |}) self) σ).
Proof.
  intros Ht Hs Hnone. unfold _RegisterImpl.
  rewrite bool_decide_eq_false_2 by (by intros ?).
  rewrite (bind_ret _ _ _ _ _ (get_service_run _ _ _ Hs)).
  rewrite bool_decide_eq_false_2; [done|].
  rewrite Hnone. by intros [? ?].
Qed.

(** A registration call keeps every entry the registry has. *)
Lemma RegisterImpl_keeps (self : loc) (t' : string) (f : Handler)
    (svc : Service) (σ : State) (t : string) (h : Handler) :
  services σ !! self = Some svc → _impls svc !! t = Some h →
  ∃ svc', services (_RegisterImpl self t' f σ).2 !! self = Some svc'
          ∧ _impls svc' !! t = Some h.
Proof.
  intros Hs Hh.
  destruct (decide (t' ∈ _ALLOWED_IMPLS)) as [Ha|Ha];
    [|rewrite RegisterImpl_unknown by done; eauto].
  destruct (_impls svc !! t') as [h'|] eqn:Ht'.
  - rewrite (RegisterImpl_present _ _ _ svc) by (rewrite ?Ht'; eauto). eauto.
  - rewrite (RegisterImpl_fresh _ _ _ svc) by done. simpl.
    rewrite lookup_alter_eq, Hs. simpl. eexists; split; [done|]. simpl.
    rewrite lookup_insert_ne; [done|]. intros ->. congruence.
Qed.

Lemma register_all_keeps (self : loc) (calls : list (string * Handler))
    (svc : Service) (σ : State) (t : string) (h : Handler) :
  services σ !! self = Some svc → _impls svc !! t = Some h →
  ∃ m, impls_of self (register_all self calls σ) = Some m ∧ m !! t = Some h.
Proof.
  revert svc σ. induction calls as [|[t' f] calls IH]; intros svc σ Hs Hh; simpl.
  - exists (_impls svc). unfold impls_of. by rewrite Hs.
  - destruct (RegisterImpl_keeps self t' f svc σ t h Hs Hh) as (svc' & Hs' & Hh').
    by eapply IH.
Qed.

(** A registration call keeps the registry within the four endpoint types. *)
Lemma RegisterImpl_allowed (self : loc) (t : string) (f : Handler)
    (svc : Service) (σ : State) :
  services σ !! self = Some svc → dom (_impls svc) ⊆ _ALLOWED_IMPLS →
  ∃ svc', services (_RegisterImpl self t f σ).2 !! self = Some svc'
          ∧ dom (_impls svc') ⊆ _ALLOWED_IMPLS.
Proof.
  intros Hs Hdom.
  destruct (decide (t ∈ _ALLOWED_IMPLS)) as [Ha|Ha];
    [|rewrite RegisterImpl_unknown by done; eauto].
  destruct (_impls svc !! t) as [h'|] eqn:Ht.
  - rewrite (RegisterImpl_present _ _ _ svc) by (rewrite ?Ht; eauto). eauto.
  - rewrite (RegisterImpl_fresh _ _ _ svc) by done. simpl.
    rewrite lookup_alter_eq, Hs. simpl. eexists; split; [done|]. simpl.
    rewrite dom_insert_L. intros x. rewrite elem_of_union, elem_of_singleton.
    intros [-> | Hx]; [done | by apply Hdom].
Qed.

(** C2.  [_RegisterImpl] on a service whose registry lies within the four
    endpoint types: a type outside the enumeration fails with the
    unknown-type [ValueError], a type that has an entry fails with the
    already-registered [ValueError], and both leave the whole state as it
    was; any other call returns and stores the handler under the type; and
    whatever registration calls follow, an entry keeps its handler. *)
Theorem RegisterImpl_spec (self : loc) (svc : Service) (σ : State)
    (t : string) (f : Handler) :
  services σ !! self = Some svc →
  dom (_impls svc) ⊆ _ALLOWED_IMPLS →
  (t ∈ _ALLOWED_IMPLS ↔
     t = "ImageManipulation" ∨ t = "VideoManipulation"
     ∨ t = "ImageSplice" ∨ t = "ImageCameraMatch")
  ∧ (t ∉ _ALLOWED_IMPLS →
       _RegisterImpl self t f σ = (Raise (unknown_type_error t), σ))
  ∧ (is_Some (_impls svc !! t) →
       _RegisterImpl self t f σ = (Raise (already_registered_error t), σ)
       ∧ impls_of self (_RegisterImpl self t f σ).2 = Some (_impls svc))
  ∧ (t ∈ _ALLOWED_IMPLS → _impls svc !! t = None →
       ∃ σ', _RegisterImpl self t f σ = (Ret self, σ')
             ∧ impls_of self σ' = Some (<[t := f]> (_impls svc)))
  ∧ (∀ h calls, _impls svc !! t = Some h →
       ∃ m, impls_of self (register_all self calls σ) = Some m
            ∧ m !! t = Some h).
Proof.
  intros Hs Hdom. split; [apply allowed_iff|].
  split; [apply RegisterImpl_unknown|]. split; [|split].
  - intros Hin.
    assert (t ∈ _ALLOWED_IMPLS) as Ha.
    { apply Hdom. by apply elem_of_dom. }
    rewrite (RegisterImpl_present _ _ _ svc) by done.
    split; [done|]. unfold impls_of. simpl. by rewrite Hs.
  - intros Ha Hnone. eexists. split; [by apply RegisterImpl_fresh|].
    unfold impls_of. simpl. by rewrite lookup_alter_eq, Hs.
  - intros h calls Hh. by eapply register_all_keeps.
Qed.


End Registration.

Section RegistrationExamples.
#[local] Existing Instance Fixture.toy.
Import Fixture.

(** A service with one registered handler: the theorem of C2 at work. *)
Lemma RegisterImpl_spec_witness :
  _RegisterImpl 0%nat "ImageClassify" score_half (started bad_crop [])
  = (Raise (unknown_type_error "ImageClassify"), started bad_crop [])
  ∧ _RegisterImpl 0%nat IMAGE_MANIPULATION score_half (started bad_crop [])
    = (Raise (already_registered_error IMAGE_MANIPULATION), started bad_crop []).
Proof.
  assert (∃ svc, services (started bad_crop []) !! 0%nat = Some svc
                 ∧ dom (_impls svc) ⊆ _ALLOWED_IMPLS
                 ∧ is_Some (_impls svc !! IMAGE_MANIPULATION)
                 ∧ "ImageClassify" ∉ _ALLOWED_IMPLS) as (svc & Hs & Hdom & Hin & Hout).
  { eexists. split; [vm_compute; reflexivity|].
    split; [|split].
    - apply (bool_decide_unpack _). vm_compute. exact I.
    - apply (bool_decide_unpack _). vm_compute. exact I.
    - apply (bool_decide_unpack _). vm_compute. exact I. }
  split.
  - exact (proj1 (proj2 (RegisterImpl_spec 0%nat svc _ "ImageClassify" score_half
                           Hs Hdom)) Hout).
  - exact (proj1 (proj1 (proj2 (proj2 (RegisterImpl_spec 0%nat svc _
             IMAGE_MANIPULATION score_half Hs Hdom))) Hin)).
Defined.

(** Four chained registrations on a new service all land on it. *)
Example chained_registrations :
  let program :=
    svc ← AnalyticService;
    s1 ← RegisterImageManipulation svc score_half;
    s2 ← RegisterVideoManipulation s1 no_video;
    s3 ← RegisterImageSplice s2 bad_crop;
    RegisterImageCameraMatch s3 half_done in
  (program (σ0 [])).1 = Ret 0%nat
  ∧ (dom <$> impls_of 0%nat (program (σ0 [])).2) = Some _ALLOWED_IMPLS.
Proof. split; vm_compute; reflexivity. Qed.

End RegistrationExamples.

(** ** Dispatch *)

Section Dispatch.
Context `{Externals}.

(** What [_CallEndpoint] logs and aborts with for an exception of the
    handler: the three [except] clauses in their order; [None] when no
    clause matches. *)
Definition abort_for (t : string) (e : PyExc) (frames : string)
  : option (Event * StatusCode * string) :=
  if isinstance e ValueError then
    Some (EvLog "ERROR" "invalid input" (Some (format_exc e frames)),
          INVALID_ARGUMENT,
          "Endpoint " +:+ repr t +:+ " invalid input: " +:+ str_exc e)
  else if isinstance e NotImplementedError then
    Some (EvLog "WARNING" ("unimplemented endpoint " +:+ t) None,
          UNIMPLEMENTED,
          "Endpoint " +:+ repr t +:+ " not implemented: " +:+ str_exc e)
  else if isinstance e Exception then
    Some (EvLog "ERROR" "unknown error" (Some (format_exc e frames)),
          UNKNOWN,
          "Error processing endpoint " +:+ repr t +:+ ": " +:+ format_exc e frames)
  else None.

Ltac run_py :=
  unfold invoke, abort, tell, get_message, set_message, raise,
    mbind, mret, Py_bind, Py_ret; simpl.

Lemma CallEndpoint_registered (self : loc) (svc : Service) (t : string)
    (req resp : loc) (ctx : Context) (σ : State) (h : Handler)
    (rq rs : Message) :
  services σ !! self = Some svc →
  _impls svc !! t = Some h →
  messages σ !! req = Some rq →
  messages σ !! resp = Some rs →
  _CallEndpoint self t req resp ctx σ =
  let σ1 := set_messages <[resp := (h rq rs).1]> (emit (EvInvoke t req resp) σ) in
  match (h rq rs).2 with
  | None => (Ret resp, σ1)
  | Some (e, frames) =>
      match abort_for t e (call_frame +:+ frames) with
      | Some (log, code, details) =>
          let σ2 := emit (EvAbort code details) (emit log σ1) in
          match ctx_abort ctx code details with
          | Some e' => (Raise e', σ2)
          | None => (Ret resp, σ2)
          end
      | None => (Raise e, σ1)
      end
  end.
Proof.
  intros Hs Hi Hq Hp.
  unfold _CallEndpoint. rewrite (bind_ret _ _ _ _ _ (get_service_run _ _ _ Hs)).
  simpl. rewrite Hi. run_py. rewrite Hq, Hp.
  destruct (h rq rs) as [rs' [[e frames]|]]; simpl; [|done].
  unfold abort_for.
  destruct (isinstance e ValueError); simpl.
  { by destruct (ctx_abort ctx _ _). }
  destruct (isinstance e NotImplementedError); simpl.
  { by destruct (ctx_abort ctx _ _). }
  destruct (isinstance e Exception); simpl; [|done].
  by destruct (ctx_abort ctx _ _).
Qed.

Lemma mro_ancestors (c d x : ExcClass) :
  d ∈ mro c → x ∈ mro d → x ∈ mro c.
Proof.
  induction c; simpl; intros Hd Hx;
    repeat (apply elem_of_cons in Hd as [-> | Hd]);
    try (by apply elem_of_nil in Hd); try done;
    try (simpl in Hx;
         repeat (apply elem_of_cons in Hx as [-> | Hx]);
         try (by apply elem_of_nil in Hx);
         by apply (bool_decide_unpack _)).
  apply elem_of_cons. right. by apply IHc.
Qed.

Lemma issubclass_trans (c d x : ExcClass) :
  issubclass c d = true → issubclass d x = true → issubclass c x = true.
Proof.
  unfold issubclass. rewrite !bool_decide_eq_true. apply mro_ancestors.
Qed.

(** What is no [Exception] is no [ValueError] and no [NotImplementedError]. *)
Lemma not_Exception_not_caught (e : PyExc) (c : ExcClass) :
  issubclass c Exception = true →
  isinstance e Exception = false → isinstance e c = false.
Proof.
  intros Hc He. destruct (isinstance e c) eqn:Hec; [|done].
  destruct e as [cls m|]; simpl in *.
  - by rewrite (issubclass_trans cls c Exception) in He.
  - done.
Qed.

Definition not_callable : PyExc :=
  Exc TypeError "'NoneType' object is not callable".

Lemma CallEndpoint_unregistered (self : loc) (svc : Service) (t : string)
    (req resp : loc) (ctx : Context) (σ : State) :
  services σ !! self = Some svc →
  _impls svc !! t = None →
  _CallEndpoint self t req resp ctx σ =
  let details := "Endpoint " +:+ repr t +:+ " not implemented" in
  let σ1 := emit (EvAbort UNIMPLEMENTED details) σ in
  match ctx_abort ctx UNIMPLEMENTED details with
  | Some e => (Raise e, σ1)
  | None =>
      let diagnostic := format_exc not_callable call_frame in
      let details' := "Error processing endpoint " +:+ repr t +:+ ": "
                      +:+ diagnostic in
      let σ2 := emit (EvAbort UNKNOWN details')
                  (emit (EvLog "ERROR" "unknown error" (Some diagnostic)) σ1) in
      match ctx_abort ctx UNKNOWN details' with
      | Some e => (Raise e, σ2)
      | None => (Ret resp, σ2)
      end
  end.
Proof.
  intros Hs Hi.
  unfold _CallEndpoint. rewrite (bind_ret _ _ _ _ _ (get_service_run _ _ _ Hs)).
  simpl. rewrite Hi. run_py.
  destruct (ctx_abort ctx UNIMPLEMENTED _); simpl; [done|].
  by destruct (ctx_abort ctx UNKNOWN _).
Qed.



(** An exception that is no instance of [Exception] ([SystemExit],
    [KeyboardInterrupt]) is not a failure of the handler: no clause catches
    it, nothing is aborted, and it leaves [_CallEndpoint] as it is. *)
Lemma CallEndpoint_exit_signal (self : loc) (svc : Service) (t : string)
    (req resp : loc) (ctx : Context) (σ : State) (h : Handler)
    (rq rs : Message) (e : PyExc) (frames : string) :
  services σ !! self = Some svc →
  _impls svc !! t = Some h →
  messages σ !! req = Some rq →
  messages σ !! resp = Some rs →
  (h rq rs).2 = Some (e, frames) →
  isinstance e Exception = false →
  (_CallEndpoint self t req resp ctx σ).1 = Raise e
  ∧ trace (_CallEndpoint self t req resp ctx σ).2
    = trace σ ++ [EvInvoke t req resp].
Proof.
  intros Hs Hi Hq Hp Hr He.
  rewrite (CallEndpoint_registered self svc t req resp ctx σ h rq rs) by done.
  rewrite Hr. cbv zeta. unfold abort_for. rewrite He.
  rewrite (not_Exception_not_caught e ValueError),
    (not_Exception_not_caught e NotImplementedError) by done.
  done.
Qed.

(** C3.  An endpoint type with no entry in the registry: the first thing
    [_CallEndpoint] does is [ctx.abort(UNIMPLEMENTED, ...)] with a message
    that names the type; no handler is invoked and no message is touched.
    With a context whose [abort] raises, as both contexts of the module do,
    that abort is all that happens. *)
Theorem CallEndpoint_unregistered_aborts (self : loc) (svc : Service)
    (t : string) (req resp : loc) (ctx : Context) (σ : State) :
  services σ !! self = Some svc →
  _impls svc !! t = None →
  ∃ rest,
    trace (_CallEndpoint self t req resp ctx σ).2
    = trace σ
      ++ EvAbort UNIMPLEMENTED ("Endpoint " +:+ repr t +:+ " not implemented")
         :: rest
    ∧ Forall (λ ev, is_invoke ev = false) rest
    ∧ messages (_CallEndpoint self t req resp ctx σ).2 = messages σ
    ∧ (∀ e, ctx_abort ctx UNIMPLEMENTED
              ("Endpoint " +:+ repr t +:+ " not implemented") = Some e →
            (_CallEndpoint self t req resp ctx σ).1 = Raise e ∧ rest = [])
    ∧ (_CallEndpoint self t req resp FIFOContext σ).1
      = Raise (FIFOContextAbortedError UNIMPLEMENTED
                 ("Endpoint " +:+ repr t +:+ " not implemented"))
    ∧ (plain t = true ∨ t ∈ _ALLOWED_IMPLS →
       contains ("Endpoint " +:+ repr t +:+ " not implemented") t).
Proof.
  intros Hs Hi.
  rewrite !(CallEndpoint_unregistered self svc t req resp _ σ) by done.
  cbv zeta.
  assert (plain t = true ∨ t ∈ _ALLOWED_IMPLS →
          contains ("Endpoint " +:+ repr t +:+ " not implemented") t) as Hc.
  { intros Hp. apply contains_app_r, contains_app_l, repr_plain_contains.
    destruct Hp; [done | by apply allowed_plain]. }
  destruct (ctx_abort ctx UNIMPLEMENTED _) as [e|] eqn:Habort.
  - exists []. simpl. split; [done|]. split; [constructor|].
    split; [done|]. split; [by intros e' [= <-]|]. by split.
  - eexists [_; _].
    split; [destruct (ctx_abort ctx UNKNOWN _); simpl; by rewrite <- !app_assoc|].
    split; [by repeat constructor|].
    split; [by destruct (ctx_abort ctx UNKNOWN _)|].
    split; [by intros e' [=]|]. by split.
Qed.

(** C9.  [_CallEndpoint] never writes to the response object: after the call
    the stored messages are those before it, with the response as the handler
    left it (untouched when no handler is registered); a call that returns,
    returns the location it was given; a handler that returns gives back the
    response it filled in; and when the handler raises an unclassified
    exception the [UNKNOWN] abort finds the response as the handler left
    it. *)
Theorem CallEndpoint_leaves_response (self : loc) (svc : Service) (t : string)
    (req resp : loc) (ctx : Context) (σ : State) (rq rs : Message) :
  services σ !! self = Some svc →
  messages σ !! req = Some rq →
  messages σ !! resp = Some rs →
  messages (_CallEndpoint self t req resp ctx σ).2
  = match _impls svc !! t with
    | Some h => <[resp := (h rq rs).1]> (messages σ)
    | None => messages σ
    end
  ∧ (∀ r, (_CallEndpoint self t req resp ctx σ).1 = Ret r → r = resp)
  ∧ (∀ h, _impls svc !! t = Some h → (h rq rs).2 = None →
          _CallEndpoint self t req resp ctx σ
          = (Ret resp,
             set_messages <[resp := (h rq rs).1]>
               (emit (EvInvoke t req resp) σ)))
  ∧ (∀ h e frames,
       _impls svc !! t = Some h → (h rq rs).2 = Some (e, frames) →
       isinstance e Exception = true → isinstance e ValueError = false →
       isinstance e NotImplementedError = false →
       ∃ details,
         last (trace (_CallEndpoint self t req resp ctx σ).2)
         = Some (EvAbort UNKNOWN details)
         ∧ messages (_CallEndpoint self t req resp ctx σ).2 !! resp
           = Some (h rq rs).1).
Proof.
  intros Hs Hq Hp.
  destruct (_impls svc !! t) as [h|] eqn:Hi.
  - rewrite (CallEndpoint_registered self svc t req resp ctx σ h rq rs) by done.
    cbv zeta. destruct (h rq rs) as [rs' [[e frames]|]] eqn:Hh; simpl.
    + destruct (abort_for t e (call_frame +:+ frames))
        as [[[log code] details]|] eqn:Hab.
      * split; [by destruct (ctx_abort ctx code details)|].
        split; [destruct (ctx_abort ctx code details); by intros r [= <-]|].
        split; [intros h' [= <-]; by rewrite Hh|].
        intros h' e' frames' [= <-]. rewrite Hh. simpl. intros [= <- <-] He Hv Hn.
        unfold abort_for in Hab. rewrite Hv, Hn, He in Hab.
        injection Hab as <- <- <-. eexists. split.
        -- destruct (ctx_abort ctx _ _); simpl; by rewrite last_snoc.
        -- destruct (ctx_abort ctx _ _); simpl; by rewrite lookup_insert_eq.
      * split; [done|]. split; [by intros r [=]|].
        split; [intros h' [= <-]; by rewrite Hh|].
        intros h' e' frames' [= <-]. rewrite Hh. simpl. intros [= <- <-] He Hv Hn.
        unfold abort_for in Hab. by rewrite Hv, Hn, He in Hab.
    + split; [done|]. split; [by intros r [= <-]|].
      split; [intros h' [= <-]; by rewrite Hh|].
      intros h' e' frames' [= <-]. by rewrite Hh.
  - rewrite (CallEndpoint_unregistered self svc t req resp ctx σ) by done.
    cbv zeta. split.
    { destruct (ctx_abort ctx UNIMPLEMENTED _); [done|].
      by destruct (ctx_abort ctx UNKNOWN _). }
    split.
    { destruct (ctx_abort ctx UNIMPLEMENTED _); [by intros r [=]|].
      destruct (ctx_abort ctx UNKNOWN _); by intros r [= <-]. }
    split; by intros.
Qed.

End Dispatch.

Section DispatchExamples.
#[local] Existing Instance Fixture.toy.
Import Fixture.


(** No handler for video manipulation is registered in the fixture. *)
Lemma CallEndpoint_unregistered_aborts_witness :
  (_CallEndpoint 0%nat VIDEO_MANIPULATION 0%nat 1%nat FIFOContext
     (ready bad_crop)).1
  = Raise (FIFOContextAbortedError UNIMPLEMENTED
             ("Endpoint " +:+ repr VIDEO_MANIPULATION +:+ " not implemented"))
  ∧ contains ("Endpoint " +:+ repr VIDEO_MANIPULATION +:+ " not implemented")
      "VideoManipulation".
Proof.
  destruct (CallEndpoint_unregistered_aborts 0%nat
              {| _impls := {[ IMAGE_MANIPULATION := bad_crop ]};
                 fifo := fifo_of 0%nat (ready bad_crop) |}
              VIDEO_MANIPULATION 0%nat 1%nat FIFOContext (ready bad_crop))
    as (rest & _ & _ & _ & _ & Hout & Hnames).
  - vm_compute. reflexivity.
  - vm_compute. reflexivity.
  - split; [exact Hout|]. apply Hnames. left. reflexivity.
Defined.

(** A handler that sets a field and then fails with an [OSError]: the
    response keeps the field. *)
Lemma CallEndpoint_leaves_response_witness :
  messages (_CallEndpoint 0%nat IMAGE_MANIPULATION 0%nat 1%nat FIFOContext
              (ready half_done)).2 !! 1%nat
  = Some [("score", JInt 1)].
Proof.
  destruct (CallEndpoint_leaves_response 0%nat
              {| _impls := {[ IMAGE_MANIPULATION := half_done ]};
                 fifo := fifo_of 0%nat (ready half_done) |}
              IMAGE_MANIPULATION 0%nat 1%nat FIFOContext (ready half_done)
              [("uri", JString "a.png")] [])
    as (_ & _ & _ & Hunknown).
  - vm_compute. reflexivity.
  - vm_compute. reflexivity.
  - vm_compute. reflexivity.
  - destruct (Hunknown half_done (Exc (UserClass "DiskFull" OSError) "disk full")
                handler_frames) as (details & _ & Hresp).
    + vm_compute. reflexivity.
    + reflexivity.
    + vm_compute. reflexivity.
    + vm_compute. reflexivity.
    + vm_compute. reflexivity.
    + exact Hresp.
Defined.

(** A handler that calls [sys.exit(1)]: nothing is aborted. *)
Example exit_passes_through :
  (_CallEndpoint 0%nat IMAGE_MANIPULATION 0%nat 1%nat FIFOContext
     (ready exits)).1 = Raise (Exc SystemExit "1").
Proof. vm_compute. reflexivity. Qed.

End DispatchExamples.

(** ** [json.dumps] gives one line *)

Section JsonFacts.

#[local] Arguments String.append !_ _ : simpl nomatch.

Lemma has_char_app (c : ascii) (a b : string) :
  has_char c (a +:+ b) = has_char c a || has_char c b.
Proof.
  induction a as [|x a IH]; simpl; [done|]. by rewrite IH, orb_assoc.
Qed.

Lemma has_char_cons (c d : ascii) (s : string) :
  has_char c (String d s) = Ascii.eqb c d || has_char c s.
Proof. reflexivity. Qed.

Lemma escape_char_no_newline (c : ascii) : no_newline (escape_char c).
Proof. destruct c as [[] [] [] [] [] [] [] []]; reflexivity. Qed.

Lemma escape_no_newline (s : string) : no_newline (escape s).
Proof.
  unfold no_newline. induction s as [|c s IH]; simpl; [done|].
  by rewrite has_char_app, escape_char_no_newline, IH.
Qed.

Lemma dumps_string_no_newline (s : string) : no_newline (dumps_string s).
Proof.
  unfold no_newline, dumps_string. simpl.
  by rewrite has_char_app, escape_no_newline.
Qed.

Lemma pretty_N_char_no_newline (x : N) :
  Ascii.eqb newline (pretty_N_char x) = false.
Proof. unfold pretty_N_char. by repeat case_match. Qed.

Lemma pretty_N_go_no_newline (x : N) (s : string) :
  no_newline s → no_newline (pretty_N_go x s).
Proof.
  unfold no_newline. revert s.
  induction (N.lt_wf_0 x) as [x _ IH]; intros s Hs.
  destruct (decide (x = 0%N)) as [-> | Hx]; [by rewrite pretty_N_go_0|].
  rewrite pretty_N_go_step by lia. apply IH.
  - apply N.div_lt; lia.
  - by rewrite has_char_cons, pretty_N_char_no_newline.
Qed.

Lemma pretty_N_no_newline (x : N) : no_newline (pretty x).
Proof.
  unfold pretty, pretty_N. case_decide; [done|].
  by apply pretty_N_go_no_newline.
Qed.

Lemma pretty_Z_no_newline (z : Z) : no_newline (pretty z).
Proof.
  destruct z as [|p|p]; [done| |].
  - apply (pretty_N_no_newline (N.pos p)).
  - unfold pretty, pretty_Z, no_newline. rewrite has_char_app. simpl.
    apply (pretty_N_no_newline (N.pos p)).
Qed.

Lemma digits_no_newline (ds : list digit) : no_newline (digits ds).
Proof.
  unfold no_newline. induction ds as [|d ds IH]; simpl; [done|].
  rewrite IH. by destruct d.
Qed.

Lemma dumps_float_no_newline (f : PyFloat) : no_newline (dumps_float f).
Proof.
  unfold no_newline. destruct f as [|neg|neg whole frac exp].
  - done.
  - by destruct neg.
  - unfold dumps_float. rewrite !has_char_app, pretty_N_no_newline.
    assert (has_char newline (if neg then "-" else "") = false) as ->
      by by destruct neg.
    assert (has_char newline
              match frac with [] => "" | _ :: _ => "." +:+ digits frac end
            = false) as ->.
    { destruct frac; [done|]. rewrite has_char_app.
      by rewrite digits_no_newline. }
    destruct exp as [e|]; [|done]. unfold dumps_exp.
    rewrite !has_char_app, pretty_Z_no_newline.
    by destruct (e <? 0), (Z.abs e <? 10).
Qed.

(** [json.dumps] never puts a line break in its output. *)
Lemma dumps_no_newline : ∀ j : JSON, no_newline (dumps j).
Proof.
  fix IH 1. intros [| b | z | f | s | items | fields]; unfold no_newline; simpl.
  - done.
  - by destruct b.
  - apply pretty_Z_no_newline.
  - apply dumps_float_no_newline.
  - apply dumps_string_no_newline.
  - rewrite !has_char_app. simpl. rewrite orb_false_r.
    induction items as [|x items IHl]; [done|].
    destruct items as [|y items]; [apply IH|].
    rewrite !has_char_app, IH. simpl. exact IHl.
  - rewrite !has_char_app. simpl. rewrite orb_false_r.
    induction fields as [|[k v] fields IHl]; [done|].
    destruct fields as [|y fields];
      repeat (rewrite has_char_cons || rewrite has_char_app);
      rewrite escape_no_newline, IH; simpl; [done | exact IHl].
Qed.

End JsonFacts.

(** ** The pipes *)

Section Pipes.
Context `{Externals}.

Lemma get_fifo_run (self : loc) (svc : Service) (fi : Fifo) (σ : State) :
  services σ !! self = Some svc → fifo svc = Some fi →
  get_fifo self σ = (Ret fi, σ).
Proof.
  intros Hs Hf. unfold get_fifo.
  rewrite (bind_ret _ _ _ _ _ (get_service_run _ _ _ Hs)). by rewrite Hf.
Qed.

(** Once both pipes are open [_ensureOpen] does nothing. *)
Lemma ensureOpen_open (self : loc) (svc : Service) (fi : Fifo) (fr fs : File)
    (σ : State) :
  services σ !! self = Some svc → fifo svc = Some fi →
  receiver fi = Some fr → sender fi = Some fs →
  _ensureOpen self σ = (Ret tt, σ).
Proof.
  intros Hs Hf Hr Hw. unfold _ensureOpen.
  rewrite (bind_ret _ _ _ _ _ (get_fifo_run _ _ _ _ Hs Hf)). rewrite Hr.
  rewrite bind_run. unfold mret at 1, Py_ret at 1.
  rewrite (bind_ret _ _ _ _ _ (get_fifo_run _ _ _ _ Hs Hf)). by rewrite Hw.
Qed.

Ltac run_io :=
  unfold select_any, the_file, tell, raise, hang, modify_world, set_fifo,
    mbind, mret, Py_bind, Py_ret; simpl.

Lemma send_run (self : loc) (svc : Service) (fi : Fifo) (fr fs : File)
    (data : string) (timeout : Z) (σ : State) :
  services σ !! self = Some svc → fifo svc = Some fi →
  receiver fi = Some fr → sender fi = Some fs → f_closed fs = false →
  0 ≤ timeout →
  send self data timeout σ =
  let w := world σ in
  let expired :=
    (Raise (FIFOTimeoutError "write" timeout),
     {| services := services σ; messages := messages σ;
        world := next_write (tick (Z.to_N timeout) w);
        trace := trace σ ++ [EvSelect Outbound] |}) in
  match writable w (writes w) with
  | Some d =>
      if (timeout =? 0) || (Z.of_N d <=? timeout) then
        (Ret tt,
         {| services :=
              alter (λ svc, {| _impls := _impls svc;
                               fifo := Some {| lock := lock fi; infile := infile fi;
                                               outfile := outfile fi;
                                               receiver := receiver fi;
                                               sender := Some {| f_closed := false;
                                                                 f_buffer := "" |} |} |})
                self (services σ);
            messages := messages σ;
            world := next_write
                       (deliver (f_buffer fs +:+ data +:+ chr newline) (tick d w));
            trace := trace σ ++ [EvSelect Outbound;
                                 EvWrite (data +:+ chr newline); EvFlush] |})
      else expired
  | None =>
      if timeout =? 0 then
        (Hang, {| services := services σ; messages := messages σ; world := w;
                  trace := trace σ ++ [EvSelect Outbound] |})
      else expired
  end.
Proof.
  intros Hs Hf Hr Hw Hopen Ht. unfold send.
  rewrite (bind_ret _ _ _ _ _ (ensureOpen_open _ _ _ _ _ _ Hs Hf Hr Hw)).
  rewrite (bind_ret _ _ _ _ _ (get_fifo_run _ _ _ _ Hs Hf)).
  rewrite Hw. run_io. rewrite Hopen.
  assert ((timeout <? 0) = false) as -> by lia. simpl.
  destruct (writable (world σ) (writes (world σ))) as [d|]; simpl.
  - destruct ((timeout =? 0) || (Z.of_N d <=? timeout)); simpl;
      unfold emit, set_world, set_services; simpl;
      by rewrite <- ?app_assoc.
  - destruct (timeout =? 0); simpl; [done|].
    unfold emit, set_world; simpl. done.
Qed.

Lemma receive_run (self : loc) (svc : Service) (fi : Fifo) (fr fs : File)
    (timeout : Z) (σ : State) :
  services σ !! self = Some svc → fifo svc = Some fi →
  receiver fi = Some fr → sender fi = Some fs → f_closed fr = false →
  0 ≤ timeout →
  receive self timeout σ =
  let w := world σ in
  let expired :=
    (Raise (FIFOTimeoutError "read" timeout),
     {| services := services σ; messages := messages σ;
        world := next_read (tick (Z.to_N timeout) w);
        trace := trace σ ++ [EvSelect Inbound] |}) in
  match readable w (reads w) with
  | Some (d, line) =>
      if (timeout =? 0) || (Z.of_N d <=? timeout) then
        (Ret line,
         {| services := services σ; messages := messages σ;
            world := next_read (tick d w);
            trace := trace σ ++ [EvSelect Inbound; EvReadline line] |})
      else expired
  | None =>
      if timeout =? 0 then
        (Hang, {| services := services σ; messages := messages σ; world := w;
                  trace := trace σ ++ [EvSelect Inbound] |})
      else expired
  end.
Proof.
  intros Hs Hf Hr Hw Hopen Ht. unfold receive.
  rewrite (bind_ret _ _ _ _ _ (ensureOpen_open _ _ _ _ _ _ Hs Hf Hr Hw)).
  rewrite (bind_ret _ _ _ _ _ (get_fifo_run _ _ _ _ Hs Hf)).
  rewrite Hr. run_io. rewrite Hopen.
  assert ((timeout <? 0) = false) as -> by lia. simpl.
  destruct (readable (world σ) (reads (world σ))) as [[d line]|] eqn:Hrd; simpl.
  - destruct ((timeout =? 0) || (Z.of_N d <=? timeout)); simpl;
      unfold emit, set_world; simpl; rewrite ?Hrd; by rewrite <- ?app_assoc.
  - destruct (timeout =? 0); simpl; [done|].
    unfold emit, set_world; simpl. done.
Qed.


End Pipes.

Section PipesExamples.
#[local] Existing Instance Fixture.toy.
Import Fixture.


(** A peer that reads at once: the line is on the pipe when [send] returns. *)
Example send_delivers :
  let σ' := (send 0%nat "ping" 1 (opened bad_crop [])).2 in
  out_pipe (world σ') = "ping" +:+ chr newline.
Proof. vm_compute. reflexivity. Qed.

End PipesExamples.

(** ** What a call emits and how it ends

    [post m Φ]: from any state, the events [m] adds to the trace and the
    way it ends satisfy [Φ].  Every operation only ever appends to the
    trace. *)

Section Logic.
Context `{Externals}.

Definition post {A} (m : Py A) (Φ : Outcome A → list Event → Prop) : Prop :=
  ∀ σ, ∃ t, trace (m σ).2 = trace σ ++ t ∧ Φ (m σ).1 t.

(** [r] is the failure [r0], at another result type. *)
Definition failed_as {A B} (r0 : Outcome A) (r : Outcome B) : Prop :=
  match r0, r with
  | Raise e, Raise e' => e = e'
  | Hang, Hang => True
  | _, _ => False
  end.

Lemma post_mono {A} (m : Py A) (Φ Ψ : Outcome A → list Event → Prop) :
  post m Φ → (∀ r t, Φ r t → Ψ r t) → post m Ψ.
Proof. intros Hm HΦ σ. destruct (Hm σ) as (t & Ht & Hr). eauto. Qed.

Lemma post_bind {A B} (m : Py A) (k : A → Py B)
    (Φ : Outcome A → list Event → Prop)
    (Ψ : A → Outcome B → list Event → Prop) :
  post m Φ → (∀ a, post (k a) (Ψ a)) →
  post (m ≫= k)
    (λ r t, (∃ a t1 t2, t = t1 ++ t2 ∧ Φ (Ret a) t1 ∧ Ψ a r t2)
            ∨ (∃ r0, failed_as r0 r ∧ Φ r0 t)).
Proof.
  intros Hm Hk σ. rewrite bind_run.
  destruct (Hm σ) as (t1 & Ht1 & H1).
  destruct (m σ) as [[a|e|] σ1]; simpl in *.
  - destruct (Hk a σ1) as (t2 & Ht2 & H2).
    exists (t1 ++ t2). split; [by rewrite Ht2, Ht1, app_assoc|].
    left. by exists a, t1, t2.
  - exists t1. split; [done|]. right. by exists (Raise e).
  - exists t1. split; [done|]. right. by exists Hang.
Qed.

(** [tidy P Q m]: every event [m] emits satisfies [P], and every exception
    it raises satisfies [Q]. *)
Definition tidy {A} (P : Event → Prop) (Q : PyExc → Prop) (m : Py A) : Prop :=
  post m (λ r t, Forall P t ∧ ∀ e, r = Raise e → Q e).

Section Tidy.
Variables (P : Event → Prop) (Q : PyExc → Prop).

Lemma tidy_pure {A} (m : Py A) :
  (∀ σ, trace (m σ).2 = trace σ) → (∀ σ e, (m σ).1 = Raise e → Q e) →
  tidy P Q m.
Proof.
  intros Ht Hq σ. exists []. rewrite app_nil_r. split; [done|].
  split; [constructor | apply Hq].
Qed.

Lemma tidy_ret {A} (a : A) : tidy P Q (mret a).
Proof. by apply tidy_pure. Qed.

Lemma tidy_raise {A} (e : PyExc) : Q e → tidy P Q (@raise _ A e).
Proof. intros He. apply tidy_pure; [done|]. by intros σ e' [= <-]. Qed.

Lemma tidy_hang {A} : tidy P Q (@hang _ A).
Proof. by apply tidy_pure. Qed.

Lemma tidy_tell (ev : Event) : P ev → tidy P Q (tell ev).
Proof.
  intros Hev σ. exists [ev]. split; [done|]. split; [by constructor | done].
Qed.

Lemma tidy_bind {A B} (m : Py A) (k : A → Py B) :
  tidy P Q m → (∀ a, tidy P Q (k a)) → tidy P Q (m ≫= k).
Proof.
  intros Hm Hk.
  eapply post_mono;
    [exact (post_bind m k (λ r t, Forall P t ∧ ∀ e, r = Raise e → Q e)
              (λ _ r t, Forall P t ∧ ∀ e, r = Raise e → Q e) Hm Hk)|].
  simpl.
  intros r t [(a & t1 & t2 & -> & [H1 _] & [H2 Hq]) | (r0 & Hf & [H1 Hq])].
  - split; [by apply Forall_app | done].
  - split; [done|]. intros e ->. destruct r0; simpl in Hf; try done.
    subst. by apply Hq.
Qed.

Lemma tidy_lift {A} (r : PyExc + A) :
  (∀ e, r = inl e → Q e) → tidy P Q (lift r).
Proof.
  intros Hr. destruct r as [e|a]; simpl; [|apply tidy_ret].
  apply tidy_raise. by apply Hr.
Qed.

Lemma tidy_modify_world (f : World → World) : tidy P Q (modify_world f).
Proof. by apply tidy_pure. Qed.

Lemma tidy_set_message (l : loc) (m : Message) : tidy P Q (set_message l m).
Proof. by apply tidy_pure. Qed.

Lemma tidy_alloc_message (m : Message) : tidy P Q (alloc_message m).
Proof. by apply tidy_pure. Qed.

Lemma tidy_set_fifo (self : loc) (fi : Fifo) : tidy P Q (set_fifo self fi).
Proof. by apply tidy_pure. Qed.

Lemma tidy_set_impls (self : loc) (m : gmap string Handler) :
  tidy P Q (set_impls self m).
Proof. by apply tidy_pure. Qed.

Hypothesis Q_Exc : ∀ cls msg, Q (Exc cls msg).

Lemma tidy_get_service (self : loc) : tidy P Q (get_service self).
Proof.
  apply tidy_pure; intros σ; unfold get_service, attribute_error, raise;
    destruct (services σ !! self); simpl; [done | done | done |].
  by intros e [= <-].
Qed.

Lemma tidy_get_message (l : loc) : tidy P Q (get_message l).
Proof.
  apply tidy_pure; intros σ; unfold get_message, attribute_error, raise;
    destruct (messages σ !! l); simpl; [done | done | done |].
  by intros e [= <-].
Qed.

Lemma tidy_get_fifo (self : loc) : tidy P Q (get_fifo self).
Proof.
  apply tidy_bind; [apply tidy_get_service|]. intros svc.
  destruct (fifo svc); [apply tidy_ret|]. by apply tidy_raise.
Qed.

Lemma tidy_the_file (f : option File) (attr : string) :
  tidy P Q (the_file f attr).
Proof. destruct f; [apply tidy_ret|]. by apply tidy_raise. Qed.

Hypothesis P_open : ∀ p, P (EvOpen p).
Hypothesis P_select : ∀ p, P (EvSelect p).

Lemma tidy_open_pipe (path : option string) (p : PipeEnd) :
  tidy P Q (open_pipe path p).
Proof.
  destruct path as [name|]; simpl; [|by apply tidy_raise].
  intros σ. simpl. destruct (os_open (world σ) name p); simpl.
  - exists [EvOpen p]. split; [done|]. split; [by constructor | done].
  - exists []. rewrite app_nil_r. split; [done|].
    split; [constructor|]. by intros e [= <-].
  - exists []. rewrite app_nil_r. split; [done|]. by split; [constructor|].
Qed.

Lemma tidy_ensureOpen (self : loc) : tidy P Q (_ensureOpen self).
Proof.
  unfold _ensureOpen.
  apply tidy_bind; [apply tidy_get_fifo|]. intros fi.
  apply tidy_bind.
  { destruct (receiver fi); [apply tidy_ret|].
    apply tidy_bind; [apply tidy_open_pipe|]. intros r. apply tidy_set_fifo. }
  intros _. apply tidy_bind; [apply tidy_get_fifo|]. intros fi'.
  destruct (sender fi'); [apply tidy_ret|].
  apply tidy_bind; [apply tidy_open_pipe|]. intros s. apply tidy_set_fifo.
Qed.

Lemma tidy_select_any (p : PipeEnd) (f : File) (timeout : Z) :
  tidy P Q (select_any p f timeout).
Proof.
  unfold select_any. destruct (timeout <? 0); [by apply tidy_raise|].
  destruct (f_closed f); [by apply tidy_raise|].
  intros σ. exists [EvSelect p].
  destruct (ready_after p (world σ)) as [d|];
    [destruct ((timeout =? 0) || (Z.of_N d <=? timeout))
    |destruct (timeout =? 0)]; simpl;
    (split; [done|]; split; [by constructor | done]).
Qed.

End Tidy.

End Logic.

Section Shapes.
Context `{Externals}.

Definition is_Exc (e : PyExc) : Prop := ∃ cls msg, e = Exc cls msg.

Lemma is_Exc_Exc (cls : ExcClass) (msg : string) : is_Exc (Exc cls msg).
Proof. by exists cls, msg. Qed.

(** A step that only waits, followed by a step with postcondition [Φ]. *)
Lemma post_after_tidy {A B} (P : Event → Prop) (Q : PyExc → Prop)
    (m : Py A) (k : A → Py B) (Φ : Outcome B → list Event → Prop) :
  tidy P Q m → (∀ a, post (k a) Φ) →
  (∀ r t pre, Forall P pre → Φ r t → Φ r (pre ++ t)) →
  (∀ (r0 : Outcome A) r t, failed_as r0 r → Forall P t →
                           (∀ e, r0 = Raise e → Q e) → Φ r t) →
  post (m ≫= k) Φ.
Proof.
  intros Hm Hk Hpre Hfail.
  eapply post_mono;
    [exact (post_bind m k (λ r t, Forall P t ∧ ∀ e, r = Raise e → Q e)
              (λ _, Φ) Hm Hk)|].
  simpl. intros r t [(a & t1 & t2 & -> & [H1 _] & H2) | (r0 & Hf & [H1 Hq])].
  - by apply Hpre.
  - by eapply Hfail.
Qed.

(** How [send] ends: the line and the flush come last, after waiting; a
    [send] that does not return has written nothing, and what it raises is
    never the abort carrier. *)
Definition sent (data : string) (r : Outcome unit) (t : list Event) : Prop :=
  match r with
  | Ret _ => ∃ pre, t = pre ++ [EvWrite (data +:+ chr newline); EvFlush]
                    ∧ Forall (λ ev, is_wait ev = true) pre
  | Raise e => Forall (λ ev, is_wait ev = true) t ∧ is_Exc e
  | Hang => Forall (λ ev, is_wait ev = true) t
  end.

Lemma sent_prefix (data : string) (r : Outcome unit) (t pre : list Event) :
  Forall (λ ev, is_wait ev = true) pre → sent data r t → sent data r (pre ++ t).
Proof.
  intros Hpre. destruct r as [a|e|]; simpl.
  - intros (pre' & -> & Hp). exists (pre ++ pre').
    split; [by rewrite app_assoc | by apply Forall_app].
  - intros [Ht He]. split; [by apply Forall_app | done].
  - intros Ht. by apply Forall_app.
Qed.

Lemma sent_failed {A} (data : string) (r0 : Outcome A) (r : Outcome unit)
    (t : list Event) :
  failed_as r0 r → Forall (λ ev, is_wait ev = true) t →
  (∀ e, r0 = Raise e → is_Exc e) → sent data r t.
Proof.
  intros Hf Ht Hq. destruct r0 as [a|e|], r as [b|e'|]; simpl in *; try done.
  subst. split; [done|]. by apply Hq.
Qed.

Ltac side := intros; first [apply is_Exc_Exc | reflexivity | exact I | done].
Ltac waits :=
  first [ apply tidy_ensureOpen; side | apply tidy_get_fifo; side
        | apply tidy_the_file; side | apply tidy_select_any; side
        | apply tidy_modify_world | apply tidy_set_fifo
        | apply tidy_raise; side ].

Lemma send_post (self : loc) (data : string) (timeout : Z) :
  post (send self data timeout) (sent data).
Proof.
  unfold send.
  eapply (post_after_tidy (λ ev, is_wait ev = true) is_Exc);
    [waits | | apply sent_prefix | apply sent_failed].
  intros [].
  eapply (post_after_tidy (λ ev, is_wait ev = true) is_Exc);
    [waits | | apply sent_prefix | apply sent_failed].
  intros fi.
  eapply (post_after_tidy (λ ev, is_wait ev = true) is_Exc);
    [waits | | apply sent_prefix | apply sent_failed].
  intros f.
  eapply (post_after_tidy (λ ev, is_wait ev = true) is_Exc);
    [waits | | apply sent_prefix | apply sent_failed].
  intros [|]; simpl.
  - intros σ. exists [EvWrite (data +:+ chr newline); EvFlush].
    split; [simpl; by rewrite <- !app_assoc|]. simpl. by exists [].
  - intros σ. exists []. rewrite app_nil_r. split; [done|]. simpl.
    split; [constructor | apply is_Exc_Exc].
Qed.

Lemma send_raises_Exc (self : loc) (data : string) (timeout : Z) (σ : State)
    (e : PyExc) :
  (send self data timeout σ).1 = Raise e → is_Exc e.
Proof.
  intros Hr. destruct (send_post self data timeout σ) as (t & _ & Hs).
  rewrite Hr in Hs. apply Hs.
Qed.

(** How [receive] ends: [readline] comes last, after waiting. *)
Definition received (r : Outcome string) (t : list Event) : Prop :=
  match r with
  | Ret line => ∃ pre, t = pre ++ [EvReadline line]
                       ∧ Forall (λ ev, is_wait ev = true) pre
  | _ => Forall (λ ev, is_wait ev = true) t
  end.

Lemma received_prefix (r : Outcome string) (t pre : list Event) :
  Forall (λ ev, is_wait ev = true) pre → received r t → received r (pre ++ t).
Proof.
  intros Hpre. destruct r as [a|e|]; simpl.
  - intros (pre' & -> & Hp). exists (pre ++ pre').
    split; [by rewrite app_assoc | by apply Forall_app].
  - intros Ht. by apply Forall_app.
  - intros Ht. by apply Forall_app.
Qed.

Lemma received_failed {A} (r0 : Outcome A) (r : Outcome string)
    (t : list Event) :
  failed_as r0 r → Forall (λ ev, is_wait ev = true) t →
  (∀ e, r0 = Raise e → True) → received r t.
Proof.
  intros Hf Ht _. by destruct r0 as [a|e|], r as [b|e'|].
Qed.

Lemma receive_post (self : loc) (timeout : Z) :
  post (receive self timeout) received.
Proof.
  unfold receive.
  eapply (post_after_tidy (λ ev, is_wait ev = true) (λ _, True));
    [apply (tidy_ensureOpen _ (λ _, True)); side | | apply received_prefix
    | apply received_failed].
  intros [].
  eapply (post_after_tidy (λ ev, is_wait ev = true) (λ _, True));
    [apply (tidy_get_fifo _ (λ _, True)); side | | apply received_prefix
    | apply received_failed].
  intros fi.
  eapply (post_after_tidy (λ ev, is_wait ev = true) (λ _, True));
    [apply (tidy_the_file _ (λ _, True)); side | | apply received_prefix
    | apply received_failed].
  intros f.
  eapply (post_after_tidy (λ ev, is_wait ev = true) (λ _, True));
    [apply (tidy_select_any _ (λ _, True)); side | | apply received_prefix
    | apply received_failed].
  intros [|]; simpl.
  - intros σ. eexists [EvReadline _]. split; [done|]. simpl. by exists [].
  - intros σ. exists []. rewrite app_nil_r. split; [done|]. simpl. constructor.
Qed.

End Shapes.

(** ** One round of the protocol *)

Section Serving.
Context `{Externals}.

(* [TYPES] is looked up through hypotheses, not by unfolding the table. *)
#[local] Arguments assoc : simpl never.

(** The FIFO attributes with the lock taken, and after a [send]. *)
Definition held (fi : Fifo) : Fifo :=
  {| lock := true; infile := infile fi; outfile := outfile fi;
     receiver := receiver fi; sender := sender fi |}.

Definition flushed (fi : Fifo) : Fifo :=
  {| lock := lock fi; infile := infile fi; outfile := outfile fi;
     receiver := receiver fi;
     sender := Some {| f_closed := false; f_buffer := "" |} |}.

Definition unheld (fi : Fifo) : Fifo :=
  {| lock := false; infile := infile fi; outfile := outfile fi;
     receiver := receiver fi; sender := sender fi |}.

Definition put_fifo (self : loc) (fi : Fifo) (m : gmap loc Service)
  : gmap loc Service :=
  alter (λ svc, {| _impls := _impls svc; fifo := Some fi |}) self m.

Lemma put_fifo_lookup (self : loc) (fi : Fifo) (m : gmap loc Service)
    (svc : Service) :
  m !! self = Some svc →
  put_fifo self fi m !! self = Some {| _impls := _impls svc; fifo := Some fi |}.
Proof. intros Hs. unfold put_fifo. by rewrite lookup_alter_eq, Hs. Qed.

Lemma acquire_run (self : loc) (svc : Service) (fi : Fifo) (σ : State) :
  services σ !! self = Some svc → fifo svc = Some fi → lock fi = false →
  acquire self σ =
  (Ret tt, {| services := put_fifo self (held fi) (services σ);
              messages := messages σ; world := world σ;
              trace := trace σ ++ [EvAcquire self] |}).
Proof.
  intros Hs Hf Hl. unfold acquire.
  rewrite (bind_ret _ _ _ _ _ (get_fifo_run _ _ _ _ Hs Hf)). by rewrite Hl.
Qed.

Lemma acquire_blocks (self : loc) (svc : Service) (fi : Fifo) (σ : State) :
  services σ !! self = Some svc → fifo svc = Some fi → lock fi = true →
  acquire self σ = (Hang, σ).
Proof.
  intros Hs Hf Hl. unfold acquire.
  rewrite (bind_ret _ _ _ _ _ (get_fifo_run _ _ _ _ Hs Hf)). by rewrite Hl.
Qed.

Lemma with_lock_run {A} (self : loc) (svc : Service) (fi : Fifo)
    (body : Py A) (σ : State) :
  services σ !! self = Some svc → fifo svc = Some fi → lock fi = false →
  with_lock self body σ =
  match body {| services := put_fifo self (held fi) (services σ);
                messages := messages σ; world := world σ;
                trace := trace σ ++ [EvAcquire self] |} with
  | (Hang, σ') => (Hang, σ')
  | (r, σ') => (r, release self σ')
  end.
Proof.
  intros Hs Hf Hl. unfold with_lock.
  rewrite (bind_ret _ _ _ _ _ (acquire_run _ _ _ _ Hs Hf Hl)).
  unfold try_finally. by destruct (body _) as [[a|e|] σ'].
Qed.

Lemma release_lookup (self : loc) (svc : Service) (fi : Fifo) (σ : State) :
  services σ !! self = Some svc → fifo svc = Some fi →
  services (release self σ) !! self
  = Some {| _impls := _impls svc; fifo := Some (unheld fi) |}.
Proof.
  intros Hs Hf. unfold release. simpl. rewrite lookup_alter_eq, Hs. simpl.
  by rewrite Hf.
Qed.

Lemma parse_request_ok (line : string) (fields : list (string * JSON))
    (code t : string) (rqc rsc : MsgClass) (v : JSON) (rq : Message) (σ : State) :
  json_loads line = inr (JObject fields) →
  get fields "type" = Some (JString code) →
  assoc TYPES code = Some (t, rqc, rsc) →
  get fields "value" = Some v →
  ParseDict v (new_message rqc) = inr rq →
  let req := fresh (dom (messages σ)) in
  let resp := fresh (dom (<[req := new_message rqc]> (messages σ))) in
  req ≠ resp
  ∧ parse_request line σ =
    (Ret (t, req, resp),
     {| services := services σ;
        messages := <[req := rq]>
                      (<[resp := new_message rsc]>
                         (<[req := new_message rqc]> (messages σ)));
        world := world σ; trace := trace σ |}).
Proof.
  intros Hl Hty Hcode Hv Hp req resp.
  assert (req ≠ resp) as Hne.
  { intros Heq. apply (is_fresh (dom (<[req := new_message rqc]> (messages σ)))).
    fold resp. rewrite <- Heq, dom_insert. apply elem_of_union. left.
    by apply elem_of_singleton. }
  split; [done|].
  unfold parse_request. rewrite Hl.
  unfold lift, py_in, getitem, TYPES_getitem, alloc_message, get_message,
    set_message, raise, mbind, mret, Py_bind, Py_ret. simpl.
  rewrite Hty. rewrite bool_decide_eq_true_2 by eauto. simpl.
  rewrite Hcode. simpl. rewrite Hv. simpl.
  fold req. fold resp.
  rewrite lookup_insert_ne by done. rewrite lookup_insert_eq.
  rewrite Hp. simpl. done.
Qed.

(** What the [try] statement of [serveOnce] does before it sends: the
    events, the response message afterwards, and the wire message to send,
    or the exception that no clause catches. *)
Definition reply (impls : gmap string Handler) (t : string) (req resp : loc)
    (rq rs : Message) : list Event * Message * (JSON + PyExc) :=
  match impls !! t with
  | None =>
      let details := "Endpoint " +:+ repr t +:+ " not implemented" in
      ([EvAbort UNIMPLEMENTED details], rs,
       inl (abort_message UNIMPLEMENTED details))
  | Some h =>
      match (h rq rs).2 with
      | None =>
          ([EvInvoke t req resp], (h rq rs).1,
           inl (ok_message (MessageToDict (h rq rs).1)))
      | Some (e, frames) =>
          match abort_for t e (call_frame +:+ frames) with
          | Some (log, code, details) =>
              ([EvInvoke t req resp; log; EvAbort code details], (h rq rs).1,
               inl (abort_message code details))
          | None => ([EvInvoke t req resp], (h rq rs).1, inr e)
          end
      end
  end.

Lemma respond_run (self : loc) (svc : Service) (t : string) (req resp : loc)
    (rq rs : Message) (σ : State) :
  services σ !! self = Some svc →
  messages σ !! req = Some rq →
  messages σ !! resp = Some rs →
  respond self t req resp σ =
  let σ1 := {| services := services σ;
               messages := <[resp := (reply (_impls svc) t req resp rq rs).1.2]>
                             (messages σ);
               world := world σ;
               trace := trace σ ++ (reply (_impls svc) t req resp rq rs).1.1 |} in
  match (reply (_impls svc) t req resp rq rs).2 with
  | inl payload => send self (dumps payload) 0 σ1
  | inr e => (Raise e, σ1)
  end.
Proof.
  intros Hs Hq Hp. unfold respond, try_except, reply. rewrite bind_run.
  destruct (_impls svc !! t) as [h|] eqn:Hi.
  - rewrite (CallEndpoint_registered self svc t req resp _ σ h rq rs) by done.
    cbv zeta. destruct (h rq rs) as [rs' [[e frames]|]] eqn:Hh; simpl.
    + destruct (abort_for t e (call_frame +:+ frames))
        as [[[log code] details]|] eqn:Hab; simpl.
      * unfold emit, set_messages. simpl. rewrite <- !app_assoc. reflexivity.
      * destruct e as [cls m|code details]; [done|].
        unfold abort_for in Hab. simpl in Hab. done.
    + rewrite bind_run. unfold get_message. simpl.
      rewrite lookup_insert_eq.
      set (σ1 := set_messages <[resp := rs']> (emit (EvInvoke t req resp) σ)).
      change {| services := services σ; messages := <[resp := rs']> (messages σ);
                world := world σ; trace := trace σ ++ [EvInvoke t req resp] |}
        with σ1.
      match goal with |- context [send ?s0 ?d0 ?t0 σ1] =>
        pose proof (send_raises_Exc s0 d0 t0 σ1) as Hexc;
        destruct (send s0 d0 t0 σ1) as [[a|e|] σ'] end; [done| |done].
      destruct (Hexc e eq_refl) as (cls & msg & ->). done.
  - rewrite (CallEndpoint_unregistered self svc t req resp _ σ) by done.
    cbv zeta. simpl. rewrite insert_id by done. reflexivity.
Qed.

End Serving.

Section Rounds.
Context `{Externals}.

#[local] Arguments assoc : simpl never.
#[local] Arguments dumps : simpl never.
#[local] Arguments reply : simpl never.

Lemma receive_ready (self : loc) (svc : Service) (fi : Fifo) (fr fs : File)
    (d : N) (line : string) (σ : State) :
  services σ !! self = Some svc → fifo svc = Some fi →
  receiver fi = Some fr → sender fi = Some fs → f_closed fr = false →
  readable (world σ) (reads (world σ)) = Some (d, line) →
  receive self 0 σ =
  (Ret line,
   {| services := services σ; messages := messages σ;
      world := next_read (tick d (world σ));
      trace := trace σ ++ [EvSelect Inbound; EvReadline line] |}).
Proof.
  intros Hs Hf Hr Hw Hopen Hline.
  rewrite (receive_run self svc fi fr fs 0 σ Hs Hf Hr Hw Hopen (Z.le_refl 0)).
  cbv zeta. by rewrite Hline.
Qed.

Lemma send_ready (self : loc) (svc : Service) (fi : Fifo) (fr fs : File)
    (d : N) (data : string) (σ : State) :
  services σ !! self = Some svc → fifo svc = Some fi →
  receiver fi = Some fr → sender fi = Some fs → f_closed fs = false →
  writable (world σ) (writes (world σ)) = Some d →
  send self data 0 σ =
  (Ret tt,
   {| services := put_fifo self (flushed fi) (services σ);
      messages := messages σ;
      world := next_write
                 (deliver (f_buffer fs +:+ data +:+ chr newline)
                    (tick d (world σ)));
      trace := trace σ ++ [EvSelect Outbound;
                           EvWrite (data +:+ chr newline); EvFlush] |}).
Proof.
  intros Hs Hf Hr Hw Hopen Hready.
  rewrite (send_run self svc fi fr fs data 0 σ Hs Hf Hr Hw Hopen (Z.le_refl 0)).
  cbv zeta. by rewrite Hready.
Qed.

Lemma send_never (self : loc) (svc : Service) (fi : Fifo) (fr fs : File)
    (data : string) (σ : State) :
  services σ !! self = Some svc → fifo svc = Some fi →
  receiver fi = Some fr → sender fi = Some fs → f_closed fs = false →
  writable (world σ) (writes (world σ)) = None →
  send self data 0 σ =
  (Hang, {| services := services σ; messages := messages σ;
            world := world σ; trace := trace σ ++ [EvSelect Outbound] |}).
Proof.
  intros Hs Hf Hr Hw Hopen Hready.
  rewrite (send_run self svc fi fr fs data 0 σ Hs Hf Hr Hw Hopen (Z.le_refl 0)).
  cbv zeta. by rewrite Hready.
Qed.

Lemma with_lock_ends {A} (self : loc) (svc : Service) (fi : Fifo)
    (body : Py A) (σ σ' : State) (r : Outcome A) :
  services σ !! self = Some svc → fifo svc = Some fi → lock fi = false →
  body {| services := put_fifo self (held fi) (services σ);
          messages := messages σ; world := world σ;
          trace := trace σ ++ [EvAcquire self] |} = (r, σ') →
  with_lock self body σ
  = match r with Hang => (Hang, σ') | _ => (r, release self σ') end.
Proof.
  intros Hs Hf Hl Hb. rewrite (with_lock_run self svc fi body σ Hs Hf Hl), Hb.
  by destruct r.
Qed.

Lemma respond_sends (self : loc) (svc : Service) (t : string) (req resp : loc)
    (rq rs : Message) (σ : State) (payload : JSON) :
  services σ !! self = Some svc →
  messages σ !! req = Some rq → messages σ !! resp = Some rs →
  (reply (_impls svc) t req resp rq rs).2 = inl payload →
  respond self t req resp σ =
  send self (dumps payload) 0
    {| services := services σ;
       messages := <[resp := (reply (_impls svc) t req resp rq rs).1.2]>
                     (messages σ);
       world := world σ;
       trace := trace σ ++ (reply (_impls svc) t req resp rq rs).1.1 |}.
Proof.
  intros Hs Hq Hp Hout.
  rewrite (respond_run self svc t req resp rq rs σ Hs Hq Hp). cbv zeta.
  by rewrite Hout.
Qed.

Lemma respond_raises (self : loc) (svc : Service) (t : string) (req resp : loc)
    (rq rs : Message) (σ : State) (e : PyExc) :
  services σ !! self = Some svc →
  messages σ !! req = Some rq → messages σ !! resp = Some rs →
  (reply (_impls svc) t req resp rq rs).2 = inr e →
  respond self t req resp σ =
  (Raise e,
   {| services := services σ;
      messages := <[resp := (reply (_impls svc) t req resp rq rs).1.2]>
                    (messages σ);
      world := world σ;
      trace := trace σ ++ (reply (_impls svc) t req resp rq rs).1.1 |}).
Proof.
  intros Hs Hq Hp Hout.
  rewrite (respond_run self svc t req resp rq rs σ Hs Hq Hp). cbv zeta.
  by rewrite Hout.
Qed.

(** The part of a round inside the lock, on a well-formed request: up to
    the [send], or to the exception that no clause catches. *)
Lemma round_body_run (self : loc) (svc : Service) (fi : Fifo) (fr fs : File)
    (d : N) (line : string) (fields : list (string * JSON)) (code t : string)
    (rqc rsc : MsgClass) (v : JSON) (rq : Message) (σ : State) :
  services σ !! self = Some svc → fifo svc = Some fi →
  receiver fi = Some fr → f_closed fr = false → sender fi = Some fs →
  readable (world σ) (reads (world σ)) = Some (d, line) →
  json_loads line = inr (JObject fields) →
  get fields "type" = Some (JString code) →
  assoc TYPES code = Some (t, rqc, rsc) →
  get fields "value" = Some v →
  ParseDict v (new_message rqc) = inr rq →
  let req := fresh (dom (messages σ)) in
  let resp := fresh (dom (<[req := new_message rqc]> (messages σ))) in
  let r := reply (_impls svc) t req resp rq (new_message rsc) in
  let σ3 :=
    {| services := services σ;
       messages := <[resp := r.1.2]>
                     (<[req := rq]>
                        (<[resp := new_message rsc]>
                           (<[req := new_message rqc]> (messages σ))));
       world := next_read (tick d (world σ));
       trace := (trace σ ++ [EvSelect Inbound; EvReadline line]) ++ r.1.1 |} in
  (line ← receive self 0;
   '(callType, req, resp) ← parse_request line;
   respond self callType req resp) σ
  = match r.2 with
    | inl payload => send self (dumps payload) 0 σ3
    | inr e => (Raise e, σ3)
    end.
Proof.
  intros Hs Hf Hr Hropen Hw Hline Hjson Hty Hcode Hv Hparse req resp r σ3.
  rewrite (bind_ret _ _ _ _ _
             (receive_ready self svc fi fr fs d line σ Hs Hf Hr Hw Hropen Hline)).
  destruct (parse_request_ok line fields code t rqc rsc v rq
              {| services := services σ; messages := messages σ;
                 world := next_read (tick d (world σ));
                 trace := trace σ ++ [EvSelect Inbound; EvReadline line] |}
              Hjson Hty Hcode Hv Hparse) as [Hne Hp].
  rewrite (bind_ret _ _ _ _ _ Hp). clear Hp. cbv beta iota.
  change (fresh (dom (messages
            {| services := services σ; messages := messages σ;
               world := next_read (tick d (world σ));
               trace := trace σ ++ [EvSelect Inbound; EvReadline line] |})))
    with req in *.
  change (fresh (dom (<[req := new_message rqc]> (messages
            {| services := services σ; messages := messages σ;
               world := next_read (tick d (world σ));
               trace := trace σ ++ [EvSelect Inbound; EvReadline line] |}))))
    with resp in *.
  destruct (r.2) as [payload|e] eqn:Hout.
  - rewrite (respond_sends self svc t req resp rq (new_message rsc) _ payload);
      [reflexivity | exact Hs | apply lookup_insert_eq
      | simpl; rewrite lookup_insert_ne by exact Hne; apply lookup_insert_eq
      | exact Hout].
  - rewrite (respond_raises self svc t req resp rq (new_message rsc) _ e);
      [reflexivity | exact Hs | apply lookup_insert_eq
      | simpl; rewrite lookup_insert_ne by exact Hne; apply lookup_insert_eq
      | exact Hout].
Qed.

(** One round on a well-formed request: the lock is free, both pipes are
    open, a line arrives, and the line parses. *)
Lemma serveOnce_run (self : loc) (svc : Service) (fi : Fifo) (fr fs : File)
    (d : N) (line : string) (fields : list (string * JSON)) (code t : string)
    (rqc rsc : MsgClass) (v : JSON) (rq : Message) (σ : State) :
  services σ !! self = Some svc → fifo svc = Some fi → lock fi = false →
  receiver fi = Some fr → f_closed fr = false →
  sender fi = Some fs → f_closed fs = false →
  readable (world σ) (reads (world σ)) = Some (d, line) →
  json_loads line = inr (JObject fields) →
  get fields "type" = Some (JString code) →
  assoc TYPES code = Some (t, rqc, rsc) →
  get fields "value" = Some v →
  ParseDict v (new_message rqc) = inr rq →
  let req := fresh (dom (messages σ)) in
  let resp := fresh (dom (<[req := new_message rqc]> (messages σ))) in
  let r := reply (_impls svc) t req resp rq (new_message rsc) in
  let before :=
    trace σ ++ [EvAcquire self; EvSelect Inbound; EvReadline line] ++ r.1.1 in
  let res := serveOnce self σ in
  messages res.2
  = <[resp := r.1.2]>
      (<[req := rq]>
         (<[resp := new_message rsc]>
            (<[req := new_message rqc]> (messages σ))))
  ∧ match r.2 with
    | inr e =>
        res.1 = Raise e
        ∧ trace res.2 = before ++ [EvRelease self]
        ∧ world res.2 = next_read (tick d (world σ))
        ∧ services res.2 !! self
          = Some {| _impls := _impls svc; fifo := Some (unheld fi) |}
    | inl payload =>
        match writable (world σ) (writes (world σ)) with
        | Some d' =>
            res.1 = Ret tt
            ∧ trace res.2
              = before ++ [EvSelect Outbound;
                           EvWrite (dumps payload +:+ chr newline);
                           EvFlush; EvRelease self]
            ∧ world res.2
              = next_write
                  (deliver (f_buffer fs +:+ dumps payload +:+ chr newline)
                     (tick d' (next_read (tick d (world σ)))))
            ∧ services res.2 !! self
              = Some {| _impls := _impls svc; fifo := Some (unheld (flushed fi)) |}
        | None =>
            res.1 = Hang ∧ trace res.2 = before ++ [EvSelect Outbound]
        end
    end.
Proof.
  intros Hs Hf Hl Hr Hropen Hw Hwopen Hline Hjson Hty Hcode Hv Hparse.
  cbv zeta.
  pose proof (put_fifo_lookup self (held fi) (services σ) svc Hs) as HsL.
  pose proof (round_body_run self _ (held fi) fr fs d line fields code t
                rqc rsc v rq
                {| services := put_fifo self (held fi) (services σ);
                   messages := messages σ; world := world σ;
                   trace := trace σ ++ [EvAcquire self] |}
                HsL eq_refl Hr Hropen Hw Hline Hjson Hty Hcode Hv Hparse)
    as Hbody.
  cbv zeta in Hbody. cbn [_impls services messages world trace] in Hbody.
  unfold serveOnce.
  destruct (reply (_impls svc) t (fresh (dom (messages σ)))
              (fresh (dom (<[fresh (dom (messages σ)) := new_message rqc]>
                             (messages σ)))) rq (new_message rsc)).2
    as [payload|e] eqn:Hout.
  - destruct (writable (world σ) (writes (world σ))) as [d'|] eqn:Hready.
    + match type of Hbody with _ = send _ _ _ ?st =>
        rewrite (send_ready self _ (held fi) fr fs d' (dumps payload) st
                   HsL eq_refl Hr Hw Hwopen Hready) in Hbody end.
      rewrite (with_lock_ends self svc fi _ σ _ _ Hs Hf Hl Hbody).
      cbn [fst snd release emit set_services messages world trace services].
      split; [reflexivity|]. split; [reflexivity|].
      split; [by rewrite <- !app_assoc|]. split; [reflexivity|].
      unfold put_fifo. rewrite !lookup_alter_eq, Hs. reflexivity.
    + match type of Hbody with _ = send _ _ _ ?st =>
        rewrite (send_never self _ (held fi) fr fs (dumps payload) st
                   HsL eq_refl Hr Hw Hwopen Hready) in Hbody end.
      rewrite (with_lock_ends self svc fi _ σ _ _ Hs Hf Hl Hbody).
      cbn [fst snd messages world trace services].
      split; [reflexivity|]. split; [reflexivity|]. by rewrite <- !app_assoc.
  - rewrite (with_lock_ends self svc fi _ σ _ _ Hs Hf Hl Hbody).
    cbn [fst snd release emit set_services messages world trace services].
    split; [reflexivity|]. split; [reflexivity|].
    split; [by rewrite <- !app_assoc|]. split; [reflexivity|].
    unfold put_fifo. rewrite !lookup_alter_eq, Hs. reflexivity.
Qed.

End Rounds.

(** ** The shape of every round *)

Section RoundShape.
Context `{Externals}.

Lemma tidy_abort (ctx : Context) (code : StatusCode) (details : string) :
  tidy (λ ev, is_dispatch ev = true) (λ _, True) (abort ctx code details).
Proof.
  unfold abort. apply tidy_bind; [by apply tidy_tell|]. intros [].
  destruct (ctx_abort ctx code details); [by apply tidy_raise | apply tidy_ret].
Qed.

Lemma tidy_invoke (ep_func : option Handler) (t : string) (req resp : loc) :
  tidy (λ ev, is_dispatch ev = true) (λ _, True) (invoke ep_func t req resp).
Proof.
  unfold invoke. destruct ep_func as [f|]; [|apply tidy_ret].
  apply tidy_bind; [by apply tidy_get_message|]. intros rq.
  apply tidy_bind; [by apply tidy_get_message|]. intros rs.
  apply tidy_bind; [by apply tidy_tell|]. intros [].
  apply tidy_bind; [apply tidy_set_message|]. intros []. apply tidy_ret.
Qed.

(** [_CallEndpoint] invokes, logs and aborts; it touches neither the pipes
    nor the lock. *)
Lemma tidy_CallEndpoint (self : loc) (t : string) (req resp : loc)
    (ctx : Context) :
  tidy (λ ev, is_dispatch ev = true) (λ _, True)
    (_CallEndpoint self t req resp ctx).
Proof.
  unfold _CallEndpoint.
  apply tidy_bind; [by apply tidy_get_service|]. intros svc. cbv zeta.
  apply tidy_bind.
  { destruct (_impls svc !! t); [apply tidy_ret | apply tidy_abort]. }
  intros []. apply tidy_bind; [apply tidy_invoke|]. intros raised.
  apply tidy_bind; [|intros []; apply tidy_ret].
  destruct raised as [[e frames]|]; [|apply tidy_ret].
  repeat case_match; try (by apply tidy_raise);
    (apply tidy_bind; [by apply tidy_tell | intros []; apply tidy_abort]).
Qed.

(** [parse_request] emits nothing. *)
Lemma tidy_parse_request (line : string) :
  tidy (λ _, False) (λ _, True) (parse_request line).
Proof.
  unfold parse_request.
  apply tidy_bind; [by apply tidy_lift|]. intros msg.
  apply tidy_bind.
  { unfold py_in. destruct msg; try apply tidy_ret; by apply tidy_raise. }
  intros [|]; simpl; [|by apply tidy_raise].
  apply tidy_bind.
  { unfold getitem. destruct msg; try (by apply tidy_raise).
    case_match; [apply tidy_ret | by apply tidy_raise]. }
  intros key. apply tidy_bind.
  { unfold TYPES_getitem. destruct key; try (by apply tidy_raise).
    case_match; [apply tidy_ret | by apply tidy_raise]. }
  intros [[callType makeReq] makeResp].
  apply tidy_bind; [apply tidy_alloc_message|]. intros req.
  apply tidy_bind; [apply tidy_alloc_message|]. intros resp.
  apply tidy_bind.
  { unfold getitem. destruct msg; try (by apply tidy_raise).
    case_match; [apply tidy_ret | by apply tidy_raise]. }
  intros value. apply tidy_bind; [by apply tidy_get_message|]. intros rq.
  apply tidy_bind; [by apply tidy_lift|]. intros rq'.
  apply tidy_bind; [apply tidy_set_message|]. intros []. apply tidy_ret.
Qed.

(** The line is one that [parse_request] accepts. *)
Definition parses (line : string) : Prop :=
  ∃ σ a σ', parse_request line σ = (Ret a, σ').

Lemma parse_request_post (line : string) :
  post (parse_request line)
    (λ r t, t = [] ∧ ∀ a, r = Ret a → parses line).
Proof.
  intros σ. destruct (tidy_parse_request line σ) as (t & Ht & Hall & _).
  exists t. split; [done|]. split.
  - destruct t as [|ev t]; [done|]. by inversion Hall.
  - intros a Ha. exists σ, a, (parse_request line σ).2.
    rewrite <- Ha. by destruct (parse_request line σ).
Qed.

(** How the [try] statement ends: a line and a flush last, after
    dispatching and waiting, when it returns; no line otherwise. *)
Definition responded (r : Outcome unit) (t : list Event) : Prop :=
  match r with
  | Ret _ => ∃ mid data, t = mid ++ [EvWrite (data +:+ chr newline); EvFlush]
                         ∧ Forall (λ ev, is_quiet ev = true) mid
                         ∧ no_newline data
  | _ => Forall (λ ev, is_quiet ev = true) t
  end.

Lemma responded_prefix (r : Outcome unit) (t pre : list Event) :
  Forall (λ ev, is_quiet ev = true) pre → responded r t →
  responded r (pre ++ t).
Proof.
  intros Hpre. destruct r as [a|e|]; simpl.
  - intros (mid & data & -> & Hm & Hd). exists (pre ++ mid), data.
    split; [by rewrite app_assoc|]. split; [by apply Forall_app | done].
  - intros Ht. by apply Forall_app.
  - intros Ht. by apply Forall_app.
Qed.

Lemma responded_failed {A} (r0 : Outcome A) (r : Outcome unit)
    (t : list Event) :
  failed_as r0 r → Forall (λ ev, is_quiet ev = true) t →
  (∀ e, r0 = Raise e → True) → responded r t.
Proof. intros Hf Ht _. by destruct r0 as [a|e|], r as [b|e'|]. Qed.

Lemma wait_quiet (t : list Event) :
  Forall (λ ev, is_wait ev = true) t → Forall (λ ev, is_quiet ev = true) t.
Proof.
  intros Ht. eapply Forall_impl; [exact Ht|].
  intros ev Hev. unfold is_quiet. by rewrite Hev.
Qed.

Lemma dispatch_quiet (t : list Event) :
  Forall (λ ev, is_dispatch ev = true) t → Forall (λ ev, is_quiet ev = true) t.
Proof.
  intros Ht. eapply Forall_impl; [exact Ht|].
  intros ev Hev. unfold is_quiet. rewrite Hev. apply orb_true_r.
Qed.

Lemma send_dumps_responded (self : loc) (j : JSON) :
  post (send self (dumps j) 0) responded.
Proof.
  eapply post_mono; [apply send_post|]. intros [a|e|] t; simpl.
  - intros (pre & -> & Hpre). exists pre, (dumps j).
    split; [done|]. split; [by apply wait_quiet | apply dumps_no_newline].
  - intros [Ht _]. by apply wait_quiet.
  - apply wait_quiet.
Qed.

Lemma post_try_except {A} (body : Py A) (handler : PyExc → option (Py A))
    (Φ : Outcome A → list Event → Prop) :
  post body Φ →
  (∀ e h, handler e = Some h → post h Φ) →
  (∀ e r t1 t2, Φ (Raise e) t1 → Φ r t2 → Φ r (t1 ++ t2)) →
  post (try_except body handler) Φ.
Proof.
  intros Hb Hh Hcat σ. unfold try_except.
  destruct (Hb σ) as (t1 & Ht1 & H1).
  destruct (body σ) as [[a|e|] σ1]; simpl in *; [by exists t1| |by exists t1].
  destruct (handler e) as [h|] eqn:He; [|by exists t1].
  destruct (Hh e h He σ1) as (t2 & Ht2 & H2).
  exists (t1 ++ t2). split; [by rewrite Ht2, Ht1, app_assoc|]. by eapply Hcat.
Qed.

Lemma respond_post (self : loc) (t : string) (req resp : loc) :
  post (respond self t req resp) responded.
Proof.
  unfold respond. apply post_try_except.
  - eapply (post_after_tidy (λ ev, is_quiet ev = true) (λ _, True));
      [| |apply responded_prefix|apply responded_failed].
    { eapply post_mono; [apply tidy_CallEndpoint|]. simpl.
      intros r tr [Hd _]. split; [by apply dispatch_quiet | done]. }
    intros resp'.
    eapply (post_after_tidy (λ ev, is_quiet ev = true) (λ _, True));
      [by apply tidy_get_message| |apply responded_prefix|apply responded_failed].
    intros m. apply send_dumps_responded.
  - intros e h He. destruct e as [cls msg|code details]; [done|].
    injection He as <-.
    exact (send_dumps_responded self (abort_message code details)).
  - intros e r t1 t2 H1 H2. by apply responded_prefix.
Qed.

(** The events between taking the lock and releasing it, in one round:
    waiting, then at most one [readline]; after a line that parses,
    dispatching and waiting; and last, only in a round that returns, one
    written line and its flush. *)
Definition round_shape (r : Outcome unit) (tb : list Event) : Prop :=
  match r with
  | Ret _ =>
      ∃ pre line mid data,
        tb = pre ++ EvReadline line :: mid
             ++ [EvWrite (data +:+ chr newline); EvFlush]
        ∧ Forall (λ ev, is_wait ev = true) pre
        ∧ Forall (λ ev, is_quiet ev = true) mid
        ∧ no_newline data ∧ parses line
  | _ =>
      Forall (λ ev, is_wait ev = true) tb
      ∨ ∃ pre line mid,
          tb = pre ++ EvReadline line :: mid
          ∧ Forall (λ ev, is_wait ev = true) pre
          ∧ Forall (λ ev, is_quiet ev = true) mid
          ∧ (mid = [] ∨ parses line)
  end.

Lemma round_post (self : loc) :
  post (line ← receive self 0;
        '(callType, req, resp) ← parse_request line;
        respond self callType req resp) round_shape.
Proof.
  eapply post_mono.
  { eapply (post_bind _ _ received
              (λ line r t,
                 match r with
                 | Ret _ => responded r t ∧ parses line
                 | _ => responded r t ∧ (t = [] ∨ parses line)
                 end)); [apply receive_post|].
    intros line. eapply post_mono.
    { eapply (post_bind _ _ (λ r t, t = [] ∧ ∀ a, r = Ret a → parses line)
                (λ _, responded)); [apply parse_request_post|].
      intros [[callType req] resp]. apply respond_post. }
    simpl. intros r t [(a & t1 & t2 & -> & [-> Hp] & Hr) | (r0 & Hf & [-> _])].
    - simpl. destruct r; (split; [done|]); eauto.
    - destruct r0 as [a|e|], r as [b|e'|]; simpl in *; try done;
        (split; [constructor | by left]). }
  simpl. intros r t [(line & t1 & t2 & -> & (pre & -> & Hpre) & Hr)
                    | (r0 & Hf & Hrecv)].
  - destruct r as [a|e|]; simpl in *.
    + destruct Hr as [(mid & data & -> & Hmid & Hdata) Hp].
      exists pre, line, mid, data. split; [by rewrite <- app_assoc|]. done.
    + destruct Hr as [Hq Hp]. right. exists pre, line, t2.
      split; [by rewrite <- app_assoc|]. done.
    + destruct Hr as [Hq Hp]. right. exists pre, line, t2.
      split; [by rewrite <- app_assoc|]. done.
  - destruct r0 as [a|e|], r as [b|e'|]; simpl in *; try done; by left.
Qed.

Lemma post_with_lock {A} (self : loc) (body : Py A)
    (Φ : Outcome A → list Event → Prop) :
  post body Φ →
  post (with_lock self body)
    (λ r t, (t = [] ∧ ∀ a, r ≠ Ret a)
            ∨ ∃ tb, Φ r tb
                    ∧ t = EvAcquire self :: tb
                          ++ match r with Hang => [] | _ => [EvRelease self] end).
Proof.
  intros Hb σ. unfold with_lock, acquire, get_fifo, get_service.
  unfold mbind, Py_bind, attribute_error, raise, hang. simpl.
  destruct (services σ !! self) as [svc|]; simpl;
    [|exists []; rewrite app_nil_r; split; [done|]; by left].
  destruct (fifo svc) as [fi|]; simpl;
    [|exists []; rewrite app_nil_r; split; [done|]; by left].
  destruct (lock fi); simpl;
    [exists []; rewrite app_nil_r; split; [done|]; by left|].
  unfold try_finally.
  match goal with |- context [body ?st] =>
    destruct (Hb st) as (tb & Htb & Hr); destruct (body st) as [[a|e|] σ'] end;
    simpl in *.
  - exists (EvAcquire self :: tb ++ [EvRelease self]).
    split; [rewrite Htb; by rewrite <- !app_assoc|]. right. by exists tb.
  - exists (EvAcquire self :: tb ++ [EvRelease self]).
    split; [rewrite Htb; by rewrite <- !app_assoc|]. right. by exists tb.
  - exists (EvAcquire self :: tb ++ []).
    split; [rewrite Htb; by rewrite app_nil_r, <- !app_assoc|].
    right. by exists tb.
Qed.

(** Every round of [serveOnce], from any state. *)
Lemma serveOnce_post (self : loc) :
  post (serveOnce self)
    (λ r t, (t = [] ∧ ∀ a, r ≠ Ret a)
            ∨ ∃ tb, round_shape r tb
                    ∧ t = EvAcquire self :: tb
                          ++ match r with Hang => [] | _ => [EvRelease self] end).
Proof. unfold serveOnce. apply post_with_lock, round_post. Qed.

End RoundShape.

(** ** Rounds that fail, and the loop *)

Section FailingRounds.
Context `{Externals}.

#[local] Arguments assoc : simpl never.

Lemma parse_request_bad_json (line : string) (e : PyExc) (σ : State) :
  json_loads line = inl e → parse_request line σ = (Raise e, σ).
Proof. intros Hj. unfold parse_request. by rewrite Hj. Qed.

Lemma parse_request_no_type (line : string) (fields : list (string * JSON))
    (σ : State) :
  json_loads line = inr (JObject fields) → get fields "type" = None →
  parse_request line σ = (Raise (Exc ValueError "Message had no 'type' field"), σ).
Proof.
  intros Hj Hty. unfold parse_request. rewrite Hj.
  unfold lift, py_in, mbind, mret, Py_bind, Py_ret. simpl. rewrite Hty.
  rewrite bool_decide_eq_false_2; [done|]. by intros [? ?].
Qed.

Lemma parse_request_bad_code (line : string) (fields : list (string * JSON))
    (code : string) (σ : State) :
  json_loads line = inr (JObject fields) →
  get fields "type" = Some (JString code) → assoc TYPES code = None →
  parse_request line σ = (Raise (Exc KeyError (repr code)), σ).
Proof.
  intros Hj Hty Hcode. unfold parse_request. rewrite Hj.
  unfold lift, py_in, getitem, TYPES_getitem, mbind, mret, Py_bind, Py_ret.
  simpl. rewrite Hty. rewrite bool_decide_eq_true_2 by eauto. simpl.
  by rewrite Hcode.
Qed.

(** [m] changes nothing but the messages. *)
Definition only_messages {A} (m : Py A) : Prop :=
  ∀ σ, services (m σ).2 = services σ ∧ world (m σ).2 = world σ
       ∧ trace (m σ).2 = trace σ.

Lemma only_messages_bind {A B} (m : Py A) (k : A → Py B) :
  only_messages m → (∀ a, only_messages (k a)) → only_messages (m ≫= k).
Proof.
  intros Hm Hk σ. rewrite bind_run. specialize (Hm σ).
  destruct (m σ) as [[a|e|] σ1]; simpl in *; [|done|done].
  destruct (Hk a σ1) as (-> & -> & ->). done.
Qed.

Lemma only_messages_alloc (m : Message) : only_messages (alloc_message m).
Proof. by intros σ. Qed.

Lemma only_messages_set (l : loc) (m : Message) :
  only_messages (set_message l m).
Proof. by intros σ. Qed.

Lemma only_messages_still {A} (r : Outcome A) : only_messages (λ σ, (r, σ)).
Proof. by intros σ. Qed.

(** [parse_request] only makes new messages. *)
Lemma parse_request_frame (line : string) : only_messages (parse_request line).
Proof.
  unfold parse_request.
  apply only_messages_bind.
  { destruct (json_loads line); apply only_messages_still. }
  intros msg. apply only_messages_bind.
  { unfold py_in. destruct msg; apply only_messages_still. }
  intros [|]; simpl; [|apply only_messages_still].
  apply only_messages_bind.
  { unfold getitem. destruct msg; try apply only_messages_still.
    case_match; apply only_messages_still. }
  intros key. apply only_messages_bind.
  { unfold TYPES_getitem. destruct key; try apply only_messages_still.
    case_match; apply only_messages_still. }
  intros [[callType makeReq] makeResp].
  apply only_messages_bind; [apply only_messages_alloc|]. intros req.
  apply only_messages_bind; [apply only_messages_alloc|]. intros resp.
  apply only_messages_bind.
  { unfold getitem. destruct msg; try apply only_messages_still.
    case_match; apply only_messages_still. }
  intros value. apply only_messages_bind.
  { intros σ. unfold get_message. by destruct (messages σ !! req). }
  intros rq. apply only_messages_bind.
  { destruct (ParseDict value rq); apply only_messages_still. }
  intros rq'. apply only_messages_bind; [apply only_messages_set|].
  intros []. apply only_messages_still.
Qed.

(** A round in which the line read does not parse: the exception leaves
    [serveOnce], nothing is written, the lock is free again. *)
Lemma serveOnce_parse_fails (self : loc) (svc : Service) (fi : Fifo)
    (fr fs : File) (d : N) (line : string) (e : PyExc) (σ : State) :
  services σ !! self = Some svc → fifo svc = Some fi → lock fi = false →
  receiver fi = Some fr → f_closed fr = false → sender fi = Some fs →
  readable (world σ) (reads (world σ)) = Some (d, line) →
  (∀ σ1, (parse_request line σ1).1 = Raise e) →
  (serveOnce self σ).1 = Raise e
  ∧ services (serveOnce self σ).2 !! self
    = Some {| _impls := _impls svc; fifo := Some (unheld fi) |}
  ∧ world (serveOnce self σ).2 = next_read (tick d (world σ))
  ∧ trace (serveOnce self σ).2
    = trace σ ++ [EvAcquire self; EvSelect Inbound; EvReadline line;
                  EvRelease self].
Proof.
  intros Hs Hf Hl Hr Hropen Hw Hline Hbad.
  unfold serveOnce. rewrite (with_lock_run self svc fi _ σ) by done.
  set (svc' := {| _impls := _impls svc; fifo := Some (held fi) |}).
  set (σL := {| services := put_fifo self (held fi) (services σ);
                messages := messages σ; world := world σ;
                trace := trace σ ++ [EvAcquire self] |}).
  assert (services σL !! self = Some svc') as HsL by by apply put_fifo_lookup.
  rewrite bind_run.
  rewrite (receive_run self svc' (held fi) fr fs 0 σL) by done.
  cbv zeta. simpl (world σL). rewrite Hline. simpl. rewrite bind_run.
  match goal with |- context [parse_request line ?st] =>
    pose proof (Hbad st) as Hraise;
    destruct (parse_request_frame line st) as (Hsv & Hwo & Htr);
    destruct (parse_request line st) as [[a|e'|] σ1] end;
    simpl in *; try done.
  injection Hraise as ->. rewrite Htr, Hwo. split; [done|].
  split; [|split; [done | by rewrite <- !app_assoc]].
  rewrite lookup_alter_eq, Hsv. unfold put_fifo. by rewrite lookup_alter_eq, Hs.
Qed.

(** With the lock free, [close] returns and leaves both files closed. *)
Lemma close_run (self : loc) (svc : Service) (fi : Fifo) (σ : State) :
  services σ !! self = Some svc → fifo svc = Some fi → lock fi = false →
  (close self σ).1 = Ret tt
  ∧ ∃ fi', fifo_of self (close self σ).2 = Some fi' ∧ lock fi' = false
           ∧ (∀ f, receiver fi' = Some f → f_closed f = true)
           ∧ (∀ f, sender fi' = Some f → f_closed f = true)
           ∧ ∃ closes, trace (close self σ).2
                       = trace σ ++ EvAcquire self :: closes ++ [EvRelease self]
                       ∧ Forall (λ ev, ∃ p, ev = EvCloseFile p) closes.
Proof.
  intros Hs Hf Hl. unfold close.
  rewrite (with_lock_run self svc fi _ σ) by done.
  set (svc' := {| _impls := _impls svc; fifo := Some (held fi) |}).
  set (σL := {| services := put_fifo self (held fi) (services σ);
                messages := messages σ; world := world σ;
                trace := trace σ ++ [EvAcquire self] |}).
  assert (services σL !! self = Some svc') as HsL by by apply put_fifo_lookup.
  rewrite (bind_ret _ _ _ _ _ (get_fifo_run self svc' (held fi) σL HsL eq_refl)).
  unfold close_file, set_fifo, tell, modify_world, fifo_of, mbind, mret,
    Py_bind, Py_ret. simpl.
  destruct (receiver fi) as [[rc rb]|], (sender fi) as [[sc sb]|]; simpl;
    repeat (match goal with |- context [if ?b then _ else _] => destruct b end;
            simpl);
    (split; [done|]);
    rewrite ?lookup_alter_eq; unfold put_fifo; rewrite ?lookup_alter_eq, Hs;
    simpl; eexists; (split; [done|]); (split; [done|]);
    (split; [by intros f [= <-]|]); (split; [by intros f [= <-]|]);
    rewrite <- ?app_assoc; simpl;
    first [ by exists [] | by exists [EvCloseFile Inbound]; repeat econstructor
          | by exists [EvCloseFile Outbound]; repeat econstructor
          | by exists [EvCloseFile Inbound; EvCloseFile Outbound];
            repeat econstructor ].
Qed.

Lemma serve_loop_after (k n : nat) (self : loc) (σ σk : State) :
  after_rounds k self σ = Some σk →
  serve_loop (k + n) self σ = serve_loop n self σk.
Proof.
  revert σ. induction k as [|k IH]; intros σ; simpl.
  - by intros [= ->].
  - destruct (serveOnce self σ) as [[a|e|] σ']; [apply IH | done | done].
Qed.

(** When a round raises, [Run] ends with that exception, and
    [contextlib.closing] has closed the pipes. *)
Lemma Run_stops (k n : nat) (self : loc) (σ σk : State) (e : PyExc)
    (svc : Service) (fi : Fifo) :
  after_rounds k self σ = Some σk →
  (serveOnce self σk).1 = Raise e →
  services (serveOnce self σk).2 !! self = Some svc →
  fifo svc = Some fi → lock fi = false →
  Run (k + S n) self σ
  = Some (Raise e, (close self (serveOnce self σk).2).2).
Proof.
  intros Hk He Hs Hf Hl. unfold Run.
  rewrite (serve_loop_after k (S n) self σ σk Hk). simpl.
  destruct (serveOnce self σk) as [r σ'] eqn:Hround. simpl in *. subst r.
  destruct (close_run self svc fi σ' Hs Hf Hl) as [Hret _].
  by destruct (close self σ') as [[[]|e'|] σ''].
Qed.

End FailingRounds.

(** ** Serving and closing under the lock *)

Section Schedules.

(** What a thread does with the lock of [self]: nothing, or it takes the
    lock, does things that are no lock operations, and releases it (or is
    still holding it, when it blocks inside). *)
Definition critical (self : loc) (t : list Event) : Prop :=
  t = []
  ∨ ∃ tb, Forall (λ ev, is_lock_event ev = false) tb
          ∧ (t = EvAcquire self :: tb ++ [EvRelease self]
             ∨ t = EvAcquire self :: tb).

Lemma merges_nil_l (l g : list (Thread * Event)) : merges [] l g → g = l.
Proof.
  revert g. induction l as [|x l IH]; intros g Hm; inversion Hm; subst;
    [done|]. f_equal. by apply IH.
Qed.

Lemma merges_sym (l1 l2 g : list (Thread * Event)) :
  merges l1 l2 g → merges l2 l1 g.
Proof. induction 1; by constructor. Qed.

Lemma lock_respected_skip (self : loc) (holder : option Thread) (th : Thread)
    (ev : Event) (g : list (Thread * Event)) :
  is_lock_event ev = false →
  lock_respected self holder ((th, ev) :: g) → lock_respected self holder g.
Proof. by destruct ev. Qed.

(** While [a] holds the lock, the other thread cannot start its section. *)
Lemma holder_goes_first (self : loc) (a b : Thread) (body tail l2 : list Event)
    (g : list (Thread * Event)) :
  Forall (λ ev, is_lock_event ev = false) body →
  tail = [EvRelease self] ∨ tail = [] →
  critical self l2 →
  merges (tag a (body ++ tail)) (tag b l2) g →
  lock_respected self (Some a) g →
  g = tag a (body ++ tail) ++ tag b l2.
Proof.
  intros Hbody Htail Hcrit.
  assert (∀ x l2' g', l2 = x :: l2' →
                      ¬ lock_respected self (Some a) ((b, x) :: g')) as Hblocked.
  { intros x l2' g' -> Hl.
    destruct Hcrit as [|(tb & _ & [[= -> _] | [= -> _]])]; [done| |];
      simpl in Hl; (destruct (decide (self = self)) as [_|Hne];
                    [by destruct Hl as [[=] _] | done]). }
  revert g. induction Hbody as [|ev body Hev Hbody IH]; intros g Hm Hl; simpl in *.
  - destruct Htail as [-> | ->]; simpl in *; [|by apply merges_nil_l].
    destruct l2 as [|y l2']; simpl in *.
    + apply merges_sym, merges_nil_l in Hm. by subst.
    + inversion Hm; subst.
      * f_equal. by apply merges_nil_l.
      * exfalso. eapply Hblocked; [reflexivity | exact Hl].
  - destruct l2 as [|y l2']; simpl in *.
    + apply merges_sym, merges_nil_l in Hm. subst. by rewrite app_nil_r.
    + inversion Hm; subst.
      * f_equal. apply IH; [done|]. by eapply lock_respected_skip.
      * exfalso. eapply Hblocked; [reflexivity | exact Hl].
Qed.

Lemma critical_first (self : loc) (x : Event) (t : list Event) :
  critical self (x :: t) →
  x = EvAcquire self
  ∧ ∃ body tail, t = body ++ tail
                 ∧ Forall (λ ev, is_lock_event ev = false) body
                 ∧ (tail = [EvRelease self] ∨ tail = []).
Proof.
  intros [|(tb & Htb & [[= -> ->] | [= -> ->]])]; [done| |]; split; try done.
  - exists tb, [EvRelease self]. eauto.
  - exists tb, []. rewrite app_nil_r. eauto.
Qed.

(** Two threads that each run one section under the lock of [self]: in
    every schedule that respects the lock, one section is over before the
    other begins. *)
Lemma schedule_serial (self : loc) (a b : Thread) (t1 t2 : list Event)
    (g : list (Thread * Event)) :
  critical self t1 → critical self t2 →
  merges (tag a t1) (tag b t2) g →
  lock_respected self None g →
  g = tag a t1 ++ tag b t2 ∨ g = tag b t2 ++ tag a t1.
Proof.
  intros H1 H2 Hm Hl.
  destruct t1 as [|x1 t1].
  { right. rewrite app_nil_r. by apply merges_nil_l. }
  destruct t2 as [|x2 t2].
  { left. rewrite app_nil_r. by apply merges_nil_l, merges_sym. }
  destruct (critical_first self x1 t1 H1) as (-> & body1 & tail1 & -> & Hb1 & Ht1).
  destruct (critical_first self x2 t2 H2) as (-> & body2 & tail2 & -> & Hb2 & Ht2).
  simpl in Hm.
  inversion Hm as [|x l1 l2' g' Hm'|x l1 l2' g' Hm']; subst; simpl in Hl;
    destruct (decide (self = self)) as [_|]; try done; destruct Hl as [_ Hl].
  - left. simpl. f_equal.
    by apply (holder_goes_first self a b body1 tail1
                (EvAcquire self :: body2 ++ tail2)).
  - right. simpl. f_equal.
    apply (holder_goes_first self b a body2 tail2
             (EvAcquire self :: body1 ++ tail1));
      [done | done | done | by apply merges_sym | done].
Qed.

End Schedules.

(** ** The protocol guarantees *)

Section Protocol.
Context `{Externals}.



Lemma emitted_app (σ σ' : State) (t : list Event) :
  trace σ' = trace σ ++ t → emitted σ σ' = t.
Proof. intros Ht. unfold emitted. rewrite Ht. apply drop_app_length. Qed.

Lemma wait_only (p : Event → bool) (t : list Event) :
  (∀ ev, is_wait ev = true → p ev = false) →
  Forall (λ ev, is_wait ev = true) t → Forall (λ ev, p ev = false) t.
Proof. intros Hp Ht. eapply Forall_impl; [exact Ht|]. done. Qed.

Lemma quiet_only (p : Event → bool) (t : list Event) :
  (∀ ev, is_quiet ev = true → p ev = false) →
  Forall (λ ev, is_quiet ev = true) t → Forall (λ ev, p ev = false) t.
Proof. intros Hp Ht. eapply Forall_impl; [exact Ht|]. done. Qed.

Lemma wait_no_lock ev : is_wait ev = true → is_lock_event ev = false.
Proof. by destruct ev. Qed.
Lemma quiet_no_lock ev : is_quiet ev = true → is_lock_event ev = false.
Proof. by destruct ev. Qed.

(** Between taking and releasing the lock a round does no lock operation. *)
Lemma round_shape_no_lock (r : Outcome unit) (tb : list Event) :
  round_shape r tb → Forall (λ ev, is_lock_event ev = false) tb.
Proof.
  destruct r as [a|e|]; simpl.
  - intros (pre & line & mid & data & -> & Hpre & Hmid & _).
    apply Forall_app. split; [by apply wait_only, Hpre; apply wait_no_lock|].
    constructor; [done|]. apply Forall_app.
    split; [by apply quiet_only, Hmid; apply quiet_no_lock|].
    by repeat constructor.
  - intros [Ht | (pre & line & mid & -> & Hpre & Hmid & _)].
    + by apply wait_only, Ht; apply wait_no_lock.
    + apply Forall_app. split; [by apply wait_only, Hpre; apply wait_no_lock|].
      constructor; [done|]. by apply quiet_only, Hmid; apply quiet_no_lock.
  - intros [Ht | (pre & line & mid & -> & Hpre & Hmid & _)].
    + by apply wait_only, Ht; apply wait_no_lock.
    + apply Forall_app. split; [by apply wait_only, Hpre; apply wait_no_lock|].
      constructor; [done|]. by apply quiet_only, Hmid; apply quiet_no_lock.
Qed.



(** [close] under the lock: only the two [close()] calls in between. *)
Lemma close_post (self : loc) :
  post (close self)
    (λ r t, (t = [] ∧ ∀ a, r ≠ Ret a)
            ∨ ∃ tb, Forall (λ ev, ∃ p, ev = EvCloseFile p) tb
                    ∧ t = EvAcquire self :: tb
                          ++ match r with Hang => [] | _ => [EvRelease self] end).
Proof.
  unfold close.
  eapply post_mono;
    [apply (post_with_lock self _
              (λ r t, Forall (λ ev, ∃ p, ev = EvCloseFile p) t ∧
                      ∀ e, r = Raise e → True))|].
  - assert (∀ p f, tidy (λ ev, ∃ p, ev = EvCloseFile p) (λ _, True)
                     (close_file p f)) as Hclose.
    { intros p f. unfold close_file. destruct (f_closed f); [apply tidy_ret|].
      apply tidy_bind; [apply tidy_tell; by exists p|]. intros [].
      apply tidy_bind; [apply tidy_modify_world|]. intros []. apply tidy_ret. }
    apply tidy_bind; [by apply tidy_get_fifo|]. intros fi.
    apply tidy_bind.
    { destruct (receiver fi); [|apply tidy_ret].
      apply tidy_bind; [apply Hclose|]. intros f'. apply tidy_ret. }
    intros r. apply tidy_bind.
    { destruct (sender fi); [|apply tidy_ret].
      apply tidy_bind; [apply Hclose|]. intros f'. apply tidy_ret. }
    intros s. apply tidy_set_fifo.
  - simpl. intros r t [Hnone | (tb & [Htb _] & ->)]; [by left|].
    right. by exists tb.
Qed.

Lemma critical_of_section (self : loc) {A} (r : Outcome A) (t tb : list Event) :
  Forall (λ ev, is_lock_event ev = false) tb →
  t = EvAcquire self :: tb ++ match r with Hang => [] | _ => [EvRelease self] end →
  critical self t.
Proof.
  intros Htb ->. right. exists tb. split; [done|].
  destruct r; [by left | by left | right; by rewrite app_nil_r].
Qed.

End Protocol.

(** ** Rounds on a well-formed request *)

Section Replies.
Context `{Externals}.

Variables (impls : gmap string Handler) (t : string) (req resp : loc).
Variables (rq rs : Message).



Lemma reply_raises (h : Handler) (e : PyExc) (frames : string) :
  impls !! t = Some h → (h rq rs).2 = Some (e, frames) →
  reply impls t req resp rq rs
  = match abort_for t e (call_frame +:+ frames) with
    | Some (log, c, details) =>
        ([EvInvoke t req resp; log; EvAbort c details], (h rq rs).1,
         inl (abort_message c details))
    | None => ([EvInvoke t req resp], (h rq rs).1, inr e)
    end.
Proof.
  intros Hi Hh. unfold Handler in Hi. unfold reply, Handler. by rewrite Hi, Hh.
Qed.

End Replies.

Section AnsweredRounds.
Context `{Externals}.

#[local] Arguments assoc : simpl never.
#[local] Arguments dumps : simpl never.

Variables (self : loc) (svc : Service) (fi : Fifo) (fr fs : File).
Variables (d : N) (line : string) (fields : list (string * JSON)).
Variables (code t : string) (rqc rsc : MsgClass) (v : JSON) (rq : Message).
Variable σ : State.

Hypothesis Hsvc : services σ !! self = Some svc.
Hypothesis Hfifo : fifo svc = Some fi.
Hypothesis Hfree : lock fi = false.
Hypothesis Hreceiver : receiver fi = Some fr.
Hypothesis Hreceiver_open : f_closed fr = false.
Hypothesis Hsender : sender fi = Some fs.
Hypothesis Hsender_open : f_closed fs = false.
Hypothesis Hline : readable (world σ) (reads (world σ)) = Some (d, line).
Hypothesis Hjson : json_loads line = inr (JObject fields).
Hypothesis Htype : get fields "type" = Some (JString code).
Hypothesis Hcode : assoc TYPES code = Some (t, rqc, rsc).
Hypothesis Hvalue : get fields "value" = Some v.
Hypothesis Hparse : ParseDict v (new_message rqc) = inr rq.







(** X5.  A handler that ends with [SystemExit] or [KeyboardInterrupt]
    (anything that is no [Exception]): no clause catches it, so it leaves
    [serveOnce]; the request line is used up, nothing is written for it, and
    the [with] statement has released the lock. *)
Theorem serveOnce_exit_signal (h : Handler) (e : PyExc) (frames : string) :
  _impls svc !! t = Some h →
  (h rq (new_message rsc)).2 = Some (e, frames) →
  isinstance e Exception = false →
  let req := fresh (dom (messages σ)) in
  let resp := fresh (dom (<[req := new_message rqc]> (messages σ))) in
  let σ' := (serveOnce self σ).2 in
  (serveOnce self σ).1 = Raise e
  ∧ emitted σ σ'
    = [EvAcquire self; EvSelect Inbound; EvReadline line;
       EvInvoke t req resp; EvRelease self]
  ∧ out_pipe (world σ') = out_pipe (world σ)
  ∧ reads (world σ') = S (reads (world σ))
  ∧ fifo_of self σ' = Some (unheld fi).
Proof.
  intros Himpl Hh He req resp σ'.
  destruct (serveOnce_run self svc fi fr fs d line fields code t rqc rsc v rq σ
              Hsvc Hfifo Hfree Hreceiver Hreceiver_open Hsender Hsender_open
              Hline Hjson Htype Hcode Hvalue Hparse) as [_ Hrest].
  fold req resp in Hrest.
  assert (reply (_impls svc) t req resp rq (new_message rsc)
          = ([EvInvoke t req resp], (h rq (new_message rsc)).1, inr e)) as Hreply.
  { rewrite (reply_raises _ _ _ _ _ _ h e frames Himpl Hh).
    unfold abort_for. rewrite He.
    by rewrite (not_Exception_not_caught e ValueError),
      (not_Exception_not_caught e NotImplementedError). }
  rewrite Hreply in Hrest. cbn [fst snd] in Hrest.
  destruct Hrest as (Hout & Htr & Hw & Hs). subst σ'.
  split; [exact Hout|].
  split; [apply emitted_app; rewrite Htr, <- !app_assoc; reflexivity|].
  unfold fifo_of. rewrite Hw, Hs. by repeat split.
Qed.

End AnsweredRounds.

(** ** Lines that are refused *)

Section RefusedRounds.
Context `{Externals}.

#[local] Arguments assoc : simpl never.

(** A JSON text that is no object: [in] and the subscript fail. *)
Lemma parse_request_not_object (line : string) (msg : JSON) :
  json_loads line = inr msg → (∀ fields, msg ≠ JObject fields) →
  ∃ cls text, (cls = ValueError ∨ cls = TypeError)
              ∧ ∀ σ, parse_request line σ = (Raise (Exc cls text), σ).
Proof.
  intros Hj Hno. unfold parse_request. rewrite Hj.
  unfold lift, py_in, getitem, raise, mbind, mret, Py_bind, Py_ret.
  destruct msg as [| b | z | f | s | items | fields]; simpl;
    try (by do 2 eexists; split; [right|]).
  - destruct (containsb s "type"); simpl;
      do 2 eexists; (split; [|done]); [by right | by left].
  - destruct (existsb _ items); simpl;
      do 2 eexists; (split; [|done]); [by right | by left].
  - by destruct (Hno fields).
Qed.

(** A ["type"] that is no text is no key of [TYPES]. *)
Lemma parse_request_bad_key (line : string) (fields : list (string * JSON))
    (key : JSON) :
  json_loads line = inr (JObject fields) →
  get fields "type" = Some key → (∀ code, key ≠ JString code) →
  ∃ cls text, (cls = KeyError ∨ cls = TypeError)
              ∧ ∀ σ, parse_request line σ = (Raise (Exc cls text), σ).
Proof.
  intros Hj Hty Hno. unfold parse_request. rewrite Hj.
  unfold lift, py_in, getitem, TYPES_getitem, raise, mbind, mret, Py_bind,
    Py_ret. simpl. rewrite Hty. rewrite bool_decide_eq_true_2 by eauto.
  destruct key as [| b | z | f | s | items | fs]; simpl;
    try (by do 2 eexists; split; [left|]);
    try (by do 2 eexists; split; [right|]).
  by destruct (Hno s).
Qed.

Lemma parse_request_no_value (line : string) (fields : list (string * JSON))
    (code t : string) (rqc rsc : MsgClass) (σ : State) :
  json_loads line = inr (JObject fields) →
  get fields "type" = Some (JString code) →
  assoc TYPES code = Some (t, rqc, rsc) →
  get fields "value" = None →
  (parse_request line σ).1 = Raise (Exc KeyError (repr "value")).
Proof.
  intros Hj Hty Hcode Hv. unfold parse_request. rewrite Hj.
  unfold lift, py_in, getitem, TYPES_getitem, alloc_message, raise, mbind,
    mret, Py_bind, Py_ret. simpl.
  rewrite Hty. rewrite bool_decide_eq_true_2 by eauto. simpl.
  rewrite Hcode. simpl. by rewrite Hv.
Qed.

Lemma parse_request_bad_value (line : string) (fields : list (string * JSON))
    (code t : string) (rqc rsc : MsgClass) (v : JSON) (e : PyExc) (σ : State) :
  json_loads line = inr (JObject fields) →
  get fields "type" = Some (JString code) →
  assoc TYPES code = Some (t, rqc, rsc) →
  get fields "value" = Some v →
  ParseDict v (new_message rqc) = inl e →
  (parse_request line σ).1 = Raise e.
Proof.
  intros Hj Hty Hcode Hv Hp.
  assert (fresh (dom (messages σ))
          ≠ fresh (dom (<[fresh (dom (messages σ)) := new_message rqc]>
                          (messages σ)))) as Hne.
  { intros Heq.
    apply (is_fresh (dom (<[fresh (dom (messages σ)) := new_message rqc]>
                            (messages σ)))).
    rewrite <- Heq, dom_insert. apply elem_of_union. left.
    by apply elem_of_singleton. }
  unfold parse_request. rewrite Hj.
  unfold lift, py_in, getitem, TYPES_getitem, alloc_message, get_message,
    set_message, raise, mbind, mret, Py_bind, Py_ret. simpl.
  rewrite Hty. rewrite bool_decide_eq_true_2 by eauto. simpl.
  rewrite Hcode. simpl. rewrite Hv. simpl.
  rewrite lookup_insert_ne by done. rewrite lookup_insert_eq.
  by rewrite Hp.
Qed.

(** X6.  A request line that [serveOnce] cannot use is answered with
    nothing: the exception leaves [serveOnce] (and so ends [Run]), no
    handler is invoked and no line is written, the line is used up and the
    lock is free again.  This is what happens to a line that is no JSON, to
    JSON that is no object, to an object without ["type"], with a ["type"]
    that is no key of [TYPES], without ["value"], or with a ["value"] that
    [ParseDict] refuses. *)
Theorem serveOnce_protocol_error (self : loc) (svc : Service) (fi : Fifo)
    (fr fs : File) (d : N) (line : string) (σ : State) :
  services σ !! self = Some svc → fifo svc = Some fi → lock fi = false →
  receiver fi = Some fr → f_closed fr = false → sender fi = Some fs →
  readable (world σ) (reads (world σ)) = Some (d, line) →
  let σ' := (serveOnce self σ).2 in
  let refused (e : PyExc) :=
    (serveOnce self σ).1 = Raise e
    ∧ emitted σ σ'
      = [EvAcquire self; EvSelect Inbound; EvReadline line; EvRelease self]
    ∧ out_pipe (world σ') = out_pipe (world σ)
    ∧ reads (world σ') = S (reads (world σ))
    ∧ fifo_of self σ' = Some (unheld fi) in
  (∀ e, json_loads line = inl e → refused e)
  ∧ (∀ msg, json_loads line = inr msg → (∀ fields, msg ≠ JObject fields) →
       ∃ cls text, (cls = ValueError ∨ cls = TypeError)
                   ∧ refused (Exc cls text))
  ∧ (∀ fields, json_loads line = inr (JObject fields) →
       (get fields "type" = None →
        refused (Exc ValueError "Message had no 'type' field"))
       ∧ (∀ key, get fields "type" = Some key → (∀ code, key ≠ JString code) →
            ∃ cls text, (cls = KeyError ∨ cls = TypeError)
                        ∧ refused (Exc cls text))
       ∧ (∀ code, get fields "type" = Some (JString code) →
            assoc TYPES code = None → refused (Exc KeyError (repr code)))
       ∧ (∀ code t rqc rsc,
            get fields "type" = Some (JString code) →
            assoc TYPES code = Some (t, rqc, rsc) →
            (get fields "value" = None → refused (Exc KeyError (repr "value")))
            ∧ (∀ v e, get fields "value" = Some v →
                      ParseDict v (new_message rqc) = inl e → refused e))).
Proof.
  intros Hs Hf Hl Hr Hropen Hw Hline σ' refused.
  assert (∀ e, (∀ σ1, (parse_request line σ1).1 = Raise e) → refused e) as Href.
  { intros e Hbad.
    destruct (serveOnce_parse_fails self svc fi fr fs d line e σ
                Hs Hf Hl Hr Hropen Hw Hline Hbad) as (Hout & Hsv & Hwo & Htr).
    subst refused σ'. cbv beta. split; [exact Hout|].
    split; [by apply emitted_app|].
    unfold fifo_of. rewrite Hwo, Hsv. by repeat split. }
  split.
  { intros e Hj. apply Href. intros σ1.
    by rewrite (parse_request_bad_json line e σ1 Hj). }
  split.
  { intros msg Hj Hno.
    destruct (parse_request_not_object line msg Hj Hno) as (cls & text & Hc & Hp).
    exists cls, text. split; [exact Hc|]. apply Href. intros σ1.
    by rewrite Hp. }
  intros fields Hj. split.
  { intros Hty. apply Href. intros σ1.
    by rewrite (parse_request_no_type line fields σ1 Hj Hty). }
  split.
  { intros key Hty Hno.
    destruct (parse_request_bad_key line fields key Hj Hty Hno)
      as (cls & text & Hc & Hp).
    exists cls, text. split; [exact Hc|]. apply Href. intros σ1.
    by rewrite Hp. }
  split.
  { intros code Hty Hcode. apply Href. intros σ1.
    by rewrite (parse_request_bad_code line fields code σ1 Hj Hty Hcode). }
  intros code t rqc rsc Hty Hcode. split.
  { intros Hv. apply Href. intros σ1.
    exact (parse_request_no_value line fields code t rqc rsc σ1 Hj Hty Hcode Hv). }
  intros v e Hv Hp. apply Href. intros σ1.
  exact (parse_request_bad_value line fields code t rqc rsc v e σ1
           Hj Hty Hcode Hv Hp).
Qed.

(** X7.  While [serveOnce] waits for a request that never comes it holds
    the lock: the call does not come back, [Run] does not either, and a
    [close] from another thread blocks on the lock without closing
    anything. *)
Theorem blocked_round_keeps_lock (self : loc) (svc : Service) (fi : Fifo)
    (fr fs : File) (n : nat) (σ : State) :
  services σ !! self = Some svc → fifo svc = Some fi → lock fi = false →
  receiver fi = Some fr → f_closed fr = false → sender fi = Some fs →
  readable (world σ) (reads (world σ)) = None →
  let σ' := (serveOnce self σ).2 in
  (serveOnce self σ).1 = Hang
  ∧ emitted σ σ' = [EvAcquire self; EvSelect Inbound]
  ∧ fifo_of self σ' = Some (held fi)
  ∧ close self σ' = (Hang, σ')
  ∧ Run (S n) self σ = Some (Hang, σ').
Proof.
  intros Hs Hf Hl Hr Hropen Hw Hline σ'.
  pose proof (put_fifo_lookup self (held fi) (services σ) svc Hs) as HsL.
  set (σL := {| services := put_fifo self (held fi) (services σ);
                messages := messages σ; world := world σ;
                trace := trace σ ++ [EvAcquire self] |}) in *.
  set (σh := {| services := put_fifo self (held fi) (services σ);
                messages := messages σ; world := world σ;
                trace := (trace σ ++ [EvAcquire self]) ++ [EvSelect Inbound] |}).
  assert (receive self 0 σL = (Hang, σh)) as Hrecv.
  { rewrite (receive_run self _ (held fi) fr fs 0 σL HsL eq_refl Hr Hw Hropen
               (Z.le_refl 0)).
    cbv zeta. change (world σL) with (world σ). by rewrite Hline. }
  assert (serveOnce self σ = (Hang, σh)) as Hround.
  { unfold serveOnce.
    rewrite (with_lock_ends self svc fi _ σ σh Hang Hs Hf Hl); [reflexivity|].
    by apply bind_hang. }
  subst σ'. rewrite Hround. cbn [fst snd].
  split; [reflexivity|].
  split; [apply emitted_app; unfold σh; cbn [trace]; by rewrite <- app_assoc|].
  split; [unfold fifo_of, σh; cbn [services]; by rewrite HsL|].
  assert (close self σh = (Hang, σh)) as Hclose.
  { unfold close, with_lock. apply bind_hang.
    by apply (acquire_blocks self _ (held fi) σh HsL). }
  split; [exact Hclose|].
  unfold Run. cbn [serve_loop]. by rewrite Hround.
Qed.

(** X8.  When a round raises after [k] rounds that returned, [Run] ends
    with that exception once [contextlib.closing] has called [close]: both
    pipes are closed and the lock is free.  [Run] never swallows the
    exception and never starts another round. *)
Theorem Run_ends_closed (k n : nat) (self : loc) (σ σk : State) (e : PyExc)
    (svc : Service) (fi : Fifo) :
  after_rounds k self σ = Some σk →
  (serveOnce self σk).1 = Raise e →
  services (serveOnce self σk).2 !! self = Some svc →
  fifo svc = Some fi → lock fi = false →
  ∃ σ' fi' closes,
    Run (k + S n) self σ = Some (Raise e, σ')
    ∧ fifo_of self σ' = Some fi' ∧ lock fi' = false
    ∧ (∀ f, receiver fi' = Some f → f_closed f = true)
    ∧ (∀ f, sender fi' = Some f → f_closed f = true)
    ∧ trace σ' = trace (serveOnce self σk).2
                 ++ EvAcquire self :: closes ++ [EvRelease self]
    ∧ Forall (λ ev, ∃ p, ev = EvCloseFile p) closes.
Proof.
  intros Hk He Hs Hf Hl.
  destruct (close_run self svc fi _ Hs Hf Hl)
    as (_ & fi' & Hfi & Hlock & Hrc & Hsc & closes & Htr & Hcl).
  exists (close self (serveOnce self σk).2).2, fi', closes.
  split; [exact (Run_stops k n self σ σk e svc fi Hk He Hs Hf Hl)|].
  by repeat split.
Qed.

End RefusedRounds.

(** ** What every round looks like *)

Section EveryRound.
Context `{Externals}.


(** X10.  [serveOnce] and [close] take the same lock, so in every schedule
    of a serving thread and a closing thread that respects the lock the
    two calls do not overlap: all the events of one come before all the
    events of the other, whatever the states the calls start from. *)
Theorem serve_close_serial (self : loc) (σ1 σ2 : State)
    (g : list (Thread * Event)) :
  let serving := emitted σ1 (serveOnce self σ1).2 in
  let closing := emitted σ2 (close self σ2).2 in
  merges (tag Serving serving) (tag Closing closing) g →
  lock_respected self None g →
  g = tag Serving serving ++ tag Closing closing
  ∨ g = tag Closing closing ++ tag Serving serving.
Proof.
  intros serving closing Hm Hl.
  apply (schedule_serial self Serving Closing serving closing g); [| |done|done].
  - subst serving. destruct (serveOnce_post self σ1) as (t & Htr & Hshape).
    rewrite (emitted_app _ _ _ Htr).
    destruct Hshape as [[-> _] | (tb & Hround & ->)]; [by left|].
    eapply critical_of_section; [|reflexivity].
    by apply (round_shape_no_lock (serveOnce self σ1).1).
  - subst closing. destruct (close_post self σ2) as (t & Htr & Hshape).
    rewrite (emitted_app _ _ _ Htr).
    destruct Hshape as [[-> _] | (tb & Hcl & ->)]; [by left|].
    eapply critical_of_section; [|reflexivity].
    eapply Forall_impl; [exact Hcl|]. by intros ev [p ->].
Qed.

End EveryRound.

(** ** Opening and closing the pipes *)

Section PipeLifeCycle.
Context `{Externals}.

Lemma set_fifo_lookup (self : loc) (svc : Service) (fi : Fifo) (σ : State) :
  services σ !! self = Some svc →
  services (set_fifo self fi σ).2 !! self
  = Some {| _impls := _impls svc; fifo := Some fi |}.
Proof. intros Hs. simpl. by rewrite lookup_alter_eq, Hs. Qed.

(** X11.  The pipes are opened on first use, the inbound one first.  When
    both [os.open] calls return, both files are there afterwards and a
    second call does nothing.  When the inbound [os.open] blocks or fails
    nothing has been opened; when the outbound one blocks the inbound file
    stays open. *)
Theorem ensureOpen_opens_in_order (self : loc) (svc : Service) (fi : Fifo)
    (pin pout : string) (σ : State) :
  services σ !! self = Some svc → fifo svc = Some fi →
  receiver fi = None → sender fi = None →
  infile fi = Some pin → outfile fi = Some pout →
  let σ' := (_ensureOpen self σ).2 in
  (os_open (world σ) pin Inbound = Opened →
   os_open (world σ) pout Outbound = Opened →
   (_ensureOpen self σ).1 = Ret tt
   ∧ emitted σ σ' = [EvOpen Inbound; EvOpen Outbound]
   ∧ fifo_of self σ'
     = Some {| lock := lock fi; infile := Some pin; outfile := Some pout;
               receiver := Some new_file; sender := Some new_file |}
   ∧ _ensureOpen self σ' = (Ret tt, σ'))
  ∧ (os_open (world σ) pin Inbound = OpenBlocks →
     _ensureOpen self σ = (Hang, σ))
  ∧ (∀ cls msg, os_open (world σ) pin Inbound = OpenFails cls msg →
       _ensureOpen self σ = (Raise (Exc cls msg), σ))
  ∧ (os_open (world σ) pin Inbound = Opened →
     os_open (world σ) pout Outbound = OpenBlocks →
     (_ensureOpen self σ).1 = Hang
     ∧ emitted σ σ' = [EvOpen Inbound]
     ∧ fifo_of self σ'
       = Some {| lock := lock fi; infile := Some pin; outfile := Some pout;
                 receiver := Some new_file; sender := None |}).
Proof.
  intros Hs Hf Hr Hw Hin Hout σ'. subst σ'.
  set (fi1 := {| lock := lock fi; infile := infile fi; outfile := outfile fi;
                 receiver := Some new_file; sender := sender fi |}).
  set (σ1 := (set_fifo self fi1 (emit (EvOpen Inbound) σ)).2).
  assert (services σ1 !! self = Some {| _impls := _impls svc; fifo := Some fi1 |})
    as Hs1 by (by apply set_fifo_lookup).
  (* the first [if] of [_ensureOpen] *)
  assert (∀ r σr,
            open_pipe (Some pin) Inbound σ = (r, σr) →
            _ensureOpen self σ
            = match r with
              | Ret f => (get_fifo self ≫= λ fi',
                            match sender fi' with
                            | None =>
                                s ← open_pipe (outfile fi') Outbound;
                                set_fifo self
                                  {| lock := lock fi'; infile := infile fi';
                                     outfile := outfile fi';
                                     receiver := receiver fi'; sender := Some s |}
                            | Some _ => mret tt
                            end)
                           (set_fifo self
                              {| lock := lock fi; infile := infile fi;
                                 outfile := outfile fi; receiver := Some f;
                                 sender := sender fi |} σr).2
              | Raise e => (Raise e, σr)
              | Hang => (Hang, σr)
              end) as Hfirst.
  { intros r σr Hopen. unfold _ensureOpen.
    rewrite (bind_ret _ _ _ _ _ (get_fifo_run self svc fi σ Hs Hf)).
    rewrite Hr, Hin. rewrite !bind_run, Hopen. by destruct r. }
  (* the second one, after the first has opened the inbound pipe *)
  assert (∀ r σr,
            open_pipe (Some pout) Outbound σ1 = (r, σr) →
            (get_fifo self ≫= λ fi',
               match sender fi' with
               | None =>
                   s ← open_pipe (outfile fi') Outbound;
                   set_fifo self
                     {| lock := lock fi'; infile := infile fi';
                        outfile := outfile fi';
                        receiver := receiver fi'; sender := Some s |}
               | Some _ => mret tt
               end) σ1
            = match r with
              | Ret f => set_fifo self
                           {| lock := lock fi; infile := infile fi;
                              outfile := outfile fi; receiver := Some new_file;
                              sender := Some f |} σr
              | Raise e => (Raise e, σr)
              | Hang => (Hang, σr)
              end) as Hsecond.
  { intros r σr Hopen.
    rewrite (bind_ret _ _ _ _ _ (get_fifo_run self _ fi1 σ1 Hs1 eq_refl)).
    change (sender fi1) with (sender fi). rewrite Hw.
    change (outfile fi1) with (outfile fi). rewrite Hout.
    rewrite bind_run, Hopen. by destruct r. }
  split.
  { intros Hopen_in Hopen_out.
    rewrite (Hfirst (Ret new_file) (emit (EvOpen Inbound) σ))
      by (unfold open_pipe; by rewrite Hopen_in).
    fold fi1. fold σ1.
    rewrite (Hsecond (Ret new_file) (emit (EvOpen Outbound) σ1))
      by (unfold open_pipe; change (world σ1) with (world σ);
        by rewrite Hopen_out).
    set (fi2 := {| lock := lock fi; infile := infile fi; outfile := outfile fi;
                   receiver := Some new_file; sender := Some new_file |}).
    assert (services (set_fifo self fi2 (emit (EvOpen Outbound) σ1)).2 !! self
            = Some {| _impls := _impls svc; fifo := Some fi2 |}) as Hs2.
    { cbn [set_fifo snd set_services services emit].
      by rewrite lookup_alter_eq, Hs1. }
    split; [done|].
    split; [apply emitted_app; cbn; by rewrite <- app_assoc|].
    split; [unfold fifo_of; rewrite Hs2; cbn; unfold fi2; by rewrite Hin, Hout|].
    by apply (ensureOpen_open self _ fi2 new_file new_file _ Hs2). }
  split.
  { intros Hopen_in. apply (Hfirst Hang σ). unfold open_pipe.
    by rewrite Hopen_in. }
  split.
  { intros cls msg Hopen_in. apply (Hfirst (Raise (Exc cls msg)) σ).
    unfold open_pipe. by rewrite Hopen_in. }
  intros Hopen_in Hopen_out.
  rewrite (Hfirst (Ret new_file) (emit (EvOpen Inbound) σ))
    by (unfold open_pipe; by rewrite Hopen_in).
  fold fi1. fold σ1.
  rewrite (Hsecond Hang σ1) by (unfold open_pipe; change (world σ1) with (world σ);
        by rewrite Hopen_out).
  split; [done|].
  split; [by apply emitted_app|].
  unfold fifo_of. cbn [snd]. rewrite Hs1. cbn. unfold fi1.
  by rewrite Hin, Hout, Hw.
Qed.


(** X12.  The constructor makes a new service object with an empty
    registry, a free lock and no pipe opened.  A path given as argument
    wins unless it is empty; otherwise the path comes from the environment
    variable.  Nothing is opened or checked: with no path at all the
    constructor still returns, and it is the first [receive] or [send] that
    raises a [TypeError]. *)
Theorem AnalyticServiceFIFO_init (infile_arg outfile_arg : option string)
    (σ : State) :
  let self := fresh (dom (services σ)) in
  let σ' := (AnalyticServiceFIFO infile_arg outfile_arg σ).2 in
  (AnalyticServiceFIFO infile_arg outfile_arg σ).1 = Ret self
  ∧ services σ !! self = None
  ∧ (∀ l, l ≠ self → services σ' !! l = services σ !! l)
  ∧ impls_of self σ' = Some ∅
  ∧ messages σ' = messages σ ∧ world σ' = world σ ∧ emitted σ σ' = []
  ∧ ∃ fi,
      fifo_of self σ' = Some fi
      ∧ lock fi = false ∧ receiver fi = None ∧ sender fi = None
      ∧ (∀ p, infile_arg = Some p → p ≠ "" → infile fi = Some p)
      ∧ (infile_arg = None ∨ infile_arg = Some "" →
         infile fi = environ (world σ) "ANALYTIC_FIFO_IN")
      ∧ (∀ p, outfile_arg = Some p → p ≠ "" → outfile fi = Some p)
      ∧ (outfile_arg = None ∨ outfile_arg = Some "" →
         outfile fi = environ (world σ) "ANALYTIC_FIFO_OUT")
      ∧ (infile fi = None →
         ∀ data timeout, ∃ msg,
           receive self timeout σ' = (Raise (Exc TypeError msg), σ')
           ∧ send self data timeout σ' = (Raise (Exc TypeError msg), σ')).
Proof.
  intros self σ'.
  assert (services σ !! self = None) as Hfresh.
  { apply not_elem_of_dom, is_fresh. }
  set (fi := {| lock := false;
                infile := py_or infile_arg (environ (world σ) DEFAULT_INFILE);
                outfile := py_or outfile_arg (environ (world σ) DEFAULT_OUTFILE);
                receiver := None; sender := None |}).
  assert (services σ' !! self = Some {| _impls := ∅; fifo := Some fi |}) as Hs.
  { subst σ'. unfold AnalyticServiceFIFO, alloc_service.
    cbn [snd set_services services]. apply lookup_insert_eq. }
  split; [done|]. split; [exact Hfresh|].
  split.
  { intros l Hl. subst σ'. unfold AnalyticServiceFIFO, alloc_service.
    cbn [snd set_services services]. by apply lookup_insert_ne. }
  split; [unfold impls_of; by rewrite Hs|].
  split; [done|]. split; [done|].
  split; [apply emitted_app; subst σ'; unfold AnalyticServiceFIFO, alloc_service;
          cbn [snd set_services trace]; by rewrite app_nil_r|].
  exists fi. split; [unfold fifo_of; by rewrite Hs|].
  split; [done|]. split; [done|]. split; [done|].
  split; [intros p -> Hp; by destruct p|].
  split; [by intros [-> | ->]|].
  split; [intros p -> Hp; by destruct p|].
  split; [by intros [-> | ->]|].
  intros Hnone data timeout. eexists.
  assert (_ensureOpen self σ'
          = (Raise (Exc TypeError
                      "expected str, bytes or os.PathLike object, not NoneType"),
             σ')) as Hopen.
  { unfold _ensureOpen.
    rewrite (bind_ret _ _ _ _ _ (get_fifo_run self _ fi σ' Hs eq_refl)).
    change (receiver fi) with (@None File). rewrite Hnone.
    apply bind_raise. by apply bind_raise. }
  split; [unfold receive | unfold send]; by apply bind_raise.
Qed.

(** *** After [close] *)

Lemma close_open_pipes (self : loc) (svc : Service) (fi : Fifo) (fr fs : File)
    (σ : State) :
  services σ !! self = Some svc → fifo svc = Some fi → lock fi = false →
  receiver fi = Some fr → sender fi = Some fs →
  (close self σ).1 = Ret tt
  ∧ ∃ fr' fs',
      services (close self σ).2 !! self
      = Some {| _impls := _impls svc;
                fifo := Some {| lock := false; infile := infile fi;
                                outfile := outfile fi;
                                receiver := Some fr'; sender := Some fs' |} |}
      ∧ f_closed fr' = true ∧ f_closed fs' = true.
Proof.
  intros Hs Hf Hl Hr Hw. unfold close.
  rewrite (with_lock_run self svc fi _ σ) by done.
  set (svc' := {| _impls := _impls svc; fifo := Some (held fi) |}).
  set (σL := {| services := put_fifo self (held fi) (services σ);
                messages := messages σ; world := world σ;
                trace := trace σ ++ [EvAcquire self] |}).
  assert (services σL !! self = Some svc') as HsL by by apply put_fifo_lookup.
  rewrite (bind_ret _ _ _ _ _ (get_fifo_run self svc' (held fi) σL HsL eq_refl)).
  unfold close_file, set_fifo, tell, modify_world, mbind, mret,
    Py_bind, Py_ret. simpl. rewrite Hr, Hw.
  destruct fr as [rc rb], fs as [sc sb]. simpl.
  destruct rc, sc; simpl; (split; [done|]); do 2 eexists;
    (split;
       [rewrite ?lookup_alter_eq; unfold put_fifo; rewrite ?lookup_alter_eq, Hs;
        simpl; reflexivity
       |split; reflexivity]).
Qed.

Lemma select_closed (p : PipeEnd) (f : File) (timeout : Z) (σ : State) :
  f_closed f = true →
  ∃ msg, select_any p f timeout σ = (Raise (Exc ValueError msg), σ).
Proof.
  intros Hc. unfold select_any. rewrite Hc.
  destruct (timeout <? 0); by eexists.
Qed.

Lemma send_closed (self : loc) (svc : Service) (fi : Fifo) (fr fs : File)
    (data : string) (timeout : Z) (σ : State) :
  services σ !! self = Some svc → fifo svc = Some fi →
  receiver fi = Some fr → sender fi = Some fs → f_closed fs = true →
  ∃ msg, send self data timeout σ = (Raise (Exc ValueError msg), σ).
Proof.
  intros Hs Hf Hr Hw Hc.
  destruct (select_closed Outbound fs timeout σ Hc) as [msg Hsel].
  exists msg. unfold send.
  rewrite (bind_ret _ _ _ _ _ (ensureOpen_open self svc fi fr fs σ Hs Hf Hr Hw)).
  rewrite (bind_ret _ _ _ _ _ (get_fifo_run self svc fi σ Hs Hf)).
  rewrite Hw. unfold the_file.
  rewrite (bind_ret _ _ σ σ fs) by done.
  by apply bind_raise.
Qed.

Lemma receive_closed (self : loc) (svc : Service) (fi : Fifo) (fr fs : File)
    (timeout : Z) (σ : State) :
  services σ !! self = Some svc → fifo svc = Some fi →
  receiver fi = Some fr → sender fi = Some fs → f_closed fr = true →
  ∃ msg, receive self timeout σ = (Raise (Exc ValueError msg), σ).
Proof.
  intros Hs Hf Hr Hw Hc.
  destruct (select_closed Inbound fr timeout σ Hc) as [msg Hsel].
  exists msg. unfold receive.
  rewrite (bind_ret _ _ _ _ _ (ensureOpen_open self svc fi fr fs σ Hs Hf Hr Hw)).
  rewrite (bind_ret _ _ _ _ _ (get_fifo_run self svc fi σ Hs Hf)).
  rewrite Hr. unfold the_file.
  rewrite (bind_ret _ _ σ σ fr) by done.
  by apply bind_raise.
Qed.

(** X13.  [close] is final.  After it a closed file object is still there,
    so [_ensureOpen] opens nothing again: [send], [receive] and [serveOnce]
    raise a [ValueError] and leave the pipes alone, and another [close]
    closes nothing. *)
Theorem closed_pipes_stay_closed (self : loc) (svc : Service) (fi : Fifo)
    (fr fs : File) (data : string) (timeout : Z) (σ : State) :
  services σ !! self = Some svc → fifo svc = Some fi → lock fi = false →
  receiver fi = Some fr → sender fi = Some fs →
  let σc := (close self σ).2 in
  (close self σ).1 = Ret tt
  ∧ (∃ msg, send self data timeout σc = (Raise (Exc ValueError msg), σc))
  ∧ (∃ msg, receive self timeout σc = (Raise (Exc ValueError msg), σc))
  ∧ (∃ msg, (serveOnce self σc).1 = Raise (Exc ValueError msg))
  ∧ emitted σc (serveOnce self σc).2 = [EvAcquire self; EvRelease self]
  ∧ (close self σc).1 = Ret tt
  ∧ emitted σc (close self σc).2 = [EvAcquire self; EvRelease self].
Proof.
  intros Hs Hf Hl Hr Hw σc.
  destruct (close_open_pipes self svc fi fr fs σ Hs Hf Hl Hr Hw)
    as (Hret & fr' & fs' & Hsvc & Hrc & Hsc).
  fold σc in Hsvc. split; [exact Hret|].
  set (fic := {| lock := false; infile := infile fi; outfile := outfile fi;
                 receiver := Some fr'; sender := Some fs' |}) in *.
  split; [exact (send_closed self _ fic fr' fs' data timeout σc
                    Hsvc eq_refl eq_refl eq_refl Hsc)|].
  split; [exact (receive_closed self _ fic fr' fs' timeout σc
                    Hsvc eq_refl eq_refl eq_refl Hrc)|].
  pose proof (put_fifo_lookup self (held fic) (services σc) _ Hsvc) as HsL.
  set (σL := {| services := put_fifo self (held fic) (services σc);
                messages := messages σc; world := world σc;
                trace := trace σc ++ [EvAcquire self] |}) in *.
  destruct (receive_closed self _ (held fic) fr' fs' 0 σL
              HsL eq_refl eq_refl eq_refl Hrc) as [msg Hrecv].
  assert (serveOnce self σc = (Raise (Exc ValueError msg), release self σL))
    as Hround.
  { unfold serveOnce.
    rewrite (with_lock_ends self _ fic _ σc σL (Raise (Exc ValueError msg))
               Hsvc eq_refl eq_refl); [reflexivity|].
    by apply bind_raise. }
  rewrite Hround. cbn [fst snd]. split; [by exists msg|].
  split; [apply emitted_app; cbn; by rewrite <- app_assoc|].
  set (σb := (set_fifo self
                {| lock := true; infile := infile fi; outfile := outfile fi;
                   receiver := Some fr'; sender := Some fs' |} σL).2).
  assert (close self σc = (Ret tt, release self σb)) as Hclose.
  { unfold close.
    rewrite (with_lock_ends self _ fic _ σc σb (Ret tt) Hsvc eq_refl eq_refl);
      [reflexivity|].
    rewrite (bind_ret _ _ _ _ _ (get_fifo_run self _ (held fic) σL HsL eq_refl)).
    cbn [held receiver sender fic]. unfold close_file. rewrite Hrc, Hsc.
    reflexivity. }
  rewrite Hclose. cbn [fst snd]. split; [done|].
  apply emitted_app. cbn. by rewrite <- app_assoc.
Qed.

End PipeLifeCycle.

(** ** What the transport leaves alone *)

Section RegistryFrame.
Context `{Externals}.

(** [m] leaves every registry as it is. *)
Definition keeps_impls {A} (m : Py A) : Prop :=
  ∀ σ l, impls_of l (m σ).2 = impls_of l σ.

Lemma keeps_bind {A B} (m : Py A) (k : A → Py B) :
  keeps_impls m → (∀ a, keeps_impls (k a)) → keeps_impls (m ≫= k).
Proof.
  intros Hm Hk σ l. rewrite bind_run. specialize (Hm σ l).
  destruct (m σ) as [[a|e|] σ1]; simpl in *; [|done|done].
  rewrite <- Hm. apply Hk.
Qed.

Lemma keeps_still {A} (r : Outcome A) : keeps_impls (λ σ, (r, σ)).
Proof. done. Qed.

Lemma keeps_same_services {A} (m : Py A) :
  (∀ σ, services (m σ).2 = services σ) → keeps_impls m.
Proof. intros Hm σ l. unfold impls_of. by rewrite Hm. Qed.

Lemma keeps_get_service (self : loc) : keeps_impls (get_service self).
Proof.
  apply keeps_same_services. intros σ. unfold get_service.
  by destruct (services σ !! self).
Qed.

Lemma keeps_get_fifo (self : loc) : keeps_impls (get_fifo self).
Proof.
  apply keeps_bind; [apply keeps_get_service|]. intros svc.
  destruct (fifo svc); apply keeps_still.
Qed.

Lemma keeps_get_message (l : loc) : keeps_impls (get_message l).
Proof.
  apply keeps_same_services. intros σ. unfold get_message.
  by destruct (messages σ !! l).
Qed.

Lemma alter_fifo_impls (f : Service → option Fifo) (self l : loc)
    (m : gmap loc Service) :
  _impls <$> alter (λ svc, {| _impls := _impls svc; fifo := f svc |}) self m !! l
  = _impls <$> m !! l.
Proof.
  destruct (decide (l = self)) as [->|Hne].
  - rewrite lookup_alter_eq. by destruct (m !! self).
  - by rewrite lookup_alter_ne.
Qed.

Lemma keeps_set_fifo (self : loc) (fi : Fifo) : keeps_impls (set_fifo self fi).
Proof. intros σ l. apply (alter_fifo_impls (λ _, Some fi)). Qed.

Lemma release_impls (self l : loc) (σ : State) :
  impls_of l (release self σ) = impls_of l σ.
Proof.
  apply (alter_fifo_impls
           (λ svc, (λ fi, {| lock := false; infile := infile fi;
                             outfile := outfile fi; receiver := receiver fi;
                             sender := sender fi |}) <$> fifo svc)).
Qed.

Lemma keeps_open_pipe (path : option string) (p : PipeEnd) :
  keeps_impls (open_pipe path p).
Proof.
  apply keeps_same_services. intros σ. unfold open_pipe.
  destruct path as [name|]; [|done]. by destruct (os_open (world σ) name p).
Qed.

Lemma keeps_ensureOpen (self : loc) : keeps_impls (_ensureOpen self).
Proof.
  unfold _ensureOpen.
  apply keeps_bind; [apply keeps_get_fifo|]. intros fi.
  apply keeps_bind.
  { destruct (receiver fi); [apply keeps_still|].
    apply keeps_bind; [apply keeps_open_pipe|]. intros r. apply keeps_set_fifo. }
  intros _. apply keeps_bind; [apply keeps_get_fifo|]. intros fi'.
  destruct (sender fi'); [apply keeps_still|].
  apply keeps_bind; [apply keeps_open_pipe|]. intros s. apply keeps_set_fifo.
Qed.

Lemma keeps_select_any (p : PipeEnd) (f : File) (timeout : Z) :
  keeps_impls (select_any p f timeout).
Proof.
  apply keeps_same_services. intros σ. unfold select_any.
  destruct (timeout <? 0); [done|]. destruct (f_closed f); [done|].
  destruct (ready_after p (world σ)) as [d|];
    [destruct ((timeout =? 0) || (Z.of_N d <=? timeout))
    |destruct (timeout =? 0)]; done.
Qed.

Lemma keeps_the_file (f : option File) (attr : string) :
  keeps_impls (the_file f attr).
Proof. destruct f; apply keeps_still. Qed.

Lemma keeps_send (self : loc) (data : string) (timeout : Z) :
  keeps_impls (send self data timeout).
Proof.
  unfold send.
  apply keeps_bind; [apply keeps_ensureOpen|]. intros _.
  apply keeps_bind; [apply keeps_get_fifo|]. intros fi.
  apply keeps_bind; [apply keeps_the_file|]. intros f.
  apply keeps_bind; [apply keeps_select_any|]. intros [|]; simpl.
  - apply keeps_bind; [by apply keeps_same_services|]. intros _.
    apply keeps_bind; [by apply keeps_same_services|]. intros _.
    apply keeps_bind; [by apply keeps_same_services|]. intros _.
    apply keeps_set_fifo.
  - apply keeps_bind; [by apply keeps_same_services|]. intros _.
    apply keeps_still.
Qed.

Lemma keeps_receive (self : loc) (timeout : Z) :
  keeps_impls (receive self timeout).
Proof.
  unfold receive.
  apply keeps_bind; [apply keeps_ensureOpen|]. intros _.
  apply keeps_bind; [apply keeps_get_fifo|]. intros fi.
  apply keeps_bind; [apply keeps_the_file|]. intros f.
  apply keeps_bind; [apply keeps_select_any|]. intros [|]; simpl.
  - by apply keeps_same_services.
  - apply keeps_bind; [by apply keeps_same_services|]. intros _.
    apply keeps_still.
Qed.

Lemma keeps_with_lock {A} (self : loc) (body : Py A) :
  keeps_impls body → keeps_impls (with_lock self body).
Proof.
  intros Hb. unfold with_lock. apply keeps_bind.
  { unfold acquire. apply keeps_bind; [apply keeps_get_fifo|]. intros fi.
    destruct (lock fi); [apply keeps_still|].
    apply keeps_bind; [apply keeps_set_fifo|]. intros _.
    by apply keeps_same_services. }
  intros _ σ l. unfold try_finally. specialize (Hb σ l).
  destruct (body σ) as [[a|e|] σ1]; simpl in *; [| |done];
    by rewrite release_impls.
Qed.

Lemma keeps_close_file (p : PipeEnd) (f : File) : keeps_impls (close_file p f).
Proof.
  unfold close_file. destruct (f_closed f); [apply keeps_still|].
  apply keeps_bind; [by apply keeps_same_services|]. intros _.
  apply keeps_bind; [by apply keeps_same_services|]. intros _.
  apply keeps_still.
Qed.

Lemma keeps_close (self : loc) : keeps_impls (close self).
Proof.
  unfold close. apply keeps_with_lock.
  apply keeps_bind; [apply keeps_get_fifo|]. intros fi.
  apply keeps_bind.
  { destruct (receiver fi); [|apply keeps_still].
    apply keeps_bind; [apply keeps_close_file|]. intros f'. apply keeps_still. }
  intros r. apply keeps_bind.
  { destruct (sender fi); [|apply keeps_still].
    apply keeps_bind; [apply keeps_close_file|]. intros f'. apply keeps_still. }
  intros s. apply keeps_set_fifo.
Qed.

Lemma keeps_abort (ctx : Context) (c : StatusCode) (details : string) :
  keeps_impls (abort ctx c details).
Proof.
  unfold abort. apply keeps_bind; [by apply keeps_same_services|]. intros _.
  destruct (ctx_abort ctx c details); apply keeps_still.
Qed.

Lemma keeps_CallEndpoint (self : loc) (t : string) (req resp : loc)
    (ctx : Context) :
  keeps_impls (_CallEndpoint self t req resp ctx).
Proof.
  unfold _CallEndpoint.
  apply keeps_bind; [apply keeps_get_service|]. intros svc.
  apply keeps_bind.
  { destruct (_impls svc !! t); [apply keeps_still | apply keeps_abort]. }
  intros _. apply keeps_bind.
  { unfold invoke. destruct (_impls svc !! t) as [f|]; [|apply keeps_still].
    apply keeps_bind; [apply keeps_get_message|]. intros rq.
    apply keeps_bind; [apply keeps_get_message|]. intros rs.
    apply keeps_bind; [by apply keeps_same_services|]. intros _.
    apply keeps_bind; [by apply keeps_same_services|]. intros _.
    apply keeps_still. }
  intros [[e frames]|]; [|apply keeps_bind; [apply keeps_still|];
                           intros _; apply keeps_still].
  apply keeps_bind; [|intros _; apply keeps_still].
  destruct (isinstance e ValueError).
  { apply keeps_bind; [by apply keeps_same_services|]. intros _.
    apply keeps_abort. }
  destruct (isinstance e NotImplementedError).
  { apply keeps_bind; [by apply keeps_same_services|]. intros _.
    apply keeps_abort. }
  destruct (isinstance e Exception); [|apply keeps_still].
  apply keeps_bind; [by apply keeps_same_services|]. intros _.
  apply keeps_abort.
Qed.

Lemma keeps_serveOnce (self : loc) : keeps_impls (serveOnce self).
Proof.
  unfold serveOnce. apply keeps_with_lock.
  apply keeps_bind; [apply keeps_receive|]. intros line.
  apply keeps_bind.
  { apply keeps_same_services. intros σ.
    by destruct (parse_request_frame line σ) as (-> & _). }
  intros [[callType req] resp]. unfold respond.
  intros σ l. unfold try_except.
  pose proof (keeps_bind (_CallEndpoint self callType req resp FIFOContext)
                (λ resp, m ← get_message resp;
                         send self (dumps (ok_message (MessageToDict m))) 0))
    as Hbody.
  specialize (Hbody (keeps_CallEndpoint self callType req resp FIFOContext)).
  match goal with |- context [match ?b σ with _ => _ end] =>
    assert (keeps_impls b) as Hb end.
  { apply Hbody. intros resp'. apply keeps_bind; [apply keeps_get_message|].
    intros m. apply keeps_send. }
  specialize (Hb σ l).
  match goal with |- context [match ?b σ with _ => _ end] =>
    destruct (b σ) as [[a|e|] σ1] end; simpl in *; [done| |done].
  destruct e as [cls msg|c details]; simpl; [done|].
  rewrite <- Hb. apply keeps_send.
Qed.

(** X14.  Only registration writes the registry.  Serving, sending,
    receiving, closing, dispatching and the whole serving loop leave the
    registry of every service object as it was: no handler is added,
    replaced or dropped while the service runs. *)
Theorem transport_keeps_registry (self l : loc) (σ : State) :
  impls_of l (serveOnce self σ).2 = impls_of l σ
  ∧ impls_of l (close self σ).2 = impls_of l σ
  ∧ (∀ data timeout, impls_of l (send self data timeout σ).2 = impls_of l σ)
  ∧ (∀ timeout, impls_of l (receive self timeout σ).2 = impls_of l σ)
  ∧ (∀ t req resp ctx,
       impls_of l (_CallEndpoint self t req resp ctx σ).2 = impls_of l σ)
  ∧ (∀ fuel r σ', Run fuel self σ = Some (r, σ') → impls_of l σ' = impls_of l σ).
Proof.
  split; [apply keeps_serveOnce|]. split; [apply keeps_close|].
  split; [intros; apply keeps_send|]. split; [intros; apply keeps_receive|].
  split; [intros; apply keeps_CallEndpoint|].
  assert (∀ fuel σ0 r σ', serve_loop fuel self σ0 = Some (r, σ') →
                          impls_of l σ' = impls_of l σ0) as Hloop.
  { induction fuel as [|fuel IH]; intros σ0 r σ' Hrun; [done|].
    simpl in Hrun. pose proof (keeps_serveOnce self σ0 l) as Hk.
    destruct (serveOnce self σ0) as [[[]|e|] σ1]; simpl in Hk.
    - rewrite <- Hk. by apply (IH σ1 r).
    - by injection Hrun as <- <-.
    - by injection Hrun as <- <-. }
  intros fuel r σ' Hrun. unfold Run in Hrun.
  destruct (serve_loop fuel self σ) as [[[[]|e|] σ1]|] eqn:Hl; [| |done].
  - pose proof (Hloop fuel σ _ _ Hl) as H1.
    pose proof (keeps_close self σ1 l) as H2.
    destruct (close self σ1) as [[[]|e'|] σ2]; simpl in H2;
      injection Hrun as <- <-; by rewrite H2.
  - injection Hrun as <- <-. by apply (Hloop fuel σ Hang).
Qed.

End RegistryFrame.

(** ** Dispatch from any state *)

Section DispatchEffects.
Context `{Externals}.

(** What [_CallEndpoint self t req resp ctx] may emit. *)
Definition dispatch_event (t : string) (req resp : loc) (ev : Event) : Prop :=
  match ev with
  | EvInvoke t' rq rs => t' = t ∧ rq = req ∧ rs = resp
  | EvLog _ _ _ => True
  | EvAbort c _ => c = INVALID_ARGUMENT ∨ c = UNIMPLEMENTED ∨ c = UNKNOWN
  | _ => False
  end.

Ltac all_dispatch :=
  repeat (constructor; [simpl; first [assumption | tauto | done]|]);
  constructor.

Lemma emitted_same (σ σ' : State) : trace σ' = trace σ → emitted σ σ' = [].
Proof. intros Ht. apply emitted_app. by rewrite app_nil_r. Qed.

Lemma abort_for_codes (t : string) (e : PyExc) (frames : string) (log : Event)
    (c : StatusCode) (details : string) :
  abort_for t e frames = Some (log, c, details) →
  (c = INVALID_ARGUMENT ∨ c = UNIMPLEMENTED ∨ c = UNKNOWN)
  ∧ ∃ level msg info, log = EvLog level msg info.
Proof.
  unfold abort_for. intros Hab.
  destruct (isinstance e ValueError);
    [|destruct (isinstance e NotImplementedError);
      [|destruct (isinstance e Exception); [|done]]];
    injection Hab as <- <- <-; (split; [tauto | by do 3 eexists]).
Qed.

Lemma CallEndpoint_no_service (self : loc) (t : string) (req resp : loc)
    (ctx : Context) (σ : State) :
  services σ !! self = None →
  ∃ e, _CallEndpoint self t req resp ctx σ = (Raise e, σ).
Proof.
  intros Hs. eexists. unfold _CallEndpoint. apply bind_raise.
  unfold get_service. by rewrite Hs.
Qed.

Lemma CallEndpoint_no_message (self : loc) (svc : Service) (t : string)
    (req resp : loc) (ctx : Context) (σ : State) (h : Handler) :
  services σ !! self = Some svc → _impls svc !! t = Some h →
  messages σ !! req = None ∨ messages σ !! resp = None →
  ∃ e, _CallEndpoint self t req resp ctx σ = (Raise e, σ).
Proof.
  intros Hs Hi Hm. unfold _CallEndpoint.
  rewrite (bind_ret _ _ _ _ _ (get_service_run _ _ _ Hs)).
  unfold Handler in Hi. unfold Handler. rewrite Hi.
  unfold invoke, get_message, attribute_error, raise, mbind, mret, Py_bind,
    Py_ret. cbn [fst snd].
  destruct (messages σ !! req) as [rq|]; [|by eexists].
  destruct Hm as [Hm | Hm]; [done|]. rewrite Hm. by eexists.
Qed.

(** X15.  Whatever the state and the context, [_CallEndpoint] touches
    neither the registry, nor the pipes and the lock, nor any message but
    the response; it invokes at most one handler, the one asked for; every
    abort carries [INVALID_ARGUMENT], [UNIMPLEMENTED] or [UNKNOWN]; there
    are at most two aborts, and at most one when the context's [abort]
    raises, as gRPC's and [FIFOContext]'s do; and a call that returns,
    returns the response it was given. *)
Theorem CallEndpoint_effects (self : loc) (t : string) (req resp : loc)
    (ctx : Context) (σ : State) :
  let σ' := (_CallEndpoint self t req resp ctx σ).2 in
  services σ' = services σ ∧ world σ' = world σ
  ∧ (∀ l, l ≠ resp → messages σ' !! l = messages σ !! l)
  ∧ Forall (dispatch_event t req resp) (emitted σ σ')
  ∧ (count is_invoke (emitted σ σ') ≤ 1)%nat
  ∧ (count is_abort (emitted σ σ') ≤ 2)%nat
  ∧ ((∀ c details, is_Some (ctx_abort ctx c details)) →
     (count is_abort (emitted σ σ') ≤ 1)%nat)
  ∧ (∀ r, (_CallEndpoint self t req resp ctx σ).1 = Ret r → r = resp).
Proof.
  intros σ'. subst σ'.
  assert (∀ e, _CallEndpoint self t req resp ctx σ = (Raise e, σ) →
          services (_CallEndpoint self t req resp ctx σ).2 = services σ
          ∧ world (_CallEndpoint self t req resp ctx σ).2 = world σ
          ∧ (∀ l, l ≠ resp →
               messages (_CallEndpoint self t req resp ctx σ).2 !! l
               = messages σ !! l)
          ∧ Forall (dispatch_event t req resp)
              (emitted σ (_CallEndpoint self t req resp ctx σ).2)
          ∧ (count is_invoke
               (emitted σ (_CallEndpoint self t req resp ctx σ).2) ≤ 1)%nat
          ∧ (count is_abort
               (emitted σ (_CallEndpoint self t req resp ctx σ).2) ≤ 2)%nat
          ∧ ((∀ c details, is_Some (ctx_abort ctx c details)) →
             (count is_abort
                (emitted σ (_CallEndpoint self t req resp ctx σ).2) ≤ 1)%nat)
          ∧ (∀ r, (_CallEndpoint self t req resp ctx σ).1 = Ret r → r = resp))
    as Hnothing.
  { intros e ->. cbn [fst snd]. rewrite (emitted_same σ σ) by done.
    repeat split; try done; simpl; lia. }
  destruct (services σ !! self) as [svc|] eqn:Hs.
  2: { destruct (CallEndpoint_no_service self t req resp ctx σ Hs) as [e He].
       by apply (Hnothing e). }
  destruct (_impls svc !! t) as [h|] eqn:Hi.
  - destruct (messages σ !! req) as [rq|] eqn:Hq.
    2: { destruct (CallEndpoint_no_message self svc t req resp ctx σ h Hs Hi)
           as [e He]; [by left|]. by apply (Hnothing e). }
    destruct (messages σ !! resp) as [rs|] eqn:Hp.
    2: { destruct (CallEndpoint_no_message self svc t req resp ctx σ h Hs Hi)
           as [e He]; [by right|]. by apply (Hnothing e). }
    rewrite (CallEndpoint_registered self svc t req resp ctx σ h rq rs Hs Hi Hq Hp).
    cbv zeta. clear Hnothing.
    assert (∀ l, l ≠ resp →
              <[resp := (h rq rs).1]> (messages σ) !! l = messages σ !! l)
      as Hframe by (intros l Hl; by apply lookup_insert_ne).
    destruct ((h rq rs).2) as [[e frames]|].
    + destruct (abort_for t e (call_frame +:+ frames))
        as [[[log c] details]|] eqn:Hab.
      * destruct (abort_for_codes _ _ _ _ _ _ Hab)
          as (Hc & level & msg & info & ->).
        assert (emitted σ
                  (emit (EvAbort c details)
                     (emit (EvLog level msg info)
                        (set_messages <[resp := (h rq rs).1]>
                           (emit (EvInvoke t req resp) σ))))
                = [EvInvoke t req resp; EvLog level msg info; EvAbort c details])
          as Hev.
        { apply emitted_app. cbn. by rewrite <- !app_assoc. }
        destruct (ctx_abort ctx c details); cbn [fst snd]; rewrite Hev;
          (split; [done|]); (split; [done|]); (split; [exact Hframe|]);
          (split; [all_dispatch|]);
          (split; [simpl; lia|]); (split; [simpl; lia|]);
          (split; [intros _; simpl; lia|]); by intros r [= <-].
      * cbn [fst snd].
        rewrite (emitted_app σ _ [EvInvoke t req resp]) by done.
        split; [done|]. split; [done|]. split; [exact Hframe|].
        split; [all_dispatch|].
        split; [simpl; lia|]. split; [simpl; lia|].
        split; [intros _; simpl; lia|]. by intros r [=].
    + cbn [fst snd].
      rewrite (emitted_app σ _ [EvInvoke t req resp]) by done.
      split; [done|]. split; [done|]. split; [exact Hframe|].
      split; [all_dispatch|].
      split; [simpl; lia|]. split; [simpl; lia|].
      split; [intros _; simpl; lia|]. by intros r [= <-].
  - rewrite (CallEndpoint_unregistered self svc t req resp ctx σ Hs Hi).
    cbv zeta. clear Hnothing.
    destruct (ctx_abort ctx UNIMPLEMENTED _) as [e|] eqn:Hab1.
    + cbn [fst snd].
      rewrite (emitted_app σ _ [EvAbort UNIMPLEMENTED
                 ("Endpoint " +:+ repr t +:+ " not implemented")]) by done.
      split; [done|]. split; [done|]. split; [done|].
      split; [all_dispatch|].
      split; [simpl; lia|]. split; [simpl; lia|].
      split; [intros _; simpl; lia|]. by intros r [=].
    + match goal with |- context [emit (EvAbort UNKNOWN ?d) (emit ?log _)] =>
        assert (emitted σ
                  (emit (EvAbort UNKNOWN d)
                     (emit log
                        (emit (EvAbort UNIMPLEMENTED
                                 ("Endpoint " +:+ repr t +:+ " not implemented"))
                           σ)))
                = [EvAbort UNIMPLEMENTED
                     ("Endpoint " +:+ repr t +:+ " not implemented");
                   log; EvAbort UNKNOWN d]) as Hev
      end.
      { apply emitted_app. cbn. by rewrite <- !app_assoc. }
      destruct (ctx_abort ctx UNKNOWN _); cbn [fst snd]; rewrite Hev;
        (split; [done|]); (split; [done|]); (split; [done|]);
        (split; [all_dispatch|]);
        (split; [simpl; lia|]); (split; [simpl; lia|]);
        (split; [intros Hraises;
                 destruct (Hraises UNIMPLEMENTED
                             ("Endpoint " +:+ repr t +:+ " not implemented"))
                   as [e' He']; by rewrite Hab1 in He'|]);
        by intros r [= <-].
Qed.

End DispatchEffects.

(** ** The gRPC servicer *)

Section Servicer.
Context `{Externals}.

(** The four endpoint types: the name, the response class, the
    registration method of [AnalyticService] and the method of
    [_AnalyticServicer]. *)
Definition endpoints
  : list (string * MsgClass * (loc → Handler → Py loc)
          * (loc → loc → Context → Py loc)) :=
  [ (IMAGE_MANIPULATION, ImageManipulation,
     RegisterImageManipulation, DetectImageManipulation);
    (VIDEO_MANIPULATION, VideoManipulation,
     RegisterVideoManipulation, DetectVideoManipulation);
    (IMAGE_SPLICE, ImageSplice, RegisterImageSplice, DetectImageSplice);
    (IMAGE_CAMERA_MATCH, ImageCameraMatch,
     RegisterImageCameraMatch, DetectImageCameraMatch) ].

Lemma endpoints_spec (t : string) (cls : MsgClass)
    (register : loc → Handler → Py loc)
    (detect : loc → loc → Context → Py loc) :
  (t, cls, register, detect) ∈ endpoints →
  t ∈ _ALLOWED_IMPLS
  ∧ register = (λ self f, _RegisterImpl self t f)
  ∧ detect = (λ svc req ctx,
                resp ← alloc_message (new_message cls);
                _CallEndpoint svc t req resp ctx).
Proof.
  unfold endpoints. intros Hin.
  repeat (apply elem_of_cons in Hin as [Hin | Hin];
          [injection Hin as -> -> -> ->;
           split; [by apply allowed_iff; tauto | by split]|]).
  by apply elem_of_nil in Hin.
Qed.

(** X16.  Each [Detect...] method of the gRPC servicer uses the handler
    registered by the [Register...] method of the same endpoint type, and no
    other: after a registration the method of that type makes a new
    zero-valued response of the type's class and invokes the handler on it;
    the method of any other type that has no handler aborts with
    [UNIMPLEMENTED], invokes nothing and leaves its new response
    zero-valued. *)
Theorem Detect_uses_own_registration (t : string) (cls : MsgClass)
    (register : loc → Handler → Py loc)
    (detect : loc → loc → Context → Py loc)
    (self req : loc) (svc : Service) (f : Handler) (rq : Message)
    (ctx : Context) (σ : State) :
  (t, cls, register, detect) ∈ endpoints →
  services σ !! self = Some svc → _impls svc !! t = None →
  messages σ !! req = Some rq →
  let σ1 := (register self f σ).2 in
  let resp := fresh (dom (messages σ)) in
  (register self f σ).1 = Ret self
  ∧ (∃ rest, emitted σ1 (detect self req ctx σ1).2 = EvInvoke t req resp :: rest
             ∧ Forall (λ ev, is_invoke ev = false) rest)
  ∧ messages (detect self req ctx σ1).2 !! resp
    = Some (f rq (new_message cls)).1
  ∧ ((f rq (new_message cls)).2 = None →
     (detect self req ctx σ1).1 = Ret resp)
  ∧ ∀ t' cls' register' detect',
      (t', cls', register', detect') ∈ endpoints →
      t' ≠ t → _impls svc !! t' = None →
      ∃ rest,
        emitted σ1 (detect' self req ctx σ1).2
        = EvAbort UNIMPLEMENTED ("Endpoint " +:+ repr t' +:+ " not implemented")
          :: rest
        ∧ Forall (λ ev, is_invoke ev = false) rest
        ∧ messages (detect' self req ctx σ1).2 !! resp
          = Some (new_message cls').
Proof.
  intros Hin Hs Hnone Hq σ1 resp.
  destruct (endpoints_spec t cls register detect Hin) as (Ha & -> & ->).
  subst σ1. rewrite (RegisterImpl_fresh self t f svc σ Ha Hs Hnone).
  cbn [fst snd].
  set (svc1 := {| _impls := <[t := f]> (_impls svc); fifo := fifo svc |}).
  set (σ1 := set_services
               (alter (λ s, {| _impls := <[t := f]> (_impls svc);
                               fifo := fifo s |}) self) σ).
  assert (services σ1 !! self = Some svc1) as Hs1.
  { unfold σ1. cbn [set_services services]. by rewrite lookup_alter_eq, Hs. }
  assert (req ≠ resp) as Hne.
  { intros ->. pose proof (is_fresh (dom (messages σ))) as Hf.
    apply Hf. apply elem_of_dom. by eexists. }
  set (σ2 := λ zero : Message,
         {| services := services σ1; messages := <[resp := zero]> (messages σ);
            world := world σ; trace := trace σ |}).
  assert (∀ zero, alloc_message zero σ1 = (Ret resp, σ2 zero)) as Halloc by done.
  assert (∀ zero, services (σ2 zero) !! self = Some svc1) as Hs2 by done.
  assert (∀ zero, messages (σ2 zero) !! req = Some rq) as Hq2.
  { intros zero. unfold σ2. cbn [messages]. by rewrite lookup_insert_ne. }
  assert (∀ zero, messages (σ2 zero) !! resp = Some zero) as Hp2.
  { intros zero. unfold σ2. cbn [messages]. apply lookup_insert_eq. }
  split; [done|].
  assert (_impls svc1 !! t = Some f) as Hi1 by apply lookup_insert_eq.
  pose proof (CallEndpoint_registered self svc1 t req resp ctx
                (σ2 (new_message cls)) f rq (new_message cls)
                (Hs2 (new_message cls)) Hi1 (Hq2 (new_message cls))
                (Hp2 (new_message cls))) as Hcall.
  cbv zeta in Hcall.
  rewrite (bind_ret _ _ _ _ _ (Halloc (new_message cls))), Hcall. clear Hcall.
  split; [|split; [|split]].
  - destruct ((f rq (new_message cls)).2) as [[e frames]|].
    + destruct (abort_for t e (call_frame +:+ frames))
        as [[[log c] details]|] eqn:Hab.
      * destruct (abort_for_codes _ _ _ _ _ _ Hab)
          as (_ & level & msg & info & ->).
        exists [EvLog level msg info; EvAbort c details].
        split; [|by repeat constructor].
        apply emitted_app. destruct (ctx_abort ctx c details); cbn;
          by rewrite <- !app_assoc.
      * exists []. split; [by apply emitted_app | constructor].
    + exists []. split; [by apply emitted_app | constructor].
  - destruct ((f rq (new_message cls)).2) as [[e frames]|];
      [destruct (abort_for t e (call_frame +:+ frames)) as [[[log c] details]|];
       [destruct (ctx_abort ctx c details)|]|];
      cbn; by rewrite lookup_insert_eq.
  - by intros ->.
  - intros t' cls' register' detect' Hin' Hne' Hnone'.
    destruct (endpoints_spec t' cls' register' detect' Hin') as (_ & _ & ->).
    assert (_impls svc1 !! t' = None) as Hi1'.
    { unfold svc1. cbn [_impls]. by rewrite lookup_insert_ne. }
    pose proof (CallEndpoint_unregistered self svc1 t' req resp ctx
                  (σ2 (new_message cls')) (Hs2 (new_message cls')) Hi1')
      as Hcall.
    cbv zeta in Hcall.
    rewrite (bind_ret _ _ _ _ _ (Halloc (new_message cls'))), Hcall.
    destruct (ctx_abort ctx UNIMPLEMENTED _).
    + exists []. split; [by apply emitted_app|]. split; [constructor|].
      cbn. by rewrite lookup_insert_eq.
    + eexists [_; _].
      split; [apply emitted_app; destruct (ctx_abort ctx UNKNOWN _); cbn;
              by rewrite <- !app_assoc|].
      split; [by repeat constructor|].
      destruct (ctx_abort ctx UNKNOWN _); cbn; by rewrite lookup_insert_eq.
Qed.

(** X17.  The FIFO transport and the gRPC servicer agree on the
    endpoints: each wire code of [TYPES] names an allowed endpoint type and
    the response class that the [Detect...] method of that type uses, and
    every allowed endpoint type has a wire code. *)
Theorem TYPES_match_servicer :
  (∀ code t rqc rsc, assoc TYPES code = Some (t, rqc, rsc) →
     t ∈ _ALLOWED_IMPLS
     ∧ ∃ register detect, (t, rsc, register, detect) ∈ endpoints)
  ∧ (∀ t, t ∈ _ALLOWED_IMPLS →
       ∃ code rqc rsc, assoc TYPES code = Some (t, rqc, rsc)).
Proof.
  split.
  - intros code t rqc rsc Hcode. unfold TYPES in Hcode. cbn [assoc] in Hcode.
    repeat case_match; try done; injection Hcode as <- <- <-;
      (split; [apply allowed_iff; tauto|]); do 2 eexists; unfold endpoints;
      repeat (apply elem_of_cons; first [by left | right]).
  - intros t Ht. apply allowed_iff in Ht as [-> | [-> | [-> | ->]]].
    + by exists "imgmanip", ImageManipulationRequest, ImageManipulation.
    + by exists "vidmanip", VideoManipulationRequest, VideoManipulation.
    + by exists "imgsplice", ImageSpliceRequest, ImageSplice.
    + by exists "imgcammatch", ImageCameraMatchRequest, ImageCameraMatch.
Qed.

End Servicer.

(** ** Opting out *)

Section OptingOut.
Import OptOut.

(** X18.  [OptOutVideoAll] appends the three opt-out values to the
    response's own [opt_out] list, in the order temporal, spatial,
    detection, the first two being what [OptOutVideoLocalization] appends;
    what the list held stays in front, no other object changes, and the
    calls are not idempotent: [n] calls append the three values [n]
    times. *)
Theorem OptOutVideoAll_appends (resp : loc) (l : list VideoOptOutType)
    (s : gmap loc (list VideoOptOutType)) (n : nat) :
  s !! resp = Some l →
  OptOutVideoLocalization resp s
  = inr (<[resp := l ++ [VIDEO_OPT_OUT_TEMPORAL; VIDEO_OPT_OUT_SPATIAL]]> s)
  ∧ OptOutVideoAll resp s
    = inr (<[resp := l ++ [VIDEO_OPT_OUT_TEMPORAL; VIDEO_OPT_OUT_SPATIAL;
                           VIDEO_OPT_OUT_DETECTION]]> s)
  ∧ ∃ s', calls n resp s = inr s'
          ∧ s' !! resp
            = Some (l ++ mjoin (replicate n [VIDEO_OPT_OUT_TEMPORAL;
                                             VIDEO_OPT_OUT_SPATIAL;
                                             VIDEO_OPT_OUT_DETECTION]))
          ∧ ∀ other, other ≠ resp → s' !! other = s !! other.
Proof.
  intros Hl.
  assert (∀ l0 s0, s0 !! resp = Some l0 →
            OptOutVideoAll resp s0
            = inr (<[resp := l0 ++ [VIDEO_OPT_OUT_TEMPORAL; VIDEO_OPT_OUT_SPATIAL;
                                    VIDEO_OPT_OUT_DETECTION]]> s0)) as Hall.
  { intros l0 s0 H0. unfold OptOutVideoAll, OptOutVideoLocalization, extend.
    rewrite H0. unfold append.
    rewrite lookup_insert_eq, insert_insert_eq, <- app_assoc. reflexivity. }
  split; [unfold OptOutVideoLocalization, extend; by rewrite Hl|].
  split; [by apply Hall|].
  revert l s Hl. induction n as [|n IH]; intros l s Hl.
  - exists s. split; [done|]. simpl. by rewrite app_nil_r.
  - simpl. rewrite (Hall l s Hl).
    destruct (IH (l ++ [VIDEO_OPT_OUT_TEMPORAL; VIDEO_OPT_OUT_SPATIAL;
                        VIDEO_OPT_OUT_DETECTION])
                 (<[resp := l ++ [VIDEO_OPT_OUT_TEMPORAL; VIDEO_OPT_OUT_SPATIAL;
                                  VIDEO_OPT_OUT_DETECTION]]> s))
      as (s' & Hcalls & Hresp & Hother); [apply lookup_insert_eq|].
    exists s'. split; [exact Hcalls|]. split.
    + rewrite Hresp. by rewrite <- app_assoc.
    + intros other Hne. rewrite (Hother other Hne). by apply lookup_insert_ne.
Qed.

End OptingOut.

(** ** The gRPC server *)

Section GrpcServer.
Import Grpc.

Lemma sleep_loop_ends (env : Env) (k n : nat) (e : PyExc) (s : Server) :
  (∀ i, (i < k)%nat → sleep_ends env (slept s + i) = None) →
  sleep_ends env (slept s + k) = Some e →
  sleep_loop env (k + S n) s
  = Some (e, {| concurrency_safe := concurrency_safe s;
                made := made s ++ replicate (S k) (Sleep (3600 * 24));
                slept := slept s + S k |}).
Proof.
  revert s. induction k as [|k IH]; intros s Hquiet Hends.
  - simpl. rewrite Nat.add_0_r in Hends. rewrite Hends.
    do 3 f_equal. lia.
  - cbn [Nat.add sleep_loop].
    rewrite <- (Nat.add_0_r (slept s)), (Hquiet 0%nat) by lia.
    rewrite Nat.add_0_r.
    rewrite IH; cbn [slept made concurrency_safe].
    + do 2 f_equal. f_equal; [|lia].
      rewrite <- app_assoc. reflexivity.
    + intros i Hi. replace (S (slept s) + i)%nat with (slept s + S i)%nat by lia.
      apply Hquiet. lia.
    + by replace (S (slept s) + k)%nat with (slept s + S k)%nat by lia.
Qed.

(** A port that can be bound: [Start] returns. *)
Lemma Start_started (env : Env) (self : loc) (analytic_port max_workers : Z)
    (safe : bool) (bound : Z) (s : Server) :
  0 < max_workers →
  add_insecure_port env ("[::]:" +:+ pretty analytic_port) = inr bound →
  bound ≠ 0 →
  Start env self analytic_port max_workers safe s
  = (inr tt,
     {| concurrency_safe := Some safe;
        made := made s
                ++ [NewServer max_workers; AddAnalyticServicer self;
                    AddHealthServicer self;
                    AddInsecurePort ("[::]:" +:+ pretty analytic_port);
                    ServerStart; HealthSetServing "";
                    PrintStderr ("Analytic server started on port "
                                 +:+ pretty analytic_port +:+ " with PID "
                                 +:+ pretty (getpid env))];
        slept := slept s |}).
Proof.
  intros Hw Hbind Hbound. unfold Start.
  rewrite (proj2 (Z.leb_gt max_workers 0) Hw), Hbind.
  apply Z.eqb_neq in Hbound. rewrite Hbound. unfold call. cbn.
  by rewrite <- !app_assoc.
Qed.

(** X19.  [Start] adds both servicers and binds the port before it
    starts the server, and marks the service as serving only after the
    start.  When the port cannot be bound it raises a [RuntimeError] that
    names the port: the server is not started and the health status is not
    set; [Run] does not catch that error, so it leaves [Run] too, with the
    server never stopped. *)
Theorem Start_binds_before_serving (env : Env) (self : loc)
    (analytic_port max_workers : Z) (safe : bool) (fuel : nat) (s : Server) :
  0 < max_workers →
  let address := "[::]:" +:+ pretty analytic_port in
  let setup := [NewServer max_workers; AddAnalyticServicer self;
                AddHealthServicer self; AddInsecurePort address] in
  let started := Start env self analytic_port max_workers safe s in
  concurrency_safe started.2 = Some safe
  ∧ (∀ bound, add_insecure_port env address = inr bound → bound ≠ 0 →
       started.1 = inr tt
       ∧ made started.2
         = made s ++ setup
           ++ [ServerStart; HealthSetServing "";
               PrintStderr ("Analytic server started on port "
                            +:+ pretty analytic_port +:+ " with PID "
                            +:+ pretty (getpid env))])
  ∧ (add_insecure_port env address = inr 0 →
       started.1 = inl (Exc RuntimeError
                          ("can't bind to port " +:+ pretty analytic_port
                           +:+ ": already in use"))
       ∧ made started.2 = made s ++ setup
       ∧ Run env self analytic_port max_workers safe fuel s
         = Some (inl (Exc RuntimeError
                        ("can't bind to port " +:+ pretty analytic_port
                         +:+ ": already in use")), started.2))
  ∧ (∀ e, add_insecure_port env address = inl e →
       started.1 = inl e ∧ made started.2 = made s ++ setup).
Proof.
  intros Hw address setup started. subst started.
  unfold Run, Start. fold address.
  rewrite (proj2 (Z.leb_gt max_workers 0) Hw).
  destruct (add_insecure_port env address) as [e|bound] eqn:Hbind.
  - split; [done|]. split; [done|]. split; [done|].
    intros e' [= <-]. cbn. by rewrite <- !app_assoc.
  - destruct (bound =? 0) eqn:Hzero.
    + apply Z.eqb_eq in Hzero as ->.
      split; [done|]. split; [by intros bound [= <-]|].
      split; [|done]. intros _. cbn. by rewrite <- !app_assoc.
    + apply Z.eqb_neq in Hzero.
      split; [done|].
      split; [|split; [by intros [= ->]|done]].
      intros bound' [= <-] _. cbn. by rewrite <- !app_assoc.
Qed.

(** X20.  Once the server is started [Run] sleeps until a [time.sleep]
    is interrupted.  A [KeyboardInterrupt] makes it stop the server and
    return 0; any [Exception] makes it stop the server, log the exception
    and return -1; anything else ([SystemExit]) leaves [Run] with the
    server still running. *)
Theorem Run_exit_code (env : Env) (self : loc) (analytic_port max_workers : Z)
    (safe : bool) (k n : nat) (e : PyExc) (bound : Z) (s : Server) :
  0 < max_workers →
  add_insecure_port env ("[::]:" +:+ pretty analytic_port) = inr bound →
  bound ≠ 0 →
  (∀ i, (i < k)%nat → sleep_ends env (slept s + i) = None) →
  sleep_ends env (slept s + k) = Some e →
  let started := (Start env self analytic_port max_workers safe s).2 in
  let asleep := made started ++ replicate (S k) (Sleep (3600 * 24)) in
  ∃ s',
    Run env self analytic_port max_workers safe (k + S n) s
    = Some (if isinstance e KeyboardInterrupt then inr 0
            else if isinstance e Exception then inr (-1)
            else inl e, s')
    ∧ slept s' = (slept s + S k)%nat
    ∧ made s'
      = asleep
        ++ (if isinstance e KeyboardInterrupt then
              [ServerStop 0; LoggingInfo "Server stopped"]
            else if isinstance e Exception then
              [ServerStop 0;
               LoggingError ("Caught exception: " +:+ str_exc e)]
            else []).
Proof.
  intros Hw Hbind Hbound Hquiet Hends started asleep. subst started asleep.
  unfold Run.
  rewrite (Start_started env self analytic_port max_workers safe bound s
             Hw Hbind Hbound).
  rewrite (sleep_loop_ends env k n e) by done.
  destruct (isinstance e KeyboardInterrupt);
    [|destruct (isinstance e Exception)];
    eexists; (split; [reflexivity|]); cbn [made slept call snd];
    (split; [done|]).
  - by rewrite <- app_assoc.
  - by rewrite <- app_assoc.
  - by rewrite app_nil_r.
Qed.

End GrpcServer.

(** ** Waiting without a deadline *)

Section NoDeadline.
Context `{Externals}.












End NoDeadline.

(** ** Requests and answers, in order *)

Section InOrder.
Context `{Externals}.

#[local] Arguments assoc : simpl never.
#[local] Arguments dumps : simpl never.







End InOrder.

(** ** The statements above, on the fixture *)

Section CoverageExamples.
#[local] Existing Instance Fixture.toy.
Import Fixture Scenes.

Ltac run := vm_compute; reflexivity.



(** That line is not the one with the bare kind name and the bare
    message. *)
Example abort_line_format :
  out_pipe (world (serveOnce 0%nat (opened bad_crop [request_line])).2)
  ≠ spec_failure_line "InvalidArgument" "bad crop" +:+ chr newline.
Proof. intros Heq. vm_compute in Heq. discriminate Heq. Qed.


(** The handler calls [sys.exit(1)]. *)
Lemma serveOnce_exit_signal_witness :
  (serveOnce 0%nat (opened exits [request_line])).1 = Raise (Exc SystemExit "1")
  ∧ out_pipe (world (serveOnce 0%nat (opened exits [request_line])).2) = "".
Proof.
  unshelve epose proof
    (serveOnce_exit_signal 0%nat (service_of exits open_fifo) open_fifo
       new_file new_file 0%N request_line request_fields "imgmanip"
       IMAGE_MANIPULATION ImageManipulationRequest ImageManipulation
       (JObject []) [] (opened exits [request_line])
       _ _ _ _ _ _ _ _ _ _ _ _ _ exits (Exc SystemExit "1") handler_frames
       _ _ _) as W; try run.
  cbv zeta in W. destruct W as (Hout & _ & Hpipe & _).
  split; [exact Hout|]. rewrite Hpipe. run.
Defined.

(** The line [{}] has no ["type"]. *)
Lemma serveOnce_protocol_error_witness :
  (serveOnce 0%nat (opened bad_crop [empty_object_line])).1
  = Raise (Exc ValueError "Message had no 'type' field")
  ∧ emitted (opened bad_crop [empty_object_line])
      (serveOnce 0%nat (opened bad_crop [empty_object_line])).2
    = [EvAcquire 0%nat; EvSelect Inbound; EvReadline empty_object_line;
       EvRelease 0%nat].
Proof.
  unshelve epose proof
    (serveOnce_protocol_error 0%nat (service_of bad_crop open_fifo) open_fifo
       new_file new_file 0%N empty_object_line
       (opened bad_crop [empty_object_line]) _ _ _ _ _ _ _) as W; try run.
  cbv zeta in W. destruct W as (_ & _ & Hobject).
  destruct (Hobject [] ltac:(run)) as [Hno_type _].
  destruct (Hno_type ltac:(run)) as (Hout & Hev & _).
  by split.
Defined.

(** No request comes. *)
Lemma blocked_round_keeps_lock_witness :
  (serveOnce 0%nat (opened bad_crop [])).1 = Hang
  ∧ (close 0%nat (serveOnce 0%nat (opened bad_crop [])).2).1 = Hang.
Proof.
  unshelve epose proof
    (blocked_round_keeps_lock 0%nat (service_of bad_crop open_fifo) open_fifo
       new_file new_file 0 (opened bad_crop []) _ _ _ _ _ _ _) as W; try run.
  cbv zeta in W. destruct W as (Hout & _ & _ & Hclose & _).
  split; [exact Hout|]. by rewrite Hclose.
Defined.

(** One request, then a line that is no JSON. *)
Lemma Run_ends_closed_witness :
  ∃ σ',
    Run (1 + 1) 0%nat (opened score_half [request_line; garbage_line])
    = Some (Raise (Exc JSONDecodeError
                     "Expecting value: line 1 column 1 (char 0)"), σ')
    ∧ (lock <$> fifo_of 0%nat σ') = Some false.
Proof.
  unshelve epose proof
    (Run_ends_closed 1 0 0%nat (opened score_half [request_line; garbage_line])
       (serveOnce 0%nat (opened score_half [request_line; garbage_line])).2
       (Exc JSONDecodeError "Expecting value: line 1 column 1 (char 0)")
       (service_of score_half open_fifo) open_fifo _ _ _ _ _) as W; try run.
  destruct W as (σ' & fi' & closes & HRun & Hfi & Hlock & _).
  exists σ'. split; [exact HRun|]. by rewrite Hfi, <- Hlock.
Defined.

Lemma merges_app (l1 l2 : list (Thread * Event)) : merges l1 l2 (l1 ++ l2).
Proof.
  induction l1 as [|x l1 IH]; simpl.
  - induction l2 as [|y l2 IH]; by constructor.
  - by constructor.
Qed.

(** A round that answers a request, and then a [close]. *)
Lemma serve_close_serial_witness :
  let σ := opened score_half [request_line] in
  let g := tag Serving (emitted σ (serveOnce 0%nat σ).2)
           ++ tag Closing (emitted σ (close 0%nat σ).2) in
  lock_respected 0%nat None g
  ∧ (g = tag Serving (emitted σ (serveOnce 0%nat σ).2)
         ++ tag Closing (emitted σ (close 0%nat σ).2)
     ∨ g = tag Closing (emitted σ (close 0%nat σ).2)
           ++ tag Serving (emitted σ (serveOnce 0%nat σ).2)).
Proof.
  intros σ g.
  assert (lock_respected 0%nat None g) as Hlock by (vm_compute; tauto).
  split; [exact Hlock|].
  exact (serve_close_serial 0%nat σ σ g (merges_app _ _) Hlock).
Defined.

(** The fixture before its pipes are opened. *)
Lemma ensureOpen_opens_in_order_witness :
  (_ensureOpen 0%nat (started bad_crop [])).1 = Ret tt
  ∧ emitted (started bad_crop []) (_ensureOpen 0%nat (started bad_crop [])).2
    = [EvOpen Inbound; EvOpen Outbound].
Proof.
  unshelve epose proof
    (ensureOpen_opens_in_order 0%nat (service_of bad_crop fresh_fifo) fresh_fifo
       "in" "out" (started bad_crop []) _ _ _ _ _ _) as W; try run.
  cbv zeta in W. destruct W as (Hopens & _).
  destruct (Hopens ltac:(run) ltac:(run)) as (Hout & Hev & _).
  by split.
Defined.

(** Sending after [close]. *)
Lemma closed_pipes_stay_closed_witness :
  ∃ msg,
    (send 0%nat "ping" 1 (close 0%nat (opened bad_crop [])).2).1
    = Raise (Exc ValueError msg).
Proof.
  unshelve epose proof
    (closed_pipes_stay_closed 0%nat (service_of bad_crop open_fifo) open_fifo
       new_file new_file "ping" 1 (opened bad_crop []) _ _ _ _ _) as W;
    try run.
  cbv zeta in W. destruct W as (_ & [msg Hsend] & _).
  exists msg. by rewrite Hsend.
Defined.

(** A splice handler registered on the fixture, and a request at
    location 0. *)
Lemma Detect_uses_own_registration_witness :
  let σ1 := (RegisterImageSplice 0%nat score_half (ready bad_crop)).2 in
  (DetectImageSplice 0%nat 0%nat FIFOContext σ1).1 = Ret 2%nat
  ∧ messages (DetectImageSplice 0%nat 0%nat FIFOContext σ1).2 !! 2%nat
    = Some [("score", JFloat (FDec false 0 [D5] None))].
Proof.
  unshelve epose proof
    (Detect_uses_own_registration IMAGE_SPLICE ImageSplice RegisterImageSplice
       DetectImageSplice 0%nat 0%nat
       {| _impls := {[ IMAGE_MANIPULATION := bad_crop ]};
          fifo := fifo_of 0%nat (ready bad_crop) |}
       score_half [("uri", JString "a.png")] FIFOContext (ready bad_crop)
       _ _ _ _) as W.
  { unfold endpoints. repeat (apply elem_of_cons; first [by left | right]). }
  1-3: run.
  cbv zeta in W. destruct W as (_ & _ & Hresp & Hret & _).
  split; [exact (Hret eq_refl) | exact Hresp].
Defined.

(** Two calls on a response that had opted out of nothing. *)
Lemma OptOutVideoAll_appends_witness :
  ∃ s', OptOut.calls 2 0%nat {[ 0%nat := [] ]} = inr s'
        ∧ s' !! 0%nat
          = Some [OptOut.VIDEO_OPT_OUT_TEMPORAL; OptOut.VIDEO_OPT_OUT_SPATIAL;
                  OptOut.VIDEO_OPT_OUT_DETECTION;
                  OptOut.VIDEO_OPT_OUT_TEMPORAL; OptOut.VIDEO_OPT_OUT_SPATIAL;
                  OptOut.VIDEO_OPT_OUT_DETECTION].
Proof.
  destruct (OptOutVideoAll_appends 0%nat [] {[ 0%nat := [] ]} 2)
    as (_ & _ & s' & Hcalls & Hresp & _); [run|].
  exists s'. by split.
Defined.

(** The default port, taken by another process. *)
Lemma Start_binds_before_serving_witness :
  (Grpc.Start port_taken 0%nat 50051 10 false idle).1
  = inl (Exc RuntimeError "can't bind to port 50051: already in use")
  ∧ Grpc.Run port_taken 0%nat 50051 10 false 1 idle
    = Some (inl (Exc RuntimeError "can't bind to port 50051: already in use"),
            (Grpc.Start port_taken 0%nat 50051 10 false idle).2).
Proof.
  destruct (Start_binds_before_serving port_taken 0%nat 50051 10 false 1 idle)
    as (_ & _ & Htaken & _); [lia|].
  destruct (Htaken ltac:(run)) as (Hout & _ & HRun).
  split; [exact Hout | exact HRun].
Defined.

(** Control-C during the third sleep. *)
Lemma Run_exit_code_witness :
  ∃ s', Grpc.Run interrupted 0%nat 50051 10 false (2 + 1) idle = Some (inr 0, s')
        ∧ Grpc.slept s' = 3%nat.
Proof.
  unshelve epose proof
    (Run_exit_code interrupted 0%nat 50051 10 false 2 0
       (Exc KeyboardInterrupt "") 50051 idle _ _ _ _ _) as W.
  { lia. }
  { run. }
  { lia. }
  { intros i Hi. destruct i as [|[|i]]; [run | run | lia]. }
  { run. }
  cbv zeta in W. destruct W as (s' & HRun & Hslept & _).
  exists s'. split; [exact HRun | exact Hslept].
Defined.


End CoverageExamples.

(** ** The abort carrier stays inside *)

Section Carrier.
Context `{Externals}.

(** What [m] raises satisfies [Q]. *)
Definition only_raises {A} (Q : PyExc → Prop) (m : Py A) : Prop :=
  ∀ σ e, (m σ).1 = Raise e → Q e.

Lemma only_raises_bind {A B} (Q : PyExc → Prop) (m : Py A) (k : A → Py B) :
  only_raises Q m → (∀ a, only_raises Q (k a)) → only_raises Q (m ≫= k).
Proof.
  intros Hm Hk σ e. rewrite bind_run. specialize (Hm σ).
  destruct (m σ) as [[a|e0|] σ1]; simpl in *; [apply Hk | | done].
  intros [= <-]. by apply Hm.
Qed.

Lemma only_raises_tidy {A} (P : Event → Prop) (Q : PyExc → Prop) (m : Py A) :
  tidy P Q m → only_raises Q m.
Proof. intros Ht σ e Hr. destruct (Ht σ) as (t & _ & _ & Hq). by apply Hq. Qed.

Lemma receive_only_Exc (self : loc) (timeout : Z) :
  only_raises is_Exc (receive self timeout).
Proof.
  apply (only_raises_tidy (λ _, True)). unfold receive.
  apply tidy_bind; [by apply tidy_ensureOpen; try apply is_Exc_Exc|].
  intros []. apply tidy_bind; [by apply tidy_get_fifo; apply is_Exc_Exc|].
  intros fi. apply tidy_bind; [by apply tidy_the_file; apply is_Exc_Exc|].
  intros f. apply tidy_bind; [by apply tidy_select_any; try apply is_Exc_Exc|].
  intros [|]; simpl.
  - intros σ. eexists [_]. split; [done|]. split; [by repeat constructor|done].
  - apply tidy_bind; [apply tidy_modify_world|]. intros [].
    apply tidy_raise, is_Exc_Exc.
Qed.

Lemma acquire_only_Exc (self : loc) : only_raises is_Exc (acquire self).
Proof.
  apply (only_raises_tidy (λ _, True)). unfold acquire.
  apply tidy_bind; [by apply tidy_get_fifo; apply is_Exc_Exc|]. intros fi.
  destruct (lock fi); [apply tidy_hang|].
  apply tidy_bind; [apply tidy_set_fifo|]. intros []. by apply tidy_tell.
Qed.

Lemma with_lock_only_raises {A} (Q : PyExc → Prop) (self : loc) (body : Py A) :
  (∀ cls msg, Q (Exc cls msg)) →
  only_raises Q body → only_raises Q (with_lock self body).
Proof.
  intros HQ Hb. unfold with_lock. apply only_raises_bind.
  { intros σ e Hr. destruct (acquire_only_Exc self σ e Hr) as (cls & msg & ->).
    apply HQ. }
  intros [] σ e. unfold try_finally. specialize (Hb σ).
  destruct (body σ) as [[a|e0|] σ1]; simpl in *; [done| |done].
  intros [= <-]. by apply Hb.
Qed.

Lemma respond_only_Exc (self : loc) (t : string) (req resp : loc) :
  only_raises is_Exc (respond self t req resp).
Proof.
  intros σ e. unfold respond, try_except.
  match goal with |- context [match ?b σ with _ => _ end] =>
    destruct (b σ) as [[a|e0|] σ1] end; simpl; [done| |done].
  destruct e0 as [cls msg|c details]; simpl.
  - intros [= <-]. apply is_Exc_Exc.
  - apply send_raises_Exc.
Qed.

Lemma close_only_Exc (self : loc) : only_raises is_Exc (close self).
Proof.
  unfold close. apply with_lock_only_raises; [apply is_Exc_Exc|].
  apply (only_raises_tidy (λ _, True)).
  apply tidy_bind; [by apply tidy_get_fifo; apply is_Exc_Exc|]. intros fi.
  assert (∀ p f, tidy (λ _ : Event, True) is_Exc (close_file p f)) as Hcf.
  { intros p f. unfold close_file. destruct (f_closed f); [apply tidy_ret|].
    apply tidy_bind; [by apply tidy_tell|]. intros [].
    apply tidy_bind; [apply tidy_modify_world|]. intros []. apply tidy_ret. }
  apply tidy_bind.
  { destruct (receiver fi); [|apply tidy_ret].
    apply tidy_bind; [apply Hcf|]. intros f'. apply tidy_ret. }
  intros r. apply tidy_bind.
  { destruct (sender fi); [|apply tidy_ret].
    apply tidy_bind; [apply Hcf|]. intros f'. apply tidy_ret. }
  intros s. apply tidy_set_fifo.
Qed.

Hypothesis loads_plain : ∀ line e, json_loads line = inl e → is_Exc e.
Hypothesis ParseDict_plain : ∀ v m e, ParseDict v m = inl e → is_Exc e.

Lemma parse_request_only_Exc (line : string) :
  only_raises is_Exc (parse_request line).
Proof.
  apply (only_raises_tidy (λ _, True)). unfold parse_request.
  apply tidy_bind; [apply tidy_lift, loads_plain|]. intros msg.
  apply tidy_bind.
  { unfold py_in. destruct msg; try apply tidy_ret;
      apply tidy_raise, is_Exc_Exc. }
  intros [|]; simpl; [|apply tidy_raise, is_Exc_Exc].
  apply tidy_bind.
  { unfold getitem. destruct msg; try (apply tidy_raise, is_Exc_Exc).
    case_match; [apply tidy_ret | apply tidy_raise, is_Exc_Exc]. }
  intros key. apply tidy_bind.
  { unfold TYPES_getitem. destruct key; try (apply tidy_raise, is_Exc_Exc).
    case_match; [apply tidy_ret | apply tidy_raise, is_Exc_Exc]. }
  intros [[callType makeReq] makeResp].
  apply tidy_bind; [apply tidy_alloc_message|]. intros req.
  apply tidy_bind; [apply tidy_alloc_message|]. intros resp.
  apply tidy_bind.
  { unfold getitem. destruct msg; try (apply tidy_raise, is_Exc_Exc).
    case_match; [apply tidy_ret | apply tidy_raise, is_Exc_Exc]. }
  intros value.
  apply tidy_bind; [apply tidy_get_message, is_Exc_Exc|]. intros rq.
  apply tidy_bind; [apply tidy_lift, ParseDict_plain|]. intros rq'.
  apply tidy_bind; [apply tidy_set_message|]. intros []. apply tidy_ret.
Qed.

Lemma serveOnce_only_Exc (self : loc) : only_raises is_Exc (serveOnce self).
Proof.
  unfold serveOnce. apply with_lock_only_raises; [apply is_Exc_Exc|].
  apply only_raises_bind; [apply receive_only_Exc|]. intros line.
  apply only_raises_bind; [apply parse_request_only_Exc|].
  intros [[callType req] resp]. apply respond_only_Exc.
Qed.

(** X23.  [FIFOContextAbortedError] never leaves the transport.  Provided
    that [json.loads] and [ParseDict] do not raise it themselves, no call
    of [serveOnce] and no run of [Run] ends with the abort carrier,
    whatever the state, the handlers and the peer: every abort of
    [_CallEndpoint] is caught in [serveOnce] and turned into a line for the
    peer. *)
Theorem carrier_stays_inside (self : loc) (σ : State) (c : StatusCode)
    (details : string) :
  (serveOnce self σ).1 ≠ Raise (FIFOContextAbortedError c details)
  ∧ ∀ fuel σ',
      Run fuel self σ ≠ Some (Raise (FIFOContextAbortedError c details), σ').
Proof.
  assert (∀ e, is_Exc e → e ≠ FIFOContextAbortedError c details) as Hplain.
  { by intros e (cls & msg & ->). }
  split.
  { intros Hr. by apply (Hplain _ (serveOnce_only_Exc self σ _ Hr)). }
  assert (∀ fuel σ0 e σ', serve_loop fuel self σ0 = Some (Raise e, σ') →
                          is_Exc e) as Hloop.
  { induction fuel as [|fuel IH]; intros σ0 e σ' Hrun; [done|].
    simpl in Hrun. pose proof (serveOnce_only_Exc self σ0) as Hs.
    destruct (serveOnce self σ0) as [[[]|e0|] σ1]; simpl in Hs.
    - by apply (IH σ1 e σ').
    - injection Hrun as <- <-. by apply Hs.
    - done. }
  intros fuel σ' Hrun. unfold Run in Hrun.
  destruct (serve_loop fuel self σ) as [[[[]|e|] σ1]|] eqn:Hl; [| |done].
  - pose proof (Hloop fuel σ e σ1 Hl) as He.
    pose proof (close_only_Exc self σ1) as Hc.
    destruct (close self σ1) as [[[]|e'|] σ2]; simpl in Hc.
    + injection Hrun as -> _. by apply (Hplain _ He).
    + injection Hrun as -> _. by apply (Hplain _ (Hc _ eq_refl)).
    + done.
  - done.
Qed.

End Carrier.

Section CarrierExample.
#[local] Existing Instance Fixture.toy.
Import Fixture Scenes.

(** The toy [json.loads] and [ParseDict] raise their own errors only. *)
Lemma carrier_stays_inside_witness :
  (serveOnce 0%nat (opened bad_crop [request_line])).1 = Ret tt
  ∧ (serveOnce 0%nat (opened bad_crop [request_line])).1
    ≠ Raise (FIFOContextAbortedError INVALID_ARGUMENT "bad crop").
Proof.
  split; [vm_compute; reflexivity|].
  refine (proj1 (carrier_stays_inside _ _ 0%nat
                   (opened bad_crop [request_line]) INVALID_ARGUMENT
                   "bad crop")).
  - intros line e. simpl. repeat case_match; intros [= <-]; apply is_Exc_Exc.
  - intros v m e. simpl. destruct v; intros [= <-]; apply is_Exc_Exc.
Defined.

End CarrierExample.
